(** * conf_migrate: shallow embedding of tools/conf_migration_tool/conf_migrate.py

    Python [str] values are modelled by [string]; a character is an [ascii]
    (a code point below 256).  Python [int] values are [Z] (indices) or [N]
    (the numbers read from a version string).  A [dict] that is only looked up
    and assigned is a [gmap]; the one dictionary whose iteration order reaches
    the output ([added_keys]) is an insertion-ordered association list. *)

From Stdlib Require Import ZArith NArith Ascii String List Bool Lia.
From Stdlib Require DecimalString DecimalN DecimalPos.
From stdpp Require Import base option list list_numbers strings gmap sorting.

Local Open Scope Z_scope.

(** ** Strings *)

Fixpoint str_take (n : nat) (s : string) : string :=
  match n, s with
  | S n', String c s' => String c (str_take n' s')
  | _, _ => EmptyString
  end.

Fixpoint str_drop (n : nat) (s : string) : string :=
  match n, s with
  | S n', String _ s' => str_drop n' s'
  | _, _ => s
  end.

(** [s[a:b]] for [0 <= a], [0 <= b]. *)
Definition str_slice (a b : nat) (s : string) : string :=
  str_take (b - a) (str_drop a s).

(** [''.join(l)] *)
Definition str_join (l : list string) : string :=
  foldr String.append EmptyString l.

(** ** The regular expressions of the module

    The two patterns of the source use single characters and character
    classes, greedy and lazy repetition of a class, capture groups,
    sequence, ordered alternation, a lookahead, [^] and [$].  The matcher
    below is a backtracking matcher in continuation-passing style, as
    Python's [re] is: alternatives are tried from left to right, a greedy
    repetition tries the longest run first, a lazy one the shortest. *)

Module Re.

Inductive regex : Type :=
| Chr (p : ascii → bool)
| Star (p : ascii → bool)
| Plus (p : ascii → bool)
| StarLazy (p : ascii → bool)
| PlusLazy (p : ascii → bool)
| Group (g : nat) (r : regex)
| Seq (r1 r2 : regex)
| Alt (r1 r2 : regex)
| Ahead (r : regex)
| Dollar
| Caret.

(** Span [(start, end)] of each group that took part in the match. *)
Definition groups : Type := nat → option (nat * nat).

Definition no_groups : groups := λ _, None.

Definition set_group (g : nat) (sp : nat * nat) (gs : groups) : groups :=
  λ g', if Nat.eqb g' g then Some sp else gs g'.

Definition result : Type := (nat * groups)%type.

Definition cont : Type := nat → string → groups → option result.

Definition accept : cont := λ pos _ gs, Some (pos, gs).

Definition orelse (a b : option result) : option result :=
  match a with Some x => Some x | None => b end.

Definition when0 (min : nat) (a : option result) : option result :=
  match min with O => a | S _ => None end.

Fixpoint rep_greedy (p : ascii → bool) (min pos : nat) (rest : string)
    (gs : groups) (k : cont) : option result :=
  match rest with
  | String c rest' =>
      if p c
      then orelse (rep_greedy p (Nat.pred min) (S pos) rest' gs k)
                  (when0 min (k pos rest gs))
      else when0 min (k pos rest gs)
  | EmptyString => when0 min (k pos rest gs)
  end.

Fixpoint rep_lazy (p : ascii → bool) (min pos : nat) (rest : string)
    (gs : groups) (k : cont) : option result :=
  orelse (when0 min (k pos rest gs))
    match rest with
    | String c rest' =>
        if p c then rep_lazy p (Nat.pred min) (S pos) rest' gs k else None
    | EmptyString => None
    end.

Definition is_nl (c : ascii) : bool := Ascii.eqb c "010"%char.

(** [$] without MULTILINE: at the end, or before a newline that ends the
    string. *)
Definition at_dollar (rest : string) : bool :=
  match rest with
  | EmptyString => true
  | String c EmptyString => is_nl c
  | _ => false
  end.

Fixpoint exec (r : regex) (pos : nat) (rest : string) (gs : groups)
    (k : cont) : option result :=
  match r with
  | Chr p =>
      match rest with
      | String c rest' => if p c then k (S pos) rest' gs else None
      | EmptyString => None
      end
  | Star p => rep_greedy p 0 pos rest gs k
  | Plus p => rep_greedy p 1 pos rest gs k
  | StarLazy p => rep_lazy p 0 pos rest gs k
  | PlusLazy p => rep_lazy p 1 pos rest gs k
  | Group g r1 =>
      exec r1 pos rest gs
        (λ pos' rest' gs', k pos' rest' (set_group g (pos, pos') gs'))
  | Seq r1 r2 =>
      exec r1 pos rest gs (λ pos' rest' gs', exec r2 pos' rest' gs' k)
  | Alt r1 r2 => orelse (exec r1 pos rest gs k) (exec r2 pos rest gs k)
  | Ahead r1 =>
      match exec r1 pos rest gs accept with
      | Some (_, gs') => k pos rest gs'
      | None => None
      end
  | Dollar => if at_dollar rest then k pos rest gs else None
  | Caret => if Nat.eqb pos 0 then k pos rest gs else None
  end.

(** A match object: the subject string, the span of the whole match and the
    spans of the groups. *)
Record Match : Type := mkMatch {
  m_string : string;
  m_start : nat;
  m_end : nat;
  m_groups : groups;
}.

(** [m.group(0)] *)
Definition group0 (m : Match) : string :=
  str_slice (m_start m) (m_end m) (m_string m).

(** [m.group(g)], [None] when the group took no part. *)
Definition group (m : Match) (g : nat) : option string :=
  match m_groups m g with
  | Some (a, b) => Some (str_slice a b (m_string m))
  | None => None
  end.

(** [m.start(g) != -1] *)
Definition has_group (m : Match) (g : nat) : bool :=
  match m_groups m g with Some _ => true | None => false end.

(** [m.group(g)] as Python returns it to code that has checked the group. *)
Definition group_str (m : Match) (g : nat) : string :=
  default EmptyString (group m g).

(** [pattern.match(s)]: a match that starts at position 0. *)
Definition match_ (r : regex) (s : string) : option Match :=
  match exec r 0%nat s no_groups accept with
  | Some (e, gs) => Some (mkMatch s 0 e gs)
  | None => None
  end.

(** [pattern.finditer(s)], from position [pos] where [rest] is what is left
    of [s]; [skip] counts the characters of the previous match not yet
    stepped over.  The search tries every position from left to right and
    resumes at the end of a match.  (After an empty match Python resumes at
    the same position and asks for a non-empty match there; the model steps
    to the next character.  No match of [rgx_ini_parser] is empty.) *)
Fixpoint scan (r : regex) (s : string) (pos : nat) (rest : string)
    (skip : nat) : list Match :=
  match rest with
  | String _ rest' =>
      match skip with
      | S skip' => scan r s (S pos) rest' skip'
      | O =>
          match exec r pos rest no_groups accept with
          | Some (e, gs) =>
              mkMatch s pos e gs :: scan r s (S pos) rest' (e - pos - 1)
          | None => scan r s (S pos) rest' 0
          end
      end
  | EmptyString =>
      match skip with
      | S _ => []
      | O =>
          match exec r pos rest no_groups accept with
          | Some (e, gs) => [mkMatch s pos e gs]
          | None => []
          end
      end
  end.

Definition finditer (r : regex) (s : string) : list Match :=
  scan r s 0 s 0.

(** Least number of characters a match of [r] consumes. *)
Fixpoint min_len (r : regex) : nat :=
  match r with
  | Chr _ | Plus _ | PlusLazy _ => 1
  | Star _ | StarLazy _ | Ahead _ | Dollar | Caret => 0
  | Group _ r1 => min_len r1
  | Seq r1 r2 => min_len r1 + min_len r2
  | Alt r1 r2 => Nat.min (min_len r1) (min_len r2)
  end.

Fixpoint groups_of (r : regex) : list nat :=
  match r with
  | Group g r1 => g :: groups_of r1
  | Seq r1 r2 | Alt r1 r2 => groups_of r1 ++ groups_of r2
  | Ahead r1 => groups_of r1
  | _ => []
  end.

End Re.

Declare Scope regex_scope.
Delimit Scope regex_scope with re.
Bind Scope regex_scope with Re.regex.
Infix "+>" := Re.Seq (at level 60, right associativity) : regex_scope.
Infix "</>" := Re.Alt (at level 65, right associativity) : regex_scope.

(** ** Character classes *)

Definition is_char (a : ascii) : ascii → bool := Ascii.eqb a.

(** [\n] *)
Definition nl : ascii → bool := Re.is_nl.
(** [[^\n]], and [.] without DOTALL *)
Definition not_nl (c : ascii) : bool := negb (Re.is_nl c).
(** [[ \t]] *)
Definition blank (c : ascii) : bool :=
  Ascii.eqb c " "%char || Ascii.eqb c "009"%char.
(** [\s] on a [str] pattern: the characters for which [str.isspace] holds;
    below 256 these are 9..13, 28..32, 133 and 160. *)
Definition space (c : ascii) : bool :=
  let n := nat_of_ascii c in
  ((9 <=? n) && (n <=? 13) || (28 <=? n) && (n <=? 32)
   || (n =? 133) || (n =? 160))%nat.
(** [[^\s]] *)
Definition not_space (c : ascii) : bool := negb (space c).
(** [\d]: below 256 the decimal digits are 0..9. *)
Definition digit (c : ascii) : bool :=
  let n := nat_of_ascii c in ((48 <=? n) && (n <=? 57))%nat.

(** ** Fragments and the parser *)

Inductive ConfigKind : Type :=
| Unknown
| NewLine
| Comment
| Section_
| KeyValue.

#[global] Instance ConfigKind_eq_dec : EqDecision ConfigKind.
Proof. solve_decision. Defined.

Definition novalue : string := "".

Record ConfigurationFragment : Type := mkFragment {
  text : string;
  kind : ConfigKind;
  value1 : string;
  value2 : string;
}.

#[global] Instance ConfigurationFragment_eq_dec :
  EqDecision ConfigurationFragment.
Proof. solve_decision. Defined.

(** The constructor with the defaults [value1 = novalue], [value2 = novalue]. *)
Definition Fragment0 (t : string) (k : ConfigKind) : ConfigurationFragment :=
  mkFragment t k novalue novalue.
Definition Fragment1 (t : string) (k : ConfigKind) (v1 : string)
    : ConfigurationFragment :=
  mkFragment t k v1 novalue.

Definition newline_char : ascii := "010"%char.
Definition newline_str : string := String newline_char EmptyString.

Definition newline_fragment : ConfigurationFragment :=
  Fragment0 newline_str NewLine.

(** [(\n)|[ \t]*(#)[^\n]*|[ \t]*\[[ \t]*(.+?)[ \t]*\][ \t]*|
     [ \t]*([^\s]+)[ \t]*=[ \t]*(.*?)[ \t]*(?=\n|$)|[^\n]+] *)
Definition rgx_ini_parser : Re.regex :=
  (Re.Group 1 (Re.Chr nl)
   </> Re.Star blank +> Re.Group 2 (Re.Chr (is_char "#")) +> Re.Star not_nl
   </> Re.Star blank +> Re.Chr (is_char "[") +> Re.Star blank
       +> Re.Group 3 (Re.PlusLazy not_nl) +> Re.Star blank
       +> Re.Chr (is_char "]") +> Re.Star blank
   </> Re.Star blank +> Re.Group 4 (Re.Plus not_space) +> Re.Star blank
       +> Re.Chr (is_char "=") +> Re.Star blank
       +> Re.Group 5 (Re.StarLazy not_nl) +> Re.Star blank
       +> Re.Ahead (Re.Chr nl </> Re.Dollar)
   </> Re.Plus not_nl)%re.

Definition _to_fragment (m : Re.Match) : ConfigurationFragment :=
  if Re.has_group m 1 then newline_fragment
  else if Re.has_group m 2 then Fragment0 (Re.group0 m) Comment
  else if Re.has_group m 3 then
    Fragment1 (Re.group0 m) Section_ (Re.group_str m 3)
  else if Re.has_group m 4 then
    mkFragment (Re.group0 m) KeyValue (Re.group_str m 4) (Re.group_str m 5)
  else Fragment0 (Re.group0 m) Unknown.

Definition parse_configuration (content : string)
    : list ConfigurationFragment :=
  map _to_fragment (Re.finditer rgx_ini_parser content).

(** ** Versions *)

(** [^(\d+)\.(\d+)\.(\d+)] followed by group 4, which is [.*] *)
Definition rgx_version : Re.regex :=
  (Re.Caret +> Re.Group 1 (Re.Plus digit) +> Re.Chr (is_char ".")
   +> Re.Group 2 (Re.Plus digit) +> Re.Chr (is_char ".")
   +> Re.Group 3 (Re.Plus digit) +> Re.Group 4 (Re.Star not_nl))%re.

(** [int(s)] for a string of decimal digits. *)
Fixpoint int_from (acc : N) (s : string) : N :=
  match s with
  | EmptyString => acc
  | String c s' => int_from (acc * 10 + (N_of_ascii c - 48))%N s'
  end.
Definition int (s : string) : N := int_from 0%N s.

Inductive RedemptionVersionError : Type :=
| InvalidVersionString (message : string).

(** The four private attributes of an instance. *)
Record RedemptionVersion : Type := mkVersion {
  major : N;
  minor : N;
  build : N;
  revision : string;
}.

(** [RedemptionVersion.__init__]; [inl] is the raised error. *)
Definition RedemptionVersion_init (version : string)
    : RedemptionVersionError + RedemptionVersion :=
  match Re.match_ rgx_version version with
  | None => inl (InvalidVersionString
                   ("Invalid version string format: " +:+ version))
  | Some m =>
      inr {| major := int (Re.group_str m 1);
             minor := int (Re.group_str m 2);
             build := int (Re.group_str m 3);
             revision := Re.group_str m 4 |}
  end.

Definition __part (self : RedemptionVersion) : N * N * N * string :=
  (major self, minor self, build self, revision self).

(** Comparison of two 4-tuples as Python orders tuples: by the first
    position where they differ; strings by code points. *)
Definition then_compare (c d : comparison) : comparison :=
  match c with Eq => d | _ => c end.

Definition tuple_compare (a b : N * N * N * string) : comparison :=
  let '(a1, a2, a3, a4) := a in
  let '(b1, b2, b3, b4) := b in
  then_compare (N.compare a1 b1)
    (then_compare (N.compare a2 b2)
       (then_compare (N.compare a3 b3) (String.compare a4 b4))).

Definition tuple_lt (a b : N * N * N * string) : bool :=
  match tuple_compare a b with Lt => true | _ => false end.
Definition tuple_le (a b : N * N * N * string) : bool :=
  match tuple_compare a b with Gt => false | _ => true end.

Definition __lt__ (self other : RedemptionVersion) : bool :=
  tuple_lt (__part self) (__part other).
Definition __le__ (self other : RedemptionVersion) : bool :=
  tuple_le (__part self) (__part other).

(** [a >= b]: the class has no [__ge__], so Python evaluates the reflected
    [b.__le__(a)]. *)
Definition version_ge (a b : RedemptionVersion) : bool := __le__ b a.

(** The class defines neither [__eq__] nor [__hash__]: [a == b] on two
    instances is [object.__eq__], which compares the identities of the two
    objects.  An instance is therefore modelled with the identity the
    interpreter gave it when it was created; [heap] is the number of objects
    created so far. *)
Record Instance : Type := mkInstance {
  id_ : nat;
  self_ : RedemptionVersion;
}.

Definition heap : Type := nat.

(** [RedemptionVersion(version)] *)
Definition new_RedemptionVersion (version : string) (h : heap)
    : (RedemptionVersionError + Instance) * heap :=
  match RedemptionVersion_init version with
  | inl e => (inl e, h)
  | inr v => (inr (mkInstance h v), S h)
  end.

(** [a == b] *)
Definition object_eq (a b : Instance) : bool := Nat.eqb (id_ a) (id_ b).
(** [a < b], [a <= b] *)
Definition instance_lt (a b : Instance) : bool := __lt__ (self_ a) (self_ b).
Definition instance_le (a b : Instance) : bool := __le__ (self_ a) (self_ b).

(** ** Migration descriptions *)

Module UpdateItem.
Record t : Type := mk {
  section : option string;
  key : option string;
  values : option (gmap string string);
}.

(** [UpdateItem.__call__] *)
Definition call (self : t) (section_ key_ value : string)
    : string * string * string :=
  let section_ :=
    match section self with Some s => s | None => section_ end in
  let key_ := match key self with Some k => k | None => key_ end in
  let value :=
    match values self with
    | Some d => match d !! value with Some v => v | None => value end
    | None => value
    end in
  (section_, key_, value).
End UpdateItem.

(** [Union[RemoveItem, UpdateItem]] *)
Inductive MigrationKeyOrderType : Type :=
| RemoveKey
| Update (order : UpdateItem.t).

(** An element of a list order: [MoveSection] or a dictionary of key rules. *)
Inductive MigrationStep : Type :=
| StepMove (name : string)
| StepKeys (desc : gmap string MigrationKeyOrderType).

(** [MigrationSectionOrderType] *)
Inductive MigrationSectionOrderType : Type :=
| RemoveItem
| MoveSection (name : string)
| KeyRules (desc : gmap string MigrationKeyOrderType)
| Steps (orders : list MigrationStep).

Abbreviation MigrationDescType := (gmap string MigrationSectionOrderType).
Abbreviation MigrationType := (RedemptionVersion * MigrationDescType)%type.

(** ** The version gate *)

(** [sorted(l, key=lambda t: t[0])]: stable, and compares keys with [<]
    only.  The stable sorted arrangement of a list is unique, so an insertion
    sort that walks over the smaller keys gives the list Python gives. *)
Fixpoint insert_by_version (x : MigrationType) (l : list MigrationType)
    : list MigrationType :=
  match l with
  | [] => [x]
  | y :: l' =>
      if __lt__ (fst y) (fst x) then y :: insert_by_version x l'
      else x :: y :: l'
  end.

Definition sorted_by_version (l : list MigrationType) : list MigrationType :=
  foldr insert_by_version [] l.

Fixpoint migration_filter_loop (l : list MigrationType)
    (previous_version : RedemptionVersion) : list MigrationType :=
  match l with
  | [] => []
  | t :: l' =>
      if version_ge previous_version (fst t)
      then migration_filter_loop l' previous_version
      else t :: l'
  end.

Definition migration_filter (migration_defs : list MigrationType)
    (previous_version : RedemptionVersion) : list MigrationType :=
  migration_filter_loop (sorted_by_version migration_defs) previous_version.

(** ** The rule engine *)

(** The local variables of [migration_def_to_actions]. *)
Record Actions : Type := mkActions {
  section : string;
  original_section : string;
  migration_key_desc : option (gmap string MigrationKeyOrderType);
  renamed_sections : list (string * string);
  renamed_keys : list (string * string * string * string);
  moved_keys : list (string * string * string * string * string);
  removed_sections : list string;
  removed_keys : list (string * string);
}.

Definition actions_init : Actions :=
  mkActions "" "" None [] [] [] [] [].

(** Truth value of an optional dictionary: neither [None] nor empty. *)
Definition truthy_desc (d : option (gmap string MigrationKeyOrderType))
    : option (gmap string MigrationKeyOrderType) :=
  match d with
  | Some m => if decide (m = ∅) then None else Some m
  | None => None
  end.

(** The body of the loop for a KeyValue fragment. *)
Definition on_key_value (st : Actions) (fragment : ConfigurationFragment)
    : Actions :=
  match truthy_desc (migration_key_desc st) with
  | None => st
  | Some desc =>
      match desc !! value1 fragment with
      | None => st
      | Some RemoveKey =>
          mkActions (section st) (original_section st) (migration_key_desc st)
            (renamed_sections st) (renamed_keys st) (moved_keys st)
            (removed_sections st)
            (removed_keys st ++ [(section st, value1 fragment)])
      | Some (Update order) =>
          let t := UpdateItem.call order (section st) (value1 fragment)
                     (value2 fragment) in
          let '(t0, t1, t2) := t in
          if String.eqb t0 (section st) then
            mkActions (section st) (original_section st)
              (migration_key_desc st) (renamed_sections st)
              (renamed_keys st
                 ++ [(original_section st, value1 fragment, t1, t2)])
              (moved_keys st) (removed_sections st) (removed_keys st)
          else
            mkActions (section st) (original_section st)
              (migration_key_desc st) (renamed_sections st) (renamed_keys st)
              (moved_keys st
                 ++ [(original_section st, value1 fragment, t0, t1, t2)])
              (removed_sections st) (removed_keys st)
      end
  end.

(** One turn of [for order in order] over a list order. *)
Definition on_step (st : Actions) (order : MigrationStep) : Actions :=
  match order with
  | StepMove name =>
      mkActions name (original_section st) (migration_key_desc st)
        (renamed_sections st ++ [(section st, name)]) (renamed_keys st)
        (moved_keys st) (removed_sections st) (removed_keys st)
  | StepKeys desc =>
      mkActions (section st) (original_section st) (Some desc)
        (renamed_sections st) (renamed_keys st) (moved_keys st)
        (removed_sections st) (removed_keys st)
  end.

(** The body of the loop for a Section fragment. *)
Definition on_section (migration_def : MigrationDescType) (st : Actions)
    (fragment : ConfigurationFragment) : Actions :=
  let name := value1 fragment in
  let st0 :=
    mkActions name name None (renamed_sections st) (renamed_keys st)
      (moved_keys st) (removed_sections st) (removed_keys st) in
  match migration_def !! name with
  | None => st0
  | Some RemoveItem =>
      mkActions name name None (renamed_sections st) (renamed_keys st)
        (moved_keys st) (removed_sections st ++ [name]) (removed_keys st)
  | Some (MoveSection new_name) =>
      mkActions name name None (renamed_sections st ++ [(name, new_name)])
        (renamed_keys st) (moved_keys st) (removed_sections st)
        (removed_keys st)
  | Some (KeyRules desc) =>
      mkActions name name (Some desc) (renamed_sections st) (renamed_keys st)
        (moved_keys st) (removed_sections st) (removed_keys st)
  | Some (Steps orders) => foldl on_step st0 orders
  end.

Definition actions_step (migration_def : MigrationDescType) (st : Actions)
    (fragment : ConfigurationFragment) : Actions :=
  match kind fragment with
  | KeyValue => on_key_value st fragment
  | Section_ => on_section migration_def st fragment
  | _ => st
  end.

(** The state of [migration_def_to_actions] when its loop ends; the function
    returns the five lists of it. *)
Definition migration_def_to_actions (fragments : list ConfigurationFragment)
    (migration_def : MigrationDescType) : Actions :=
  foldl (actions_step migration_def) actions_init fragments.

(** ** Spans of sections *)

Abbreviation Span := (Z * Z)%type.

(** [d.setdefault(name, []).append(span)] *)
Definition setdefault_append (name : string) (span : Span)
    (d : gmap string (list Span)) : gmap string (list Span) :=
  <[name := default [] (d !! name) ++ [span]]> d.

Record SpanState : Type := mkSpanState {
  start : Z;
  span_section : string;
  section_spans : gmap string (list Span);
}.

Definition close_span (i : Z) (st : SpanState) : gmap string (list Span) :=
  if start st <? i - 1
  then setdefault_append (span_section st) (start st, i - 1) (section_spans st)
  else section_spans st.

Fixpoint spans_loop (i : Z) (fragments : list ConfigurationFragment)
    (st : SpanState) : SpanState :=
  match fragments with
  | [] => st
  | fragment :: rest =>
      spans_loop (i + 1) rest
        (match kind fragment with
         | Section_ => mkSpanState i (value1 fragment) (close_span i st)
         | _ => st
         end)
  end.

(** The value of [i] when the loop has ended: the last index, or the initial
    0 when there was no fragment. *)
Definition last_index (fragments : list ConfigurationFragment) : Z :=
  match fragments with
  | [] => 0
  | _ => Z.of_nat (length fragments) - 1
  end.

Definition fragments_to_spans_of_sections
    (fragments : list ConfigurationFragment) : gmap string (list Span) :=
  close_span (last_index fragments)
    (spans_loop 0 fragments (mkSpanState 0 "" ∅)).

(** ** The rewriter *)

(** [range(span[0], span[1])] for every span. *)
Definition iter_from_spans (spans : list Span) : list Z :=
  flat_map (λ span, seqZ (fst span) (snd span - fst span)) spans.

(** [section_spans.get(name, ())] *)
Definition spans_of (section_spans : gmap string (list Span))
    (name : string) : list Span :=
  default [] (section_spans !! name).

(** [fragments[i]] for [0 <= i]; [None] stands for IndexError. *)
Definition getitem (fragments : list ConfigurationFragment) (i : Z)
    : option ConfigurationFragment :=
  fragments !! Z.to_nat i.

Definition iter_key_fragment (fragments : list ConfigurationFragment)
    (section_spans : gmap string (list Span))
    (section_name : string) (kind_ : ConfigKind) (key_name : string)
    : list (Z * ConfigurationFragment) :=
  omap (λ i,
      match getitem fragments i with
      | Some fragment =>
          if negb (bool_decide (kind fragment = KeyValue))
             || negb (String.eqb key_name (value1 fragment))
          then None else Some (i, fragment)
      | None => None
      end)
    (iter_from_spans (spans_of section_spans section_name)).

(** The fragment [text], commented out. *)
Definition commented (fragment : ConfigurationFragment)
    : ConfigurationFragment :=
  Fragment0 ("#" +:+ text fragment) Comment.

Definition key_value_fragment (key_ value : string) : ConfigurationFragment :=
  mkFragment (key_ +:+ "=" +:+ value) KeyValue key_ value.

Definition section_fragment (name : string) : ConfigurationFragment :=
  Fragment1 ("[" +:+ name +:+ "]") Section_ name.

(** An assignment [reinject_fragments[i] = replacement]. *)
Abbreviation Registration := (Z * list ConfigurationFragment)%type.

Section Rewriter.
Variable fragments : list ConfigurationFragment.
Variable spans : gmap string (list Span).

(** The assignments of the loop over [renamed_keys], in order. *)
Definition register_renamed_keys
    (l : list (string * string * string * string)) : list Registration :=
  flat_map (λ '(section_, old_key, new_key, new_value),
      map (λ '(i, fragment),
          (i, [commented fragment; newline_fragment;
               key_value_fragment new_key new_value]))
        (iter_key_fragment fragments spans section_ KeyValue old_key))
    l.

(** The assignments of the loop over [removed_sections]. *)
Definition register_removed_sections (l : list string) : list Registration :=
  flat_map (λ section_,
      omap (λ i,
          match getitem fragments i with
          | Some fragment =>
              match kind fragment with
              | KeyValue | Section_ => Some (i, [commented fragment])
              | _ => None
              end
          | None => None
          end)
        (iter_from_spans (spans_of spans section_)))
    l.

(** The assignments of the loop over [chain(removed_keys, moved_keys)]; of
    either tuple the loop reads the first two components. *)
Definition register_removed_keys (l : list (string * string))
    : list Registration :=
  flat_map (λ t,
      map (λ '(i, fragment), (i, [commented fragment]))
        (iter_key_fragment fragments spans (fst t) KeyValue (snd t)))
    l.

(** The assignments of the loop over [renamed_sections]. *)
Definition register_renamed_sections (l : list (string * string))
    : list Registration :=
  flat_map (λ '(old_section, new_section),
      omap (λ span,
          match getitem fragments (fst span) with
          | Some fragment =>
              Some (fst span, [commented fragment; newline_fragment;
                               section_fragment new_section])
          | None => None
          end)
        (spans_of spans old_section))
    l.

Definition moved_source (t : string * string * string * string * string)
    : string * string :=
  let '(old_section, old_key, _, _, _) := t in (old_section, old_key).

(** Every assignment to [reinject_fragments], in the order the four loops
    make them. *)
Definition registrations (a : Actions) : list Registration :=
  register_renamed_keys (renamed_keys a)
  ++ register_removed_sections (removed_sections a)
  ++ register_removed_keys (removed_keys a ++ map moved_source (moved_keys a))
  ++ register_renamed_sections (renamed_sections a).

End Rewriter.

Definition register (d : gmap Z (list ConfigurationFragment))
    (r : Registration) : gmap Z (list ConfigurationFragment) :=
  <[fst r := snd r]> d.

(** [reinject_fragments] when the four loops have ended. *)
Definition reinject_fragments (fragments : list ConfigurationFragment)
    (spans : gmap string (list Span)) (a : Actions)
    : gmap Z (list ConfigurationFragment) :=
  foldl register ∅ (registrations fragments spans a).

(** An insertion-ordered dictionary, as [added_keys] is. *)
Definition odict (V : Type) : Type := list (string * V).

Fixpoint od_get {V} (k : string) (d : odict V) : option V :=
  match d with
  | [] => None
  | (k', v) :: d' => if String.eqb k k' then Some v else od_get k d'
  end.

(** [d[k] = v]: a key that is present keeps its place. *)
Fixpoint od_set {V} (k : string) (v : V) (d : odict V) : odict V :=
  match d with
  | [] => [(k, v)]
  | (k', v') :: d' =>
      if String.eqb k k' then (k', v) :: d' else (k', v') :: od_set k v d'
  end.

(** [d.setdefault(k, []).extend(vs)] *)
Definition od_extend {V} (k : string) (vs : list V) (d : odict (list V))
    : odict (list V) :=
  od_set k (default [] (od_get k d) ++ vs) d.

Definition key_trio (new_key new_value : string)
    : list ConfigurationFragment :=
  [newline_fragment; key_value_fragment new_key new_value; newline_fragment].

(** [added_keys] after the loop over [moved_keys]. *)
Definition collect_added_keys (fragments : list ConfigurationFragment)
    (spans : gmap string (list Span))
    (l : list (string * string * string * string * string))
    : odict (list ConfigurationFragment) :=
  foldl (λ added '(old_section, old_key, new_section, new_key, new_value),
      foldl (λ added _, od_extend new_section (key_trio new_key new_value) added)
        added
        (iter_key_fragment fragments spans old_section KeyValue old_key))
    [] l.

(** [value1] of the first Section fragment of [l], if there is one. *)
Fixpoint first_section (l : list ConfigurationFragment) : option string :=
  match l with
  | [] => None
  | x :: l' =>
      match kind x with
      | Section_ => Some (value1 x)
      | _ => first_section l'
      end
  end.

Definition nonempty_str (s : string) : bool :=
  match s with EmptyString => false | _ => true end.

Definition nonempty {A} (l : list A) : bool :=
  match l with [] => false | _ => true end.

(** What one turn of the rebuilding loop appends, and [added_keys] after it. *)
Definition rebuild_step (reinject : gmap Z (list ConfigurationFragment))
    (i : Z) (fragment : ConfigurationFragment)
    (added : odict (list ConfigurationFragment))
    : list ConfigurationFragment * odict (list ConfigurationFragment) :=
  let added_fragments := default [fragment] (reinject !! i) in
  match first_section added_fragments with
  | Some section_ =>
      if nonempty_str section_ then
        match od_get section_ added with
        | Some key_ =>
            if nonempty key_
            then (added_fragments ++ key_, od_set section_ [] added)
            else (added_fragments, added)
        | None => (added_fragments, added)
        end
      else (added_fragments, added)
  | None => (added_fragments, added)
  end.

(** The loop [for i, fragment in enumerate(fragments)] from index [i] on. *)
Fixpoint rebuild (reinject : gmap Z (list ConfigurationFragment))
    (i : Z) (fragments : list ConfigurationFragment)
    (result : list ConfigurationFragment)
    (added : odict (list ConfigurationFragment))
    : list ConfigurationFragment * odict (list ConfigurationFragment) :=
  match fragments with
  | [] => (result, added)
  | fragment :: rest =>
      let '(out, added') := rebuild_step reinject i fragment added in
      rebuild reinject (i + 1) rest (result ++ out) added'
  end.

(** The loop [for section, keys in added_keys.items()]. *)
Definition add_new_sections (result : list ConfigurationFragment)
    (added : odict (list ConfigurationFragment))
    : list ConfigurationFragment :=
  foldl (λ result '(section_, keys),
      if nonempty keys
      then (result ++ [newline_fragment; section_fragment section_]) ++ keys
      else result)
    result added.

Definition no_actions (a : Actions) : bool :=
  negb (nonempty (renamed_sections a) || nonempty (renamed_keys a)
        || nonempty (moved_keys a) || nonempty (removed_sections a)
        || nonempty (removed_keys a)).

Definition migrate (fragments : list ConfigurationFragment)
    (migration_def : MigrationDescType)
    : bool * list ConfigurationFragment :=
  let a := migration_def_to_actions fragments migration_def in
  if no_actions a then (false, fragments)
  else
    let section_spans := fragments_to_spans_of_sections fragments in
    let reinject := reinject_fragments fragments section_spans a in
    let added_keys :=
      collect_added_keys fragments section_spans (moved_keys a) in
    let '(result_fragments, added_keys) :=
      rebuild reinject 0 fragments [] added_keys in
    (true, add_new_sections result_fragments added_keys).

(** ** The catalog *)

Definition version_of (s : string) : RedemptionVersion :=
  match RedemptionVersion_init s with
  | inr v => v
  | inl _ => mkVersion 0 0 0 ""
  end.

Definition session_probe_keys : list string :=
  ["session_probe_exe_or_file"; "session_probe_arguments";
   "session_probe_customize_executable_name";
   "session_probe_allow_multiple_handshake";
   "session_probe_at_end_of_session_freeze_connection_and_wait";
   "session_probe_enable_cleaner";
   "session_probe_clipboard_based_launcher_reset_keyboard_status"].

(** [dict(pairs)]: a later pair replaces an earlier one with the same key. *)
Definition dict_of {V} (pairs : list (string * V)) : gmap string V :=
  foldl (λ d kv, <[fst kv := snd kv]> d) ∅ pairs.

Definition migration_defs : list MigrationType :=
  [ (version_of "9.1.39",
     dict_of [("globals", KeyRules (dict_of
       [("session_timeout",
         Update (UpdateItem.mk None (Some "base_inactivity_timeout") None))]))]);
    (version_of "9.1.71",
     dict_of
       [("rdp", KeyRules (dict_of
          (map (λ key_, (key_, Update (UpdateItem.mk (Some "session_probe")
                                         (Some (str_drop 14 key_)) None)))
             session_probe_keys
           ++ [("session_probe_bestsafe_integration",
                Update (UpdateItem.mk (Some "session_probe")
                          (Some "enable_bestsafe_interaction") None))])));
        ("video", KeyRules (dict_of
          [("replay_path",
            Update (UpdateItem.mk (Some "mod_replay") None None))]))]);
    (version_of "9.1.76",
     dict_of [("all_target_mod", KeyRules (dict_of
       [("connection_retry_count", RemoveKey)]))]) ].

(** ** The driver *)

(** The loop of [migrate_file] over the selected migrations, on the
    fragments read from the file; the file itself is written only when the
    flag is true. *)
Definition migrate_fragments (catalog : list MigrationType)
    (version : RedemptionVersion) (fragments : list ConfigurationFragment)
    : bool * list ConfigurationFragment :=
  foldl (λ '(is_changed, fragments) '(_, desc),
      let '(is_updated, fragments) := migrate fragments desc in
      (is_changed || is_updated, fragments))
    (false, fragments) (migration_filter catalog version).

(** ** Notions used to state the properties *)

(** A comparison function that decides a total order. *)
Record Lawful {A : Type} (cmp : A → A → comparison) : Prop := mkLawful {
  law_eq : ∀ a b, cmp a b = Eq → a = b;
  law_refl : ∀ a, cmp a a = Eq;
  law_anti : ∀ a b, cmp a b = CompOpp (cmp b a);
  law_trans : ∀ a b c, cmp a b = Lt → cmp b c = Lt → cmp a c = Lt;
}.

(** Two comparisons, one after the other, on a pair. *)
Definition lex {A B : Type} (ca : A → A → comparison)
    (cb : B → B → comparison) (p q : A * B) : comparison :=
  then_compare (ca (fst p) (fst q)) (cb (snd p) (snd q)).

Definition nest (a : N * N * N * string) : N * (N * (N * string)) :=
  let '(a1, a2, a3, a4) := a in (a1, (a2, (a3, a4))).

(** Entries in ascending order of version. *)
Definition ascending (x y : MigrationType) : Prop :=
  __le__ (fst x) (fst y) = true.

(** An entry introduced after [previous_version]. *)
Definition newer (previous_version : RedemptionVersion) (t : MigrationType)
    : Prop :=
  __lt__ previous_version (fst t) = true.

#[global] Instance newer_dec previous_version t :
  Decision (newer previous_version t).
Proof. unfold newer. apply _. Defined.

(** The name of the last Section fragment of [l], if [l] has one: the
    section as the file writes it. *)
Definition last_section (l : list ConfigurationFragment) : option string :=
  foldl (λ acc fragment,
      match kind fragment with
      | Section_ => Some (value1 fragment)
      | _ => acc
      end)
    None l.

(** The name a section has once the rename steps of its list order are
    applied. *)
Definition step_name (name : string) (order : MigrationStep) : string :=
  match order with
  | StepMove new_name => new_name
  | StepKeys _ => name
  end.

Definition renamed (migration_def : MigrationDescType) (name : string)
    : string :=
  match migration_def !! name with
  | Some (Steps orders) => foldl step_name name orders
  | _ => name
  end.

(** ** Sample inputs *)

Definition lines (l : list string) : string :=
  str_join (map (λ s, s +:+ newline_str) l).

(** The rule of the catalog that moves [session_probe_exe_or_file] out of
    [rdp], alone. *)
Definition move_exe_order : UpdateItem.t :=
  UpdateItem.mk (Some "session_probe") (Some "exe_or_file") None.

Definition move_exe_rules : gmap string MigrationKeyOrderType :=
  dict_of [("session_probe_exe_or_file", Update move_exe_order)].

Definition move_exe_def : MigrationDescType :=
  dict_of [("rdp", KeyRules move_exe_rules)].

Definition rdp_header : list ConfigurationFragment :=
  [Fragment1 "[rdp]" Section_ "rdp"; newline_fragment].

Definition exe_line : ConfigurationFragment :=
  key_value_fragment "session_probe_exe_or_file" "foo.exe".

(** The file of two lines, [[rdp]] and the key. *)
Definition rdp_file : list ConfigurationFragment :=
  rdp_header ++ [exe_line; newline_fragment].

(** The same file with an empty line at its end. *)
Definition rdp_file_blank : list ConfigurationFragment :=
  rdp_file ++ [newline_fragment].

(** ** Spans and registrations *)

(** What holds of every span that [fragments_to_spans_of_sections] records:
    it is not empty, its end is an index of the sequence other than the last,
    and past its first index up to its end there is no Section fragment. *)
Definition span_ok (fragments : list ConfigurationFragment) (sp : Span)
    : Prop :=
  0 ≤ fst sp < snd sp ∧ snd sp + 1 < Z.of_nat (length fragments) ∧
  ∀ j f, fst sp < j ≤ snd sp → getitem fragments j = Some f →
         kind f ≠ Section_.

(** The index [i] is one that [iter_from_spans] yields for [sp]. *)
Definition in_span (i : Z) (sp : Span) : Prop := fst sp ≤ i < snd sp.

(** Some span of the index holds [i]. *)
Definition covered (spans : gmap string (list Span)) (i : Z) : Prop :=
  ∃ name l sp, spans !! name = Some l ∧ sp ∈ l ∧ in_span i sp.

(** The state of the loop of [fragments_to_spans_of_sections] after [n]
    fragments. *)
Definition span_inv (fragments : list ConfigurationFragment) (n : nat)
    (st : SpanState) : Prop :=
  0 ≤ start st ≤ Z.max 0 (Z.of_nat n - 1) ∧
  (∀ j f, start st < j < Z.of_nat n → getitem fragments j = Some f →
          kind f ≠ Section_) ∧
  (∀ name l, section_spans st !! name = Some l →
             Forall (span_ok fragments) l).

(** The replacement that stands at [i] when all registrations are made:
    the one registered last for [i]. *)
Definition last_registration (i : Z) (regs : list Registration)
    : option (list ConfigurationFragment) :=
  snd <$> last (filter (λ r, fst r = i) regs).

(** What [migrate] has written when it has dealt with the first [n]
    fragments. *)
Definition migrate_upto (fragments : list ConfigurationFragment)
    (migration_def : MigrationDescType) (n : nat)
    : list ConfigurationFragment :=
  let a := migration_def_to_actions fragments migration_def in
  if no_actions a then take n fragments
  else
    let section_spans := fragments_to_spans_of_sections fragments in
    fst (rebuild (reinject_fragments fragments section_spans a) 0
           (take n fragments) []
           (collect_added_keys fragments section_spans (moved_keys a))).

(** Section [a] with the key [k] on two lines, and a rule that renames [k]
    to [k2]. *)
Definition dup_file : list ConfigurationFragment :=
  [Fragment1 "[a]" Section_ "a"; newline_fragment;
   key_value_fragment "k" "1"; newline_fragment;
   key_value_fragment "k" "2"; newline_fragment; newline_fragment].

Definition rename_k_def : MigrationDescType :=
  dict_of [("a", KeyRules (dict_of
    [("k", Update (UpdateItem.mk None (Some "k2") None))]))].

(** ** Removal of a section *)



(** The kinds that the loop over [removed_sections] comments out. *)
Definition removable (f : ConfigurationFragment) : bool :=
  match kind f with
  | KeyValue | Section_ => true
  | _ => false
  end.

(** The migration whose one rule removes the section [name]. *)
Definition remove_def (name : string) : MigrationDescType :=
  dict_of [(name, RemoveItem)].

(** [g i x] for every [x] of [l], where [i] counts from [start]. *)
Fixpoint mapi_from {A B} (g : Z → A → B) (i : Z) (l : list A) : list B :=
  match l with
  | [] => []
  | x :: l' => g i x :: mapi_from g (i + 1) l'
  end.

(** A key line before any header, and two sections of which the first is
    empty. *)
Definition headless_file : list ConfigurationFragment :=
  [key_value_fragment "k" "v"; newline_fragment; newline_fragment;
   newline_fragment].

Definition two_headers_file : list ConfigurationFragment :=
  [Fragment1 "[a]" Section_ "a"; Fragment1 "[b]" Section_ "b";
   newline_fragment; key_value_fragment "k" "v"; newline_fragment;
   newline_fragment].

(** Section [a] with one key and an empty line, then section [b]. *)
Definition two_sections_file : list ConfigurationFragment :=
  [Fragment1 "[a]" Section_ "a"; newline_fragment;
   key_value_fragment "k" "v"; newline_fragment; newline_fragment;
   Fragment1 "[b]" Section_ "b"; newline_fragment;
   key_value_fragment "x" "1"; newline_fragment].

(** ** Further notions *)

(** No Section fragment of the sequence has a rule that acts on it: none at
    all, or a mapping of key rules none of which names a key of the
    sequence. *)
Definition no_target (migration_def : MigrationDescType)
    (fragments : list ConfigurationFragment) : Prop :=
  ∀ f, f ∈ fragments → kind f = Section_ →
    migration_def !! value1 f = None ∨
    ∃ desc, migration_def !! value1 f = Some (KeyRules desc) ∧
            ∀ g, g ∈ fragments → kind g = KeyValue → desc !! value1 g = None.

(** A fragment as it stands in the output: itself, or commented out. *)
Definition survives (f g : ConfigurationFragment) : Prop :=
  g = f ∨ g = commented f.

(** Another section of two keys, with no rule for it in the sample
    descriptions. *)
Definition other_file : list ConfigurationFragment :=
  [Fragment1 "[video]" Section_ "video"; newline_fragment;
   key_value_fragment "hash_path" "/tmp"; newline_fragment;
   newline_fragment].

(** The index [a] is where the section [name] starts: at a Section fragment
    of that name, or at 0 for the section without a header, which the empty
    string names. *)
Definition span_start (fragments : list ConfigurationFragment)
    (name : string) (a : Z) : Prop :=
  (∃ f, getitem fragments a = Some f ∧ kind f = Section_ ∧ value1 f = name) ∨
  (a = 0 ∧ name = "" ∧
   ∀ f, getitem fragments 0 = Some f → kind f ≠ Section_).

(** The span [sp] is recorded for [name]. *)
Definition recorded (spans : gmap string (list Span)) (name : string)
    (sp : Span) : Prop :=
  sp ∈ spans_of spans name.

(** No index lies in two recorded spans. *)
Definition one_span_each (spans : gmap string (list Span)) : Prop :=
  ∀ i name1 sp1 name2 sp2,
    recorded spans name1 sp1 → recorded spans name2 sp2 →
    in_span i sp1 → in_span i sp2 → name1 = name2 ∧ sp1 = sp2.

(** The state of the loop of [fragments_to_spans_of_sections] after [n]
    fragments, as to the names and the places of the spans. *)
Definition span_names_inv (fragments : list ConfigurationFragment) (n : nat)
    (st : SpanState) : Prop :=
  0 ≤ start st ≤ Z.of_nat n ∧
  ((∃ f, getitem fragments (start st) = Some f ∧ kind f = Section_ ∧
         value1 f = span_section st) ∨
   (start st = 0 ∧ span_section st = "" ∧
    ∀ j f, 0 ≤ j < Z.of_nat n → getitem fragments j = Some f →
           kind f ≠ Section_)) ∧
  (∀ name sp, recorded (section_spans st) name sp →
     span_start fragments name (fst sp) ∧ fst sp < snd sp ∧
     snd sp < start st) ∧
  one_span_each (section_spans st).

(** The fragment that stands for [f] in the output: [f] commented out when a
    replacement is registered at its index, [f] itself otherwise. *)
Definition kept (reinject : gmap Z (list ConfigurationFragment)) (i : Z)
    (f : ConfigurationFragment) : ConfigurationFragment :=
  match reinject !! i with
  | Some _ => commented f
  | None => f
  end.

(** The fragment [x] waits in [added_keys] for the section [k]. *)
Definition queued (k : string) (x : ConfigurationFragment)
    (added : odict (list ConfigurationFragment)) : Prop :=
  ∃ l, (k, l) ∈ added ∧ x ∈ l.


(** The mapping of key rules that the rule of a section puts in force. *)
Definition step_desc (desc : option (gmap string MigrationKeyOrderType))
    (order : MigrationStep) : option (gmap string MigrationKeyOrderType) :=
  match order with
  | StepMove _ => desc
  | StepKeys d => Some d
  end.

Definition declared_rules (migration_def : MigrationDescType)
    (name : string) : option (gmap string MigrationKeyOrderType) :=
  match migration_def !! name with
  | Some (KeyRules d) => Some d
  | Some (Steps orders) => foldl step_desc None orders
  | _ => None
  end.

(** The sequence has a fragment of kind [k] whose [value1] is [s]. *)
Definition has_fragment (l : list ConfigurationFragment) (k : ConfigKind)
    (s : string) : Prop :=
  ∃ x, x ∈ l ∧ kind x = k ∧ value1 x = s.

(** Every action of [a] names something that the fragments [l] have. *)
Definition sound_actions (migration_def : MigrationDescType)
    (l : list ConfigurationFragment) (a : Actions) : Prop :=
  (∀ n, n ∈ removed_sections a →
        has_fragment l Section_ n ∧ migration_def !! n = Some RemoveItem) ∧
  (∀ s k nk nv, (s, k, nk, nv) ∈ renamed_keys a →
        has_fragment l Section_ s ∧ has_fragment l KeyValue k) ∧
  (∀ s k ns nk nv, (s, k, ns, nk, nv) ∈ moved_keys a →
        has_fragment l Section_ s ∧ has_fragment l KeyValue k) ∧
  (∀ s k, (s, k) ∈ removed_keys a → has_fragment l KeyValue k).

(** ** Further notions for the parser *)

(** Every character of [s] is in the class [q]. *)
Fixpoint str_forall (q : ascii → bool) (s : string) : bool :=
  match s with
  | EmptyString => true
  | String c s' => q c && str_forall q s'
  end.

(** Every character that a match of [r] consumes is in the class [q]. *)
Fixpoint consumes (q : ascii → bool) (r : Re.regex) : Prop :=
  match r with
  | Re.Chr p | Re.Star p | Re.Plus p | Re.StarLazy p | Re.PlusLazy p =>
      ∀ c, p c = true → q c = true
  | Re.Group _ r1 => consumes q r1
  | Re.Seq r1 r2 | Re.Alt r1 r2 => consumes q r1 ∧ consumes q r2
  | Re.Ahead _ | Re.Dollar | Re.Caret => True
  end.

(** The alternatives of [rgx_ini_parser] after the first. *)
Definition rgx_comment : Re.regex :=
  (Re.Star blank +> Re.Group 2 (Re.Chr (is_char "#")) +> Re.Star not_nl)%re.

Definition rgx_section : Re.regex :=
  (Re.Star blank +> Re.Chr (is_char "[") +> Re.Star blank
   +> Re.Group 3 (Re.PlusLazy not_nl) +> Re.Star blank
   +> Re.Chr (is_char "]") +> Re.Star blank)%re.

Definition rgx_value : Re.regex :=
  (Re.Group 5 (Re.StarLazy not_nl) +> Re.Star blank
   +> Re.Ahead (Re.Chr nl </> Re.Dollar))%re.

Definition rgx_key_value : Re.regex :=
  (Re.Star blank +> Re.Group 4 (Re.Plus not_space) +> Re.Star blank
   +> Re.Chr (is_char "=") +> Re.Star blank +> rgx_value)%re.

Definition rgx_unknown : Re.regex := Re.Plus not_nl.

Definition rgx_line : Re.regex :=
  (rgx_comment </> rgx_section </> rgx_key_value </> rgx_unknown)%re.

(** ** The shape of a line of each kind *)

(** [s] is made of spaces and tabs. *)
Definition blanks (s : string) : Prop := str_forall blank s = true.

(** [[ \t]*#[^\n]*] *)
Definition comment_line (t : string) : Prop :=
  ∃ b0 tail, t = b0 +:+ "#" +:+ tail ∧ blanks b0 ∧
             str_forall not_nl tail = true.

(** [[ \t]*\[[ \t]*name[ \t]*\][ \t]*] *)
Definition section_line (t name : string) : Prop :=
  ∃ b0 b1 b2 b3,
    t = b0 +:+ "[" +:+ b1 +:+ name +:+ b2 +:+ "]" +:+ b3 ∧
    blanks b0 ∧ blanks b1 ∧ blanks b2 ∧ blanks b3 ∧
    name ≠ "" ∧ str_forall not_nl name = true.

(** [[ \t]*key[ \t]*=[ \t]*value[ \t]*] *)
Definition key_value_line (t key value : string) : Prop :=
  ∃ b0 b1 b2 b3,
    t = b0 +:+ key +:+ b1 +:+ "=" +:+ b2 +:+ value +:+ b3 ∧
    blanks b0 ∧ blanks b1 ∧ blanks b2 ∧ blanks b3 ∧
    key ≠ "" ∧ str_forall not_space key = true ∧
    str_forall not_nl value = true.

(** ** The end of a line *)

(** [(?=\n|$)]: a newline comes next, or the string ends.  ([$] without
    MULTILINE also matches before a newline that ends the string, which the
    first alternative covers.) *)
Definition at_line_end (rest : string) : bool :=
  match rest with
  | String c _ => nl c
  | EmptyString => true
  end.

(** [[ \t]*(?=\n|$)], what follows the value of a key. *)
Definition rgx_tail : Re.regex :=
  (Re.Star blank +> Re.Ahead (Re.Chr nl </> Re.Dollar))%re.

(** Only blanks are left on the line. *)
Fixpoint line_end (rest : string) : bool :=
  match rest with
  | EmptyString => true
  | String c rest' => nl c || blank c && line_end rest'
  end.

(** The first, the last character of [s] is a space or a tab. *)
Definition starts_blank (s : string) : bool :=
  match s with
  | String c _ => blank c
  | EmptyString => false
  end.

Fixpoint ends_blank (s : string) : bool :=
  match s with
  | EmptyString => false
  | String c EmptyString => blank c
  | String _ s' => ends_blank s'
  end.

(** ** Printing a version *)

(** [str(n)] for an [int] that is not negative: its decimal digits. *)
Definition str_of_N (n : N) : string :=
  DecimalString.NilEmpty.string_of_uint (N.to_uint n).

(** [RedemptionVersion.__str__] *)
Definition __str__ (self : RedemptionVersion) : string :=
  str_of_N (major self) +:+ "." +:+ str_of_N (minor self) +:+ "."
  +:+ str_of_N (build self) +:+ revision self.

(** The first character of [s] is a decimal digit. *)
Definition starts_digit (s : string) : bool :=
  match s with
  | String c _ => digit c
  | EmptyString => false
  end.

(** CPython converts a string to an [int] when it has at most this many
    digits (the default of [sys.set_int_max_str_digits]) and raises
    [ValueError] otherwise. *)
Definition int_max_str_digits : nat := 4300.

(** A run of digits that [\d+] matches and [int] converts. *)
Definition digits (d : string) : Prop :=
  d ≠ "" ∧ str_forall digit d = true ∧
  (String.length d ≤ int_max_str_digits)%nat.

(** ** The sections of the catalog *)

(** The names of the sections for which [migration_defs] has a rule. *)
Definition catalog_sections : list string :=
  ["globals"; "rdp"; "video"; "all_target_mod"].

(** A file whose only section is not one of them. *)
Definition mod_rdp_file : list ConfigurationFragment :=
  [Fragment1 "[mod_rdp]" Section_ "mod_rdp"; newline_fragment;
   key_value_fragment "session_probe_arguments" "/q"; newline_fragment].

(** The number of newline characters of [s]. *)
Fixpoint count_nl (s : string) : nat :=
  match s with
  | EmptyString => 0
  | String c s' => (if nl c then 1 else 0) + count_nl s'
  end.

(** [s] has no character [a]. *)
Definition without (a : ascii) (s : string) : bool :=
  str_forall (λ c, negb (is_char a c)) s.

(** The first character of [s], if it has one: [s[:1]]. *)
Definition first_char (s : string) : option ascii :=
  match s with
  | String c _ => Some c
  | EmptyString => None
  end.

(** * Properties *)

(** ** Strings *)

Lemma str_take_drop (n : nat) (s : string) : str_take n s +:+ str_drop n s = s.
Proof.
  revert s; induction n as [|n IH]; intros [|c s]; simpl; try reflexivity.
  change (String c (str_take n s +:+ str_drop n s) = String c s).
  now rewrite IH.
Qed.

Lemma str_drop_0 (s : string) : str_drop 0 s = s.
Proof. now destruct s. Qed.

Lemma str_drop_drop (n k : nat) (s : string) :
  str_drop k (str_drop n s) = str_drop (n + k) s.
Proof.
  revert s; induction n as [|n IH]; intros s; simpl.
  - reflexivity.
  - destruct s as [|c s]; [now destruct k|]. apply IH.
Qed.

Lemma str_drop_succ (n : nat) (s : string) (c : ascii) (s' : string) :
  str_drop n s = String c s' → str_drop (S n) s = s'.
Proof.
  intros H. replace (S n) with (n + 1)%nat by lia.
  rewrite <- str_drop_drop, H. simpl. apply str_drop_0.
Qed.

Lemma str_length_drop (n : nat) (s : string) :
  String.length (str_drop n s) = (String.length s - n)%nat.
Proof.
  revert s; induction n as [|n IH]; intros [|c s]; simpl; auto with arith.
Qed.

(** ** The matcher *)

Module ReFacts.
Import Re.

Lemma rep_greedy_inv p : ∀ rest min pos gs (k : cont) res,
  rep_greedy p min pos rest gs k = Some res →
  ∃ n, (min ≤ n ≤ String.length rest)%nat ∧
       k (pos + n)%nat (str_drop n rest) gs = Some res.
Proof.
  induction rest as [|c rest IH]; intros min pos gs k res; simpl.
  - destruct min; simpl; [|discriminate]. intros H. exists 0%nat.
    rewrite Nat.add_0_r. split; [lia|exact H].
  - assert (Hstop : when0 min (k pos (String c rest) gs) = Some res →
      ∃ n, (min ≤ n ≤ S (String.length rest))%nat ∧
           k (pos + n)%nat (str_drop n (String c rest)) gs = Some res).
    { destruct min; simpl; [|discriminate]. intros H. exists 0%nat.
      rewrite Nat.add_0_r. split; [lia|exact H]. }
    destruct (p c); [|exact Hstop].
    destruct (rep_greedy p (Nat.pred min) (S pos) rest gs k) eqn:E; simpl.
    + intros [= ->]. apply IH in E as (n & Hn & Hk). exists (S n).
      rewrite Nat.add_succ_r. split; [lia|exact Hk].
    + exact Hstop.
Qed.

Lemma rep_lazy_inv p : ∀ rest min pos gs (k : cont) res,
  rep_lazy p min pos rest gs k = Some res →
  ∃ n, (min ≤ n ≤ String.length rest)%nat ∧
       k (pos + n)%nat (str_drop n rest) gs = Some res.
Proof.
  induction rest as [|c rest IH]; intros min pos gs k res; simpl.
  - destruct min; simpl; [|discriminate].
    destruct (k pos EmptyString gs) eqn:E; simpl; [|discriminate].
    intros [= ->]. exists 0%nat. rewrite Nat.add_0_r. split; [lia|exact E].
  - destruct (when0 min (k pos (String c rest) gs)) eqn:E; simpl.
    + intros [= ->]. destruct min; simpl in E; [|discriminate].
      exists 0%nat. rewrite Nat.add_0_r. split; [lia|exact E].
    + destruct (p c); [|discriminate]. intros H.
      apply IH in H as (n & Hn & Hk). exists (S n).
      rewrite Nat.add_succ_r. split; [lia|exact Hk].
Qed.

(** What a successful run of [exec] tells about the continuation: it was
    entered after at least [min_len r] characters, inside the subject, with
    the groups outside [r] as they were. *)
Lemma exec_inv : ∀ r pos rest gs (k : cont) res,
  exec r pos rest gs k = Some res →
  ∃ n gs', (min_len r ≤ n ≤ String.length rest)%nat ∧
           k (pos + n)%nat (str_drop n rest) gs' = Some res ∧
           (∀ g, ¬ In g (groups_of r) → gs' g = gs g).
Proof.
  induction r as [p|p|p|p|p|g r IH|r1 IH1 r2 IH2|r1 IH1 r2 IH2|r IH| |];
    intros pos rest gs k res; simpl.
  - destruct rest as [|c rest]; [discriminate|].
    destruct (p c); [|discriminate]. intros H. exists 1%nat, gs.
    rewrite Nat.add_1_r. simpl.
    split; [lia|]. split; [exact H|reflexivity].
  - intros H. apply rep_greedy_inv in H as (n & Hn & Hk). now exists n, gs.
  - intros H. apply rep_greedy_inv in H as (n & Hn & Hk). now exists n, gs.
  - intros H. apply rep_lazy_inv in H as (n & Hn & Hk). now exists n, gs.
  - intros H. apply rep_lazy_inv in H as (n & Hn & Hk). now exists n, gs.
  - intros H. apply IH in H as (n & gs' & Hn & Hk & Hg).
    exists n, (set_group g (pos, (pos + n)%nat) gs').
    split; [exact Hn|]. split; [exact Hk|]. intros g' Hg'.
    unfold set_group. destruct (Nat.eqb_spec g' g) as [->|Hne].
    + exfalso. apply Hg'. now left.
    + apply Hg. intros Hin. apply Hg'. now right.
  - intros H. apply IH1 in H as (n1 & gs1 & Hn1 & Hk1 & Hg1).
    apply IH2 in Hk1 as (n2 & gs2 & Hn2 & Hk2 & Hg2).
    rewrite str_length_drop in Hn2. rewrite str_drop_drop in Hk2.
    exists (n1 + n2)%nat, gs2. rewrite Nat.add_assoc.
    split; [lia|]. split; [exact Hk2|]. intros g Hg.
    rewrite Hg2, Hg1; [reflexivity| |]; intros Hin; apply Hg;
      apply in_or_app; auto.
  - destruct (exec r1 pos rest gs k) eqn:E; simpl.
    + intros [= ->]. apply IH1 in E as (n & gs' & Hn & Hk & Hg).
      exists n, gs'. split; [lia|]. split; [exact Hk|]. intros g Hg'.
      apply Hg. intros Hin. apply Hg'. apply in_or_app; auto.
    + intros H. apply IH2 in H as (n & gs' & Hn & Hk & Hg).
      exists n, gs'. split; [lia|]. split; [exact Hk|]. intros g Hg'.
      apply Hg. intros Hin. apply Hg'. apply in_or_app; auto.
  - destruct (exec r pos rest gs accept) as [[e gs']|] eqn:E; [|discriminate].
    intros H. apply IH in E as (n & gs'' & Hn & Hk & Hg).
    unfold accept in Hk. injection Hk as _ ->.
    exists 0%nat, gs'. rewrite Nat.add_0_r, str_drop_0.
    split; [lia|]. split; [exact H|exact Hg].
  - destruct (at_dollar rest); [|discriminate]. intros H. exists 0%nat, gs.
    rewrite Nat.add_0_r, str_drop_0. split; [lia|]. now split.
  - destruct (Nat.eqb pos 0); [|discriminate]. intros H. exists 0%nat, gs.
    rewrite Nat.add_0_r, str_drop_0. split; [lia|]. now split.
Qed.

(** The end of a match and the groups it leaves. *)
Lemma exec_accept_inv r pos rest e gs :
  exec r pos rest no_groups accept = Some (e, gs) →
  (pos + min_len r ≤ e ≤ pos + String.length rest)%nat ∧
  (∀ g, ¬ In g (groups_of r) → gs g = None).
Proof.
  intros H. apply exec_inv in H as (n & gs' & Hn & Hk & Hg).
  unfold accept in Hk. injection Hk as <- <-. split; [lia|].
  intros g Hin. now rewrite Hg.
Qed.

Lemma rep_greedy_accept p : ∀ rest pos gs,
  is_Some (rep_greedy p 0 pos rest gs accept).
Proof.
  induction rest as [|c rest IH]; intros pos gs; simpl; [eauto|].
  destruct (p c); [|simpl; eauto].
  destruct (IH (S pos) gs) as [x ->]. simpl. eauto.
Qed.

End ReFacts.

(** ** The parser *)

Lemma exec_alt_r r1 r2 pos rest gs (k : Re.cont) :
  is_Some (Re.exec r2 pos rest gs k) →
  is_Some (Re.exec (Re.Alt r1 r2) pos rest gs k).
Proof.
  intros [x Hx]. simpl. rewrite Hx.
  destruct (Re.exec r1 pos rest gs k); simpl; eauto.
Qed.

Lemma exec_unknown_line pos c rest gs :
  not_nl c = true →
  is_Some (Re.exec (Re.Plus not_nl) pos (String c rest) gs Re.accept).
Proof.
  intros Hc. simpl. rewrite Hc.
  destruct (ReFacts.rep_greedy_accept not_nl rest (S pos) gs) as [x ->].
  simpl. eauto.
Qed.

(** On a subject that is not exhausted the pattern matches where it stands,
    the match is not empty, and group 1 takes part only in a match of one
    newline. *)
Lemma rgx_ini_parser_here pos c rest :
  ∃ e gs,
    Re.exec rgx_ini_parser pos (String c rest) Re.no_groups Re.accept
      = Some (e, gs) ∧
    (pos < e ≤ pos + S (String.length rest))%nat ∧
    (gs 1%nat ≠ None → e = S pos ∧ c = newline_char).
Proof.
  unfold rgx_ini_parser.
  match goal with
  | |- context [Re.Alt (Re.Group 1 ?a) ?t] => remember t as tail eqn:Htail
  end.
  destruct (nl c) eqn:Hc.
  - exists (S pos), (Re.set_group 1 (pos, S pos) Re.no_groups).
    simpl. rewrite Hc. simpl. split; [reflexivity|]. split; [lia|].
    intros _. split; [reflexivity|]. now apply Ascii.eqb_eq in Hc.
  - assert (Htl : is_Some
      (Re.exec tail pos (String c rest) Re.no_groups Re.accept)).
    { subst tail. do 3 apply exec_alt_r. apply exec_unknown_line.
      unfold not_nl. unfold nl in Hc. now rewrite Hc. }
    destruct Htl as [[e gs] Htl]. exists e, gs.
    simpl. rewrite Hc. simpl. split; [exact Htl|].
    apply ReFacts.exec_accept_inv in Htl as [He Hg]. subst tail.
    simpl in He. split; [simpl; lia|].
    intros Hg1. exfalso. apply Hg1, Hg. simpl. intuition lia.
Qed.

Lemma rgx_ini_parser_end pos :
  Re.exec rgx_ini_parser pos EmptyString Re.no_groups Re.accept = None.
Proof.
  destruct (Re.exec rgx_ini_parser pos EmptyString Re.no_groups Re.accept)
    as [[e gs]|] eqn:E; [|reflexivity].
  apply ReFacts.exec_accept_inv in E as [He _]. simpl in He. lia.
Qed.

(** The text of the fragment made from a match is the matched text. *)
Lemma text_to_fragment s pos c rest e gs :
  str_drop pos s = String c rest →
  Re.exec rgx_ini_parser pos (String c rest) Re.no_groups Re.accept
    = Some (e, gs) →
  text (_to_fragment (Re.mkMatch s pos e gs))
    = str_take (e - pos) (String c rest).
Proof.
  intros Hs He.
  destruct (rgx_ini_parser_here pos c rest) as (e' & gs' & He' & Hlt & H1).
  rewrite He in He'. injection He' as <- <-.
  unfold _to_fragment, Re.has_group, Re.group0, str_slice. simpl.
  rewrite Hs. destruct (gs 1%nat) as [sp|] eqn:G1.
  - destruct H1 as [-> ->]; [discriminate|].
    replace (S pos - pos)%nat with 1%nat by lia. reflexivity.
  - destruct (gs 2%nat); [reflexivity|]. destruct (gs 3%nat); [reflexivity|].
    destruct (gs 4%nat); reflexivity.
Qed.

Lemma scan_end r s pos :
  Re.scan r s pos EmptyString 0
  = match Re.exec r pos EmptyString Re.no_groups Re.accept with
    | Some (e, gs) => [Re.mkMatch s pos e gs]
    | None => []
    end.
Proof. reflexivity. Qed.

Lemma scan_here r s pos c rest :
  Re.scan r s pos (String c rest) 0
  = match Re.exec r pos (String c rest) Re.no_groups Re.accept with
    | Some (e, gs) =>
        Re.mkMatch s pos e gs :: Re.scan r s (S pos) rest (e - pos - 1)
    | None => Re.scan r s (S pos) rest 0
    end.
Proof. reflexivity. Qed.

Lemma scan_skip r s pos c rest skip :
  Re.scan r s pos (String c rest) (S skip) = Re.scan r s (S pos) rest skip.
Proof. reflexivity. Qed.

Lemma scan_texts s : ∀ rest pos skip,
  str_drop pos s = rest →
  (skip ≤ String.length rest)%nat →
  str_join (map text (map _to_fragment
    (Re.scan rgx_ini_parser s pos rest skip))) = str_drop skip rest.
Proof.
  induction rest as [|c rest IH]; intros pos skip Hs Hskip; simpl in Hskip.
  - replace skip with 0%nat by lia.
    now rewrite scan_end, rgx_ini_parser_end.
  - pose proof (str_drop_succ _ _ _ _ Hs) as Hs'.
    destruct skip as [|skip].
    + destruct (rgx_ini_parser_here pos c rest) as (e & gs & He & Hlt & _).
      rewrite scan_here, He. cbn [map str_join foldr].
      fold (str_join (map text (map _to_fragment
        (Re.scan rgx_ini_parser s (S pos) rest (e - pos - 1))))).
      rewrite (text_to_fragment s pos c rest e gs Hs He).
      rewrite IH by (auto; lia).
      remember (e - pos - 1)%nat as j eqn:Hj.
      replace (e - pos)%nat with (S j) by lia.
      cbn [str_take str_drop].
      change (String c (str_take j rest +:+ str_drop j rest) = String c rest).
      now rewrite str_take_drop.
    + rewrite scan_skip. apply IH; [exact Hs'|lia].
Qed.

(** C1.  Joining the texts of the fragments that [parse_configuration]
    returns, in order, gives back the input, whatever the input is. *)
Theorem parse_configuration_roundtrip (content : string) :
  str_join (map text (parse_configuration content)) = content.
Proof.
  unfold parse_configuration, Re.finditer.
  rewrite (scan_texts content content 0 0); [apply str_drop_0|reflexivity|].
  simpl. lia.
Qed.

(** ** Versions *)

(** C9 as the specification words it fails on its middle part: two
    separately parsed "9.1.39" are two objects, and [==] on them is false. *)
Lemma version_reparsed_not_equal :
  ∃ a a' : Instance,
    new_RedemptionVersion "9.1.39" 0%nat = (inr a, 1%nat) ∧
    new_RedemptionVersion "9.1.39" 1%nat = (inr a', 2%nat) ∧
    object_eq a a' = false.
Proof. do 2 eexists. repeat split; vm_compute; reflexivity. Qed.

(** C9, amended.  Parsed versions satisfy 9.1.39 < 9.1.71 < 9.1.76; a parsed
    9.1.39 and a 9.1.39 parsed again have the same parts, so each is [<=] the
    other and neither is [<] the other, while [==] on the two objects, which
    the class leaves to object identity, is false; parsing "9.1" raises
    RedemptionVersionError. *)
Theorem version_comparison (h : heap) :
  ∃ a b c a' : Instance,
    new_RedemptionVersion "9.1.39" h = (inr a, S h) ∧
    new_RedemptionVersion "9.1.71" (S h) = (inr b, S (S h)) ∧
    new_RedemptionVersion "9.1.76" (S (S h)) = (inr c, S (S (S h))) ∧
    new_RedemptionVersion "9.1.39" (S (S (S h))) = (inr a', S (S (S (S h)))) ∧
    instance_lt a b = true ∧ instance_lt b c = true ∧
    instance_lt a c = true ∧
    __part (self_ a) = __part (self_ a') ∧
    instance_le a a' = true ∧ instance_le a' a = true ∧
    instance_lt a a' = false ∧ instance_lt a' a = false ∧
    object_eq a a' = false ∧
    new_RedemptionVersion "9.1" h
      = (inl (InvalidVersionString "Invalid version string format: 9.1"), h).
Proof.
  exists (mkInstance h (mkVersion 9 1 39 "")),
         (mkInstance (S h) (mkVersion 9 1 71 "")),
         (mkInstance (S (S h)) (mkVersion 9 1 76 "")),
         (mkInstance (S (S (S h))) (mkVersion 9 1 39 "")).
  repeat split; try reflexivity.
  unfold object_eq. simpl. apply Nat.eqb_neq. lia.
Qed.

(** ** The order of versions *)

Lemma N_compare_lawful : Lawful N.compare.
Proof.
  split.
  - intros a b. apply N.compare_eq_iff.
  - apply N.compare_refl.
  - intros a b. apply N.compare_antisym.
  - intros a b c. rewrite !N.compare_lt_iff. lia.
Qed.

Lemma ascii_compare_lawful : Lawful Ascii.compare.
Proof.
  split.
  - apply Ascii.compare_eq_iff.
  - intros a. apply N.compare_refl.
  - apply Ascii.compare_antisym.
  - intros a b c. unfold Ascii.compare. rewrite !N.compare_lt_iff. lia.
Qed.

Lemma string_compare_refl (s : string) : String.compare s s = Eq.
Proof.
  induction s as [|c s IH]; simpl; [reflexivity|].
  now rewrite (law_refl _ ascii_compare_lawful).
Qed.

Lemma string_compare_trans (a b c : string) :
  String.compare a b = Lt → String.compare b c = Lt → String.compare a c = Lt.
Proof.
  revert b c; induction a as [|x a IH]; intros [|y b] [|z c]; simpl;
    try discriminate; try reflexivity.
  destruct (Ascii.compare x y) eqn:Exy; try discriminate;
    destruct (Ascii.compare y z) eqn:Eyz; try discriminate; intros Hab Hbc.
  - apply (law_eq _ ascii_compare_lawful) in Exy, Eyz. subst.
    rewrite (law_refl _ ascii_compare_lawful). eauto.
  - apply (law_eq _ ascii_compare_lawful) in Exy. subst. now rewrite Eyz.
  - apply (law_eq _ ascii_compare_lawful) in Eyz. subst. now rewrite Exy.
  - now rewrite (law_trans _ ascii_compare_lawful _ _ _ Exy Eyz).
Qed.

Lemma string_compare_lawful : Lawful String.compare.
Proof.
  split.
  - apply String.compare_eq_iff.
  - apply string_compare_refl.
  - apply String.compare_antisym.
  - apply string_compare_trans.
Qed.

Lemma lex_lawful {A B : Type} (ca : A → A → comparison)
    (cb : B → B → comparison) :
  Lawful ca → Lawful cb → Lawful (lex ca cb).
Proof.
  intros [ea ra aa ta] [eb rb ab tb]. split; unfold lex.
  - intros [a1 b1] [a2 b2]; simpl.
    destruct (ca a1 a2) eqn:E; simpl; try discriminate.
    intros H. apply ea in E. apply eb in H. now subst.
  - intros [a b]; simpl. now rewrite ra, rb.
  - intros [a1 b1] [a2 b2]; simpl. rewrite (aa a1 a2), (ab b1 b2).
    now destruct (ca a2 a1).
  - intros [a1 b1] [a2 b2] [a3 b3]; simpl.
    destruct (ca a1 a2) eqn:E12; simpl; try discriminate;
      destruct (ca a2 a3) eqn:E23; simpl; try discriminate; intros H12 H23.
    + apply ea in E12, E23. subst. rewrite ra. simpl. eauto.
    + apply ea in E12. subst. now rewrite E23.
    + apply ea in E23. subst. now rewrite E12.
    + now rewrite (ta _ _ _ E12 E23).
Qed.

Lemma tuple_compare_lex (a b : N * N * N * string) :
  tuple_compare a b
  = lex N.compare (lex N.compare (lex N.compare String.compare))
      (nest a) (nest b).
Proof. destruct a as [[[a1 a2] a3] a4], b as [[[b1 b2] b3] b4]. reflexivity. Qed.

Lemma nest_inj (a b : N * N * N * string) : nest a = nest b → a = b.
Proof.
  destruct a as [[[a1 a2] a3] a4], b as [[[b1 b2] b3] b4]. simpl. congruence.
Qed.

Lemma tuple_compare_lawful : Lawful tuple_compare.
Proof.
  pose proof (lex_lawful _ _ N_compare_lawful
    (lex_lawful _ _ N_compare_lawful
       (lex_lawful _ _ N_compare_lawful string_compare_lawful)))
    as [e r a t].
  split; intros *; rewrite ?tuple_compare_lex.
  - intros H. apply nest_inj, e, H.
  - apply r.
  - apply a.
  - apply t.
Qed.

Section VersionOrder.
Implicit Types a b c : RedemptionVersion.

Lemma lt_iff a b : __lt__ a b = true ↔ tuple_compare (__part a) (__part b) = Lt.
Proof. unfold __lt__, tuple_lt. destruct (tuple_compare _ _); intuition congruence. Qed.

Lemma le_iff a b : __le__ a b = true ↔ tuple_compare (__part a) (__part b) ≠ Gt.
Proof. unfold __le__, tuple_le. destruct (tuple_compare _ _); intuition congruence. Qed.

(** [a <= b] is the negation of [b < a]. *)
Lemma le_not_lt a b : __le__ a b = negb (__lt__ b a).
Proof.
  unfold __le__, __lt__, tuple_le, tuple_lt.
  rewrite (law_anti _ tuple_compare_lawful (__part b) (__part a)).
  now destruct (tuple_compare (__part a) (__part b)).
Qed.

Lemma lt_le_trans a b c :
  __lt__ a b = true → __le__ b c = true → __lt__ a c = true.
Proof.
  rewrite !lt_iff, le_iff. intros Hab Hbc.
  destruct (tuple_compare (__part b) (__part c)) eqn:E; [| |congruence].
  - apply (law_eq _ tuple_compare_lawful) in E. now rewrite <- E.
  - exact (law_trans _ tuple_compare_lawful _ _ _ Hab E).
Qed.

Lemma lt_irrefl a : __lt__ a a = false.
Proof.
  unfold __lt__, tuple_lt. now rewrite (law_refl _ tuple_compare_lawful).
Qed.

Lemma lt_asym a b : __lt__ a b = true → __lt__ b a = false.
Proof.
  intros H. destruct (__lt__ b a) eqn:E; [|reflexivity].
  assert (Hle : __le__ b a = true) by (apply le_iff; apply lt_iff in E; congruence).
  pose proof (lt_le_trans _ _ _ H Hle) as Haa. now rewrite lt_irrefl in Haa.
Qed.

Lemma le_trans a b c :
  __le__ a b = true → __le__ b c = true → __le__ a c = true.
Proof.
  rewrite !le_not_lt, !negb_true_iff. intros Hab Hbc.
  destruct (__lt__ c a) eqn:E; [|reflexivity].
  assert (Hcb : __lt__ c b = true).
  { apply (lt_le_trans c a b E). now rewrite le_not_lt, Hab. }
  congruence.
Qed.

End VersionOrder.

(** ** The version gate *)

Lemma insert_by_version_perm x l : insert_by_version x l ≡ₚ x :: l.
Proof.
  induction l as [|y l IH]; simpl; [reflexivity|].
  destruct (__lt__ (fst y) (fst x)); [|reflexivity].
  rewrite IH. apply Permutation_swap.
Qed.

Lemma sorted_by_version_perm l : sorted_by_version l ≡ₚ l.
Proof.
  induction l as [|x l IH]; simpl; [reflexivity|].
  now rewrite insert_by_version_perm, IH.
Qed.

Lemma insert_by_version_sorted x l :
  StronglySorted ascending l → StronglySorted ascending (insert_by_version x l).
Proof.
  induction l as [|y l IH]; simpl; intros Hs.
  - repeat constructor.
  - apply StronglySorted_inv in Hs as [Hl Hy].
    destruct (__lt__ (fst y) (fst x)) eqn:E.
    + constructor; [now apply IH|].
      rewrite insert_by_version_perm. constructor; [|exact Hy].
      unfold ascending. now rewrite le_not_lt, (lt_asym _ _ E).
    + assert (Hxy : ascending x y) by (unfold ascending; now rewrite le_not_lt, E).
      constructor; [now constructor|]. constructor; [exact Hxy|].
      eapply Forall_impl; [exact Hy|]. intros z Hz. unfold ascending in *.
      eapply le_trans; eauto.
Qed.

Lemma sorted_by_version_sorted l : StronglySorted ascending (sorted_by_version l).
Proof.
  induction l as [|x l IH]; simpl; [constructor|].
  now apply insert_by_version_sorted.
Qed.

Lemma filter_all {A} (P : A → Prop) `{!∀ x, Decision (P x)} (l : list A) :
  Forall P l → filter P l = l.
Proof.
  induction 1 as [|x l Hx _ IH]; [reflexivity|].
  now rewrite filter_cons_True, IH.
Qed.

(** On a list in ascending order the loop returns the entries that are
    newer than [prev]. *)
Lemma migration_filter_loop_sorted l prev :
  StronglySorted ascending l →
  migration_filter_loop l prev = filter (newer prev) l.
Proof.
  induction l as [|t l IH]; simpl; intros Hs; [reflexivity|].
  apply StronglySorted_inv in Hs as [Hl Ht]. unfold version_ge.
  rewrite le_not_lt. destruct (__lt__ prev (fst t)) eqn:E; simpl.
  - rewrite filter_cons_True by exact E. f_equal.
    symmetry. apply filter_all. eapply Forall_impl; [exact Ht|].
    intros z Hz. exact (lt_le_trans _ _ _ E Hz).
  - rewrite filter_cons_False by (unfold newer; congruence). now apply IH.
Qed.

Lemma filter_sorted {A} (R : A → A → Prop) (P : A → Prop)
    `{!∀ x, Decision (P x)} (l : list A) :
  StronglySorted R l → StronglySorted R (filter P l).
Proof.
  induction 1 as [|x l Hl IH Hx]; [constructor|].
  rewrite filter_cons. destruct (decide (P x)); [|exact IH].
  constructor; [exact IH|]. apply Forall_forall. intros y Hy.
  apply list_elem_of_filter in Hy as [_ Hy].
  rewrite Forall_forall in Hx. now apply Hx.
Qed.

Lemma migration_filter_elem defs prev t :
  t ∈ migration_filter defs prev ↔ t ∈ defs ∧ __lt__ prev (fst t) = true.
Proof.
  unfold migration_filter.
  rewrite migration_filter_loop_sorted by apply sorted_by_version_sorted.
  rewrite list_elem_of_filter, sorted_by_version_perm. unfold newer. tauto.
Qed.

(** Nothing is selected at or above the newest version of the catalog. *)
Lemma migration_filter_stale defs prev :
  forallb (λ t, version_ge prev (fst t)) defs = true →
  migration_filter defs prev = [].
Proof.
  intros Hall. rewrite forallb_forall in Hall.
  destruct (migration_filter defs prev) as [|t l] eqn:E; [reflexivity|].
  assert (Ht : t ∈ migration_filter defs prev) by (rewrite E; left).
  apply migration_filter_elem in Ht as [Hin Hlt].
  apply list_elem_of_In, Hall in Hin.
  unfold version_ge in Hin. rewrite le_not_lt, Hlt in Hin. discriminate.
Qed.

(** C7.  [migration_filter] returns the entries of the catalog whose version
    is strictly greater than the previous version, each as often as the
    catalog has it, in ascending order of version; no entry at or below the
    previous version is returned, and nothing is returned when the previous
    version is at or above every version of the catalog. *)
Theorem migration_filter_spec (defs : list MigrationType)
    (previous_version : RedemptionVersion) :
  migration_filter defs previous_version
    = filter (newer previous_version) (sorted_by_version defs) ∧
  migration_filter defs previous_version
    ≡ₚ filter (newer previous_version) defs ∧
  StronglySorted ascending (migration_filter defs previous_version) ∧
  (∀ t, t ∈ migration_filter defs previous_version ↔
        t ∈ defs ∧ __lt__ previous_version (fst t) = true) ∧
  (∀ t, t ∈ migration_filter defs previous_version →
        __le__ (fst t) previous_version = false) ∧
  (forallb (λ t, version_ge previous_version (fst t)) defs = true →
   migration_filter defs previous_version = []).
Proof.
  assert (Heq : migration_filter defs previous_version
    = filter (newer previous_version) (sorted_by_version defs)).
  { apply migration_filter_loop_sorted, sorted_by_version_sorted. }
  split; [exact Heq|]. split.
  { rewrite Heq. now rewrite sorted_by_version_perm. }
  split.
  { rewrite Heq. apply filter_sorted, sorted_by_version_sorted. }
  split; [apply migration_filter_elem|]. split.
  { intros t Ht. apply migration_filter_elem in Ht as [_ Ht].
    now rewrite le_not_lt, Ht. }
  apply migration_filter_stale.
Qed.

(** At a version between the first and the second entry of the catalog, and
    at its newest version. *)
Example migration_filter_9_1_50 :
  map fst (migration_filter migration_defs (version_of "9.1.50"))
  = [mkVersion 9 1 71 ""; mkVersion 9 1 76 ""].
Proof. vm_compute. reflexivity. Qed.

Lemma migration_filter_spec_witness :
  forallb (λ t, version_ge (version_of "9.1.76") (fst t)) migration_defs = true
  ∧ migration_filter migration_defs (version_of "9.1.76") = [].
Proof.
  assert (H : forallb (λ t, version_ge (version_of "9.1.76") (fst t))
                migration_defs = true) by (vm_compute; reflexivity).
  split; [exact H|].
  exact (proj2 (proj2 (proj2 (proj2 (proj2
    (migration_filter_spec migration_defs (version_of "9.1.76")))))) H).
Defined.

(** ** The rule engine *)

Lemma migration_def_to_actions_snoc fragments fragment migration_def :
  migration_def_to_actions (fragments ++ [fragment]) migration_def
  = actions_step migration_def
      (migration_def_to_actions fragments migration_def) fragment.
Proof. unfold migration_def_to_actions. now rewrite foldl_app. Qed.

Lemma foldl_on_step_names orders : ∀ st,
  original_section (foldl on_step st orders) = original_section st ∧
  section (foldl on_step st orders) = foldl step_name (section st) orders.
Proof.
  induction orders as [|o orders IH]; intros st; simpl; [easy|].
  destruct (IH (on_step st o)) as [-> ->]. now destruct o.
Qed.

Lemma foldl_on_step_keys orders : ∀ st,
  renamed_keys (foldl on_step st orders) = renamed_keys st ∧
  moved_keys (foldl on_step st orders) = moved_keys st.
Proof.
  induction orders as [|o orders IH]; intros st; simpl; [easy|].
  destruct (IH (on_step st o)) as [-> ->]. now destruct o.
Qed.

Lemma on_key_value_names st fragment :
  original_section (on_key_value st fragment) = original_section st ∧
  section (on_key_value st fragment) = section st.
Proof.
  unfold on_key_value. destruct (truthy_desc _) as [desc|]; [|easy].
  destruct (desc !! value1 fragment) as [[|order]|]; try easy.
  destruct (UpdateItem.call _ _ _ _) as [[t0 t1] t2].
  now destruct (String.eqb t0 (section st)).
Qed.

Lemma on_section_names migration_def st fragment :
  original_section (on_section migration_def st fragment) = value1 fragment ∧
  section (on_section migration_def st fragment)
    = renamed migration_def (value1 fragment).
Proof.
  unfold on_section, renamed.
  destruct (migration_def !! value1 fragment) as [[|n|d|orders]|]; try easy.
  apply foldl_on_step_names.
Qed.

(** [original_section] is the section as the fragments write it, [section]
    that name after the rename steps declared for it. *)
Lemma actions_names fragments migration_def :
  let st := migration_def_to_actions fragments migration_def in
  original_section st = default "" (last_section fragments) ∧
  section st = from_option (renamed migration_def) "" (last_section fragments).
Proof.
  induction fragments as [|fragment fragments IH] using rev_ind; [easy|].
  rewrite migration_def_to_actions_snoc. unfold last_section in *.
  rewrite foldl_app. simpl. unfold actions_step.
  destruct (kind fragment); try exact IH.
  - apply on_section_names.
  - destruct (on_key_value_names
      (migration_def_to_actions fragments migration_def) fragment)
      as [-> ->]. exact IH.
Qed.

(** A turn of the loop only appends to the lists of key actions. *)
Lemma actions_step_prefix migration_def st fragment :
  renamed_keys st `prefix_of`
    renamed_keys (actions_step migration_def st fragment) ∧
  moved_keys st `prefix_of`
    moved_keys (actions_step migration_def st fragment).
Proof.
  unfold actions_step. destruct (kind fragment); try easy.
  - unfold on_section.
    destruct (migration_def !! value1 fragment) as [[|n|d|orders]|];
      try easy.
    now destruct (foldl_on_step_keys orders
      (mkActions (value1 fragment) (value1 fragment) None
         (renamed_sections st) (renamed_keys st) (moved_keys st)
         (removed_sections st) (removed_keys st))) as [-> ->].
  - unfold on_key_value. destruct (truthy_desc _) as [desc|]; [|easy].
    destruct (desc !! value1 fragment) as [[|order]|]; try easy.
    destruct (UpdateItem.call _ _ _ _) as [[t0 t1] t2].
    destruct (String.eqb t0 (section st)); simpl; split;
      try easy; now apply prefix_app_r.
Qed.

Lemma actions_fold_prefix migration_def post : ∀ st,
  renamed_keys st `prefix_of`
    renamed_keys (foldl (actions_step migration_def) st post) ∧
  moved_keys st `prefix_of`
    moved_keys (foldl (actions_step migration_def) st post).
Proof.
  induction post as [|f post IH]; intros st; simpl; [easy|].
  destruct (IH (actions_step migration_def st f)) as [H1 H2].
  destruct (actions_step_prefix migration_def st f) as [H3 H4].
  split; etrans; eauto.
Qed.

(** C3.  When the key of a KeyValue fragment has an update rule in the
    active mapping, the triple is the rule's override of section and key,
    each defaulting to the current one, and the value looked up in the rule's
    table, defaulting to itself; a rename-key action is appended when the
    triple's section is the current section and a move-key action otherwise,
    either with the section as the fragments write it as its source; the
    action stays in the lists returned for any longer sequence. *)
Theorem update_rule_classification (migration_def : MigrationDescType)
    (pre : list ConfigurationFragment) (fragment : ConfigurationFragment)
    (desc : gmap string MigrationKeyOrderType) (order : UpdateItem.t) :
  let st := migration_def_to_actions pre migration_def in
  let st' := migration_def_to_actions (pre ++ [fragment]) migration_def in
  let t0 := default (section st) (UpdateItem.section order) in
  let t1 := default (value1 fragment) (UpdateItem.key order) in
  let t2 :=
    match UpdateItem.values order with
    | Some table => default (value2 fragment) (table !! value2 fragment)
    | None => value2 fragment
    end in
  kind fragment = KeyValue →
  migration_key_desc st = Some desc →
  desc !! value1 fragment = Some (Update order) →
  UpdateItem.call order (section st) (value1 fragment) (value2 fragment)
    = (t0, t1, t2) ∧
  original_section st = default "" (last_section pre) ∧
  section st = from_option (renamed migration_def) "" (last_section pre) ∧
  (t0 = section st →
     renamed_keys st'
       = renamed_keys st ++ [(original_section st, value1 fragment, t1, t2)] ∧
     moved_keys st' = moved_keys st) ∧
  (t0 ≠ section st →
     moved_keys st'
       = moved_keys st
           ++ [(original_section st, value1 fragment, t0, t1, t2)] ∧
     renamed_keys st' = renamed_keys st) ∧
  renamed_sections st' = renamed_sections st ∧
  removed_sections st' = removed_sections st ∧
  removed_keys st' = removed_keys st ∧
  (∀ post,
     renamed_keys st' `prefix_of`
       renamed_keys
         (migration_def_to_actions (pre ++ fragment :: post) migration_def) ∧
     moved_keys st' `prefix_of`
       moved_keys
         (migration_def_to_actions (pre ++ fragment :: post) migration_def)).
Proof.
  intros st st' t0 t1 t2 Hkind Hdesc Horder.
  assert (Hcall : UpdateItem.call order (section st) (value1 fragment)
                    (value2 fragment) = (t0, t1, t2)).
  { unfold UpdateItem.call, t0, t1, t2.
    destruct (UpdateItem.section order), (UpdateItem.key order),
      (UpdateItem.values order) as [table|]; simpl; try reflexivity;
      destruct (table !! value2 fragment); reflexivity. }
  assert (Hst' : st' = on_key_value st fragment).
  { unfold st'. rewrite migration_def_to_actions_snoc. unfold actions_step.
    now rewrite Hkind. }
  assert (Hstep : on_key_value st fragment
    = if String.eqb t0 (section st) then
        mkActions (section st) (original_section st) (migration_key_desc st)
          (renamed_sections st)
          (renamed_keys st ++ [(original_section st, value1 fragment, t1, t2)])
          (moved_keys st) (removed_sections st) (removed_keys st)
      else
        mkActions (section st) (original_section st) (migration_key_desc st)
          (renamed_sections st) (renamed_keys st)
          (moved_keys st
             ++ [(original_section st, value1 fragment, t0, t1, t2)])
          (removed_sections st) (removed_keys st)).
  { unfold on_key_value, truthy_desc. rewrite Hdesc.
    destruct (decide (desc = ∅)) as [->|_].
    - now rewrite lookup_empty in Horder.
    - now rewrite Horder, Hcall. }
  assert (Hpost : ∀ post,
    migration_def_to_actions (pre ++ fragment :: post) migration_def
    = foldl (actions_step migration_def) st' post).
  { intros post. unfold st'.
    rewrite (cons_middle fragment pre post), app_assoc.
    unfold migration_def_to_actions. now rewrite foldl_app. }
  split; [exact Hcall|].
  destruct (actions_names pre migration_def) as [Ho Hs].
  split; [exact Ho|]. split; [exact Hs|].
  assert (Hlast : ∀ post,
    renamed_keys st' `prefix_of`
      renamed_keys
        (migration_def_to_actions (pre ++ fragment :: post) migration_def) ∧
    moved_keys st' `prefix_of`
      moved_keys
        (migration_def_to_actions (pre ++ fragment :: post) migration_def)).
  { intros post. rewrite Hpost. apply actions_fold_prefix. }
  revert Hlast. generalize
    (λ post, migration_def_to_actions (pre ++ fragment :: post) migration_def).
  rewrite Hst', Hstep. intros final Hlast.
  destruct (String.eqb_spec t0 (section st)) as [Heq|Hne]; simpl in *;
    repeat split; try easy; apply Hlast.
Qed.

(** The sample sequences are what the parser gives for these texts. *)
Example rdp_file_parsed :
  parse_configuration (lines ["[rdp]"; "session_probe_exe_or_file=foo.exe"])
  = rdp_file.
Proof. vm_compute. reflexivity. Qed.

Example rdp_file_blank_parsed :
  parse_configuration
    (lines ["[rdp]"; "session_probe_exe_or_file=foo.exe"; ""])
  = rdp_file_blank.
Proof. vm_compute. reflexivity. Qed.

Example dup_file_parsed :
  parse_configuration (lines ["[a]"; "k=1"; "k=2"; ""]) = dup_file.
Proof. vm_compute. reflexivity. Qed.

Example headless_file_parsed :
  parse_configuration (lines ["k=v"; ""; ""]) = headless_file.
Proof. vm_compute. reflexivity. Qed.

Example two_headers_file_parsed :
  parse_configuration (lines ["[a][b]"; "k=v"; ""]) = two_headers_file.
Proof. vm_compute. reflexivity. Qed.

Example two_sections_file_parsed :
  parse_configuration (lines ["[a]"; "k=v"; ""; "[b]"; "x=1"])
  = two_sections_file.
Proof. vm_compute. reflexivity. Qed.

(** A header with spaces, a comment, a key with spaces around its value, a
    line that is none of these, and a line with an empty key. *)
Example parse_kinds :
  parse_configuration
    (lines ["  [ a b ]  "; " # c "; "  k  =  v w  "; "junk"; "=v"])
  = [Fragment1 "  [ a b ]  " Section_ "a b"; newline_fragment;
     Fragment0 " # c " Comment; newline_fragment;
     mkFragment "  k  =  v w  " KeyValue "k" "v w"; newline_fragment;
     Fragment0 "junk" Unknown; newline_fragment;
     Fragment0 "=v" Unknown; newline_fragment].
Proof. vm_compute. reflexivity. Qed.

Lemma update_rule_classification_witness :
  kind exe_line = KeyValue ∧
  migration_key_desc (migration_def_to_actions rdp_header move_exe_def)
    = Some move_exe_rules ∧
  move_exe_rules !! value1 exe_line = Some (Update move_exe_order) ∧
  moved_keys (migration_def_to_actions (rdp_header ++ [exe_line]) move_exe_def)
    = [("rdp", "session_probe_exe_or_file", "session_probe", "exe_or_file",
        "foo.exe")].
Proof.
  assert (H1 : kind exe_line = KeyValue) by reflexivity.
  assert (H2 : migration_key_desc
                 (migration_def_to_actions rdp_header move_exe_def)
               = Some move_exe_rules) by (vm_compute; reflexivity).
  assert (H3 : move_exe_rules !! value1 exe_line
               = Some (Update move_exe_order)) by (vm_compute; reflexivity).
  split; [exact H1|]. split; [exact H2|]. split; [exact H3|].
  destruct (update_rule_classification move_exe_def rdp_header exe_line
              move_exe_rules move_exe_order H1 H2 H3)
    as (_ & _ & _ & _ & Hmove & _).
  destruct Hmove as [-> _]; [vm_compute; discriminate|].
  vm_compute. reflexivity.
Defined.

(** ** The changed flag *)

(** C8.  [migrate] returns changed = true exactly when one of the five
    action lists is not empty, and when it returns changed = false the
    fragments it returns are the ones it was given. *)
Theorem migrate_changed (fragments : list ConfigurationFragment)
    (migration_def : MigrationDescType) :
  let a := migration_def_to_actions fragments migration_def in
  (fst (migrate fragments migration_def) = true ↔
     renamed_sections a ≠ [] ∨ renamed_keys a ≠ [] ∨ moved_keys a ≠ []
     ∨ removed_sections a ≠ [] ∨ removed_keys a ≠ []) ∧
  (fst (migrate fragments migration_def) = false →
     snd (migrate fragments migration_def) = fragments).
Proof.
  intros a. unfold migrate. fold a. unfold no_actions.
  destruct (renamed_sections a), (renamed_keys a), (moved_keys a),
    (removed_sections a), (removed_keys a); simpl;
    try (destruct (rebuild _ _ _ _ _)); simpl;
    (split; [split; [try discriminate; intros _; auto 6
                    |try reflexivity; intros H; decompose [or] H; congruence]
            |try discriminate; reflexivity]).
Qed.

(** A description without rules changes nothing, and neither does a
    catalog of which no entry is selected. *)
Lemma on_section_empty st f :
  on_section ∅ st f
  = mkActions (value1 f) (value1 f) None (renamed_sections st)
      (renamed_keys st) (moved_keys st) (removed_sections st)
      (removed_keys st).
Proof. unfold on_section. now rewrite lookup_empty. Qed.

Lemma actions_step_empty st f :
  migration_key_desc st = None → no_actions st = true →
  migration_key_desc (actions_step ∅ st f) = None ∧
  no_actions (actions_step ∅ st f) = true.
Proof.
  intros Hd Hno. unfold actions_step.
  destruct (kind f); [easy|easy|easy| |].
  - rewrite on_section_empty. easy.
  - unfold on_key_value. now rewrite Hd.
Qed.

Lemma migrate_empty_def (fragments : list ConfigurationFragment) :
  migrate fragments ∅ = (false, fragments).
Proof.
  unfold migrate.
  assert (H : ∀ st,
    migration_key_desc st = None → no_actions st = true →
    no_actions (foldl (actions_step ∅) st fragments) = true).
  { induction fragments as [|f fragments IH]; intros st Hd Hno;
      [exact Hno|].
    cbn [foldl]. destruct (actions_step_empty st f Hd Hno) as [Hd' Hno'].
    now apply IH. }
  unfold migration_def_to_actions. now rewrite H.
Qed.

Lemma migrate_fragments_stale (fragments : list ConfigurationFragment)
    (version : RedemptionVersion) :
  forallb (λ t, version_ge version (fst t)) migration_defs = true →
  migrate_fragments migration_defs version fragments = (false, fragments).
Proof.
  intros Hall. unfold migrate_fragments.
  now rewrite (migration_filter_stale _ _ Hall).
Qed.

Lemma migrate_changed_witness :
  fst (migrate rdp_header move_exe_def) = false ∧
  snd (migrate rdp_header move_exe_def) = rdp_header.
Proof.
  assert (H : fst (migrate rdp_header move_exe_def) = false)
    by (vm_compute; reflexivity).
  split; [exact H|].
  exact (proj2 (migrate_changed rdp_header move_exe_def) H).
Defined.

(** ** Spans of sections *)

Lemma lookup_setdefault_append name sp (d : gmap string (list Span)) name' :
  setdefault_append name sp d !! name'
  = if decide (name = name') then Some (default [] (d !! name) ++ [sp])
    else d !! name'.
Proof. unfold setdefault_append. apply lookup_insert. Qed.

Lemma close_span_ok fragments n i st :
  span_inv fragments n st →
  i ≤ Z.of_nat n → i < Z.of_nat (length fragments) ∨ i = 0 →
  ∀ name l, close_span i st !! name = Some l → Forall (span_ok fragments) l.
Proof.
  intros (Hstart & Hbody & Hspans) Hi Hlen name l. unfold close_span.
  destruct (Z.ltb_spec (start st) (i - 1)) as [Hlt|_]; [|apply Hspans].
  rewrite lookup_setdefault_append. case_decide as Hname; [|apply Hspans].
  intros [= <-]. apply Forall_app. split.
  - destruct (section_spans st !! span_section st) as [l|] eqn:E; simpl.
    + exact (Hspans _ _ E).
    + constructor.
  - constructor; [|constructor]. unfold span_ok; simpl.
    split; [lia|]. split; [lia|]. intros j f Hj. apply Hbody. lia.
Qed.

Lemma spans_loop_inv fragments : ∀ rest n st,
  drop n fragments = rest → (n ≤ length fragments)%nat →
  span_inv fragments n st →
  span_inv fragments (length fragments)
    (spans_loop (Z.of_nat n) rest st).
Proof.
  induction rest as [|f rest IH]; intros n st Hdrop Hn Hinv; simpl.
  - apply drop_nil_inv in Hdrop. assert (n = length fragments) as <- by lia.
    exact Hinv.
  - assert (Hf : fragments !! n = Some f).
    { rewrite <- (Nat.add_0_r n), <- lookup_drop, Hdrop. reflexivity. }
    pose proof (lookup_lt_Some _ _ _ Hf) as Hlt.
    replace (Z.of_nat n + 1) with (Z.of_nat (S n)) by lia.
    apply IH; [|lia|].
    { rewrite (drop_S _ _ _ Hf) in Hdrop. congruence. }
    destruct Hinv as (Hstart & Hbody & Hspans).
    destruct (decide (kind f = Section_)) as [Hk|Hk].
    + rewrite Hk. split; [simpl; lia|]. split; [simpl; intros; lia|].
      simpl. apply (close_span_ok fragments n); [easy|lia|lia].
    + assert (Hsame : match kind f with
                      | Section_ =>
                          mkSpanState (Z.of_nat n) (value1 f)
                            (close_span (Z.of_nat n) st)
                      | _ => st
                      end = st) by (destruct (kind f); congruence).
      rewrite Hsame. split; [lia|]. split; [|exact Hspans].
      intros j g Hj Hg. destruct (decide (j = Z.of_nat n)) as [->|Hne].
      * unfold getitem in Hg. rewrite Nat2Z.id in Hg. congruence.
      * apply (Hbody j g); [lia|exact Hg].
Qed.

(** Every span of the index is well formed. *)
Lemma spans_ok fragments name l :
  fragments_to_spans_of_sections fragments !! name = Some l →
  Forall (span_ok fragments) l.
Proof.
  unfold fragments_to_spans_of_sections.
  assert (Hinv : span_inv fragments (length fragments)
    (spans_loop 0 fragments (mkSpanState 0 "" ∅))).
  { apply (spans_loop_inv fragments fragments 0); [reflexivity|lia|].
    split; [simpl; lia|]. split; [simpl; intros; lia|].
    simpl. intros n l'. now rewrite lookup_empty. }
  apply (close_span_ok fragments (length fragments)); [exact Hinv| |];
    unfold last_index; destruct fragments; simpl length; lia.
Qed.

(** No span holds either of the last two indices of the sequence. *)
Lemma last_two_uncovered fragments j :
  Z.of_nat (length fragments) - 2 ≤ j →
  ¬ covered (fragments_to_spans_of_sections fragments) j.
Proof.
  intros Hj (name & l & sp & Hl & Hsp & Hin).
  pose proof (spans_ok _ _ _ Hl) as Hall. rewrite Forall_forall in Hall.
  destruct (Hall _ Hsp) as (_ & Hlen & _). unfold in_span in Hin. lia.
Qed.

(** A Section fragment with a Section fragment next to it, or with nothing
    after it, lies in no span. *)
Lemma header_not_in_span fragments h f sp :
  span_ok fragments sp →
  fragments !! h = Some f → kind f = Section_ →
  (S h = length fragments ∨
   ∃ g, fragments !! S h = Some g ∧ kind g = Section_) →
  ¬ in_span (Z.of_nat h) sp.
Proof.
  intros (Hab & Hlen & Hbody) Hf Hk Hnext [Hlo Hhi].
  destruct (decide (fst sp = Z.of_nat h)) as [Heq|Hne].
  - destruct Hnext as [Hend|(g & Hg & Hgk)]; [lia|].
    apply (Hbody (Z.of_nat (S h)) g); [lia| |exact Hgk].
    unfold getitem. now rewrite Nat2Z.id.
  - apply (Hbody (Z.of_nat h) f); [lia| |exact Hk].
    unfold getitem. now rewrite Nat2Z.id.
Qed.

(** ** Registrations *)

Lemma elem_of_flat_map {A B} (f : A → list B) (l : list A) (y : B) :
  y ∈ flat_map f l ↔ ∃ x, x ∈ l ∧ y ∈ f x.
Proof.
  rewrite list_elem_of_In, in_flat_map. now setoid_rewrite list_elem_of_In.
Qed.

Lemma elem_of_map {A B} (f : A → B) (l : list A) (y : B) :
  y ∈ map f l ↔ ∃ x, y = f x ∧ x ∈ l.
Proof.
  rewrite list_elem_of_In, in_map_iff. setoid_rewrite list_elem_of_In.
  split; intros (x & Hx & Hy); exists x; easy.
Qed.

Lemma elem_of_iter_from_spans (i : Z) (l : list Span) :
  i ∈ iter_from_spans l ↔ ∃ sp, sp ∈ l ∧ in_span i sp.
Proof.
  unfold iter_from_spans, in_span. rewrite elem_of_flat_map.
  split; intros (sp & Hsp & Hi); exists sp; split; try easy.
  - apply elem_of_seqZ in Hi. lia.
  - apply elem_of_seqZ. lia.
Qed.

Lemma elem_of_spans_of spans name sp :
  sp ∈ spans_of spans name ↔ ∃ l, spans !! name = Some l ∧ sp ∈ l.
Proof.
  unfold spans_of. destruct (spans !! name) as [l|]; simpl.
  - split; [eauto|]. now intros (l' & [= <-] & H).
  - split; [intros H; inversion H|]. now intros (l' & [=] & _).
Qed.

Lemma iter_covered spans name i :
  i ∈ iter_from_spans (spans_of spans name) → covered spans i.
Proof.
  rewrite elem_of_iter_from_spans. intros (sp & Hsp & Hi).
  apply elem_of_spans_of in Hsp as (l & Hl & Hsp). now exists name, l, sp.
Qed.

Lemma elem_of_iter_key_fragment fragments spans name k key i f :
  (i, f) ∈ iter_key_fragment fragments spans name k key ↔
  i ∈ iter_from_spans (spans_of spans name) ∧
  getitem fragments i = Some f ∧ kind f = KeyValue ∧ value1 f = key.
Proof.
  unfold iter_key_fragment. rewrite list_elem_of_omap. split.
  - intros (j & Hj & Hsome).
    destruct (getitem fragments j) as [g|] eqn:Hg; [|discriminate].
    destruct (negb (bool_decide (kind g = KeyValue))
              || negb (String.eqb key (value1 g))) eqn:E; [discriminate|].
    injection Hsome as <- <-. apply orb_false_elim in E as [E1 E2].
    apply negb_false_iff in E1, E2. apply bool_decide_eq_true in E1.
    apply String.eqb_eq in E2. easy.
  - intros (Hi & Hf & Hk & Hv). exists i. split; [exact Hi|].
    rewrite Hf, Hk, <- Hv, String.eqb_refl. reflexivity.
Qed.

(** Every registration is made at an index that a span holds. *)
Lemma registration_covered fragments spans a r :
  (∀ name l, spans !! name = Some l → Forall (span_ok fragments) l) →
  r ∈ registrations fragments spans a → covered spans (fst r).
Proof.
  intros Hok. unfold registrations. rewrite !elem_of_app.
  intros [H|[H|[H|H]]].
  - apply elem_of_flat_map in H as ([[[s k] nk] nv] & _ & H).
    apply elem_of_map in H as ([i f] & -> & H).
    apply elem_of_iter_key_fragment in H as (H & _). exact (iter_covered _ _ _ H).
  - apply elem_of_flat_map in H as (s & _ & H).
    apply list_elem_of_omap in H as (i & Hi & H).
    destruct (getitem fragments i) as [f|]; [|discriminate].
    destruct (kind f); try discriminate; injection H as <-;
      exact (iter_covered _ _ _ Hi).
  - apply elem_of_flat_map in H as (t & _ & H).
    apply elem_of_map in H as ([i f] & -> & H).
    apply elem_of_iter_key_fragment in H as (H & _). exact (iter_covered _ _ _ H).
  - apply elem_of_flat_map in H as ([old new] & _ & H).
    apply list_elem_of_omap in H as (sp & Hsp & H).
    destruct (getitem fragments (fst sp)) as [f|]; [|discriminate].
    injection H as <-. simpl.
    apply elem_of_spans_of in Hsp as (l & Hl & Hsp).
    exists old, l, sp. split; [exact Hl|]. split; [exact Hsp|].
    pose proof (Hok _ _ Hl) as Hall. rewrite Forall_forall in Hall.
    destruct (Hall _ Hsp) as (Hab & _). unfold in_span. lia.
Qed.

Lemma covered_in_range fragments spans i :
  (∀ name l, spans !! name = Some l → Forall (span_ok fragments) l) →
  covered spans i → 0 ≤ i < Z.of_nat (length fragments).
Proof.
  intros Hok (name & l & sp & Hl & Hsp & Hi).
  pose proof (Hok _ _ Hl) as Hall. rewrite Forall_forall in Hall.
  destruct (Hall _ Hsp) as (Hab & Hlen & _). unfold in_span in Hi. lia.
Qed.

Lemma foldl_register_lookup regs : ∀ (d : gmap Z (list ConfigurationFragment)) i,
  foldl register d regs !! i
  = match last_registration i regs with
    | Some r => Some r
    | None => d !! i
    end.
Proof.
  unfold last_registration.
  induction regs as [|r regs IH]; intros d i; simpl; [reflexivity|].
  rewrite IH, filter_cons. unfold register.
  destruct (decide (fst r = i)) as [<-|Hne].
  - rewrite last_cons, lookup_insert_eq.
    now destruct (last (filter (λ r0, fst r0 = fst r) regs)).
  - now rewrite lookup_insert_ne.
Qed.

Lemma last_registration_elem i regs r :
  last_registration i regs = Some r → (i, r) ∈ regs.
Proof.
  unfold last_registration.
  destruct (last (filter (λ r0, fst r0 = i) regs)) as [[j r']|] eqn:E;
    [|discriminate].
  intros [= <-]. apply last_Some_elem_of, list_elem_of_filter in E as [Hj E].
  simpl in Hj. now subst.
Qed.

Lemma last_registration_none i regs :
  last_registration i regs = None ↔ ∀ r, (i, r) ∉ regs.
Proof.
  unfold last_registration. rewrite fmap_None, last_None. split.
  - intros Hnil r Hr.
    assert (H : (i, r) ∈ filter (λ r0, fst r0 = i) regs)
      by now apply list_elem_of_filter.
    rewrite Hnil in H. inversion H.
  - intros Hno. destruct (filter (λ r0, fst r0 = i) regs) as [|[j r] l] eqn:E;
      [reflexivity|].
    assert (H : (j, r) ∈ filter (λ r0, fst r0 = i) regs)
      by (rewrite E; left).
    apply list_elem_of_filter in H as [Hj H]. simpl in Hj. subst.
    now apply Hno in H.
Qed.

(** ** C6 *)




(** The indices that the loops of [migrate] take from the spans are indices
    of the sequence: [fragments[i]] does not raise IndexError there. *)
Lemma getitem_in_spans fragments name i :
  i ∈ iter_from_spans
        (spans_of (fragments_to_spans_of_sections fragments) name) →
  is_Some (getitem fragments i).
Proof.
  intros Hi. apply iter_covered in Hi.
  apply (covered_in_range fragments) in Hi; [|apply spans_ok].
  unfold getitem. apply lookup_lt_is_Some. lia.
Qed.

(** ** The rebuilding loop *)

Lemma rebuild_acc reinject : ∀ fragments i result added,
  rebuild reinject i fragments result added
  = (result ++ fst (rebuild reinject i fragments [] added),
     snd (rebuild reinject i fragments [] added)).
Proof.
  induction fragments as [|f fragments IH]; intros i result added; simpl.
  - now rewrite app_nil_r.
  - destruct (rebuild_step reinject i f added) as [out added'].
    rewrite (IH (i + 1) (result ++ out)), (IH (i + 1) ([] ++ out)). simpl.
    now rewrite app_assoc.
Qed.

Lemma rebuild_app reinject : ∀ l1 l2 i result added,
  rebuild reinject i (l1 ++ l2) result added
  = rebuild reinject (i + Z.of_nat (length l1)) l2
      (fst (rebuild reinject i l1 result added))
      (snd (rebuild reinject i l1 result added)).
Proof.
  induction l1 as [|f l1 IH]; intros l2 i result added; simpl.
  - now rewrite Z.add_0_r.
  - destruct (rebuild_step reinject i f added) as [out added'].
    rewrite IH. f_equal. lia.
Qed.

Lemma add_new_sections_prefix added : ∀ result,
  ∃ tail, add_new_sections result added = result ++ tail.
Proof.
  unfold add_new_sections.
  induction added as [|[s keys] added IH]; intros result; simpl.
  - exists []. now rewrite app_nil_r.
  - destruct (nonempty keys).
    + destruct (IH ((result ++ [newline_fragment; section_fragment s]) ++ keys))
        as [tail ->].
      eexists. now rewrite <- !app_assoc.
    + apply IH.
Qed.

Lemma rebuild_step_kept reinject i f added :
  reinject !! i = None →
  ∃ keys, fst (rebuild_step reinject i f added) = f :: keys.
Proof.
  intros Hnone. unfold rebuild_step. rewrite Hnone. simpl.
  destruct (kind f); try (exists []; reflexivity).
  destruct (nonempty_str (value1 f)); [|exists []; reflexivity].
  destruct (od_get (value1 f) added) as [keys|]; [|exists []; reflexivity].
  destruct (nonempty keys); [exists keys|exists []]; reflexivity.
Qed.

(** ** C10 *)

(** C10.  A Section fragment that has a Section fragment right after it, or
    that ends the sequence, lies in no span of the section index; no
    replacement is registered for it, whatever the migration description
    is, and [migrate] writes it as it is after what it has written for the
    fragments before it. *)
Theorem empty_section_untouched (fragments : list ConfigurationFragment)
    (migration_def : MigrationDescType) (h : nat)
    (f : ConfigurationFragment) :
  fragments !! h = Some f →
  kind f = Section_ →
  (S h = length fragments ∨
   ∃ g, fragments !! S h = Some g ∧ kind g = Section_) →
  let spans := fragments_to_spans_of_sections fragments in
  ¬ covered spans (Z.of_nat h) ∧
  reinject_fragments fragments spans
    (migration_def_to_actions fragments migration_def) !! Z.of_nat h = None ∧
  ∃ post, snd (migrate fragments migration_def)
          = migrate_upto fragments migration_def h ++ f :: post.
Proof.
  intros Hf Hk Hnext spans.
  assert (Hcov : ¬ covered spans (Z.of_nat h)).
  { intros (name & l & sp & Hl & Hsp & Hin).
    pose proof (spans_ok _ _ _ Hl) as Hall. rewrite Forall_forall in Hall.
    exact (header_not_in_span fragments h f sp (Hall _ Hsp) Hf Hk Hnext Hin). }
  assert (Hnone : reinject_fragments fragments spans
    (migration_def_to_actions fragments migration_def) !! Z.of_nat h = None).
  { unfold reinject_fragments. rewrite foldl_register_lookup, lookup_empty.
    destruct (last_registration _ _) as [r|] eqn:E; [|reflexivity].
    exfalso. apply Hcov. apply last_registration_elem in E.
    apply (registration_covered fragments spans) in E; [exact E|].
    apply spans_ok. }
  split; [exact Hcov|]. split; [exact Hnone|].
  unfold migrate, migrate_upto.
  destruct (no_actions (migration_def_to_actions fragments migration_def)).
  - exists (drop (S h) fragments). simpl. symmetry.
    now apply take_drop_middle.
  - fold spans.
    set (reinject := reinject_fragments fragments spans
      (migration_def_to_actions fragments migration_def)) in *.
    set (added := collect_added_keys fragments spans
      (moved_keys (migration_def_to_actions fragments migration_def))).
    assert (Hlen : 0 + Z.of_nat (length (take h fragments)) = Z.of_nat h).
    { rewrite length_take. apply lookup_lt_Some in Hf. lia. }
    pose proof (take_drop_middle fragments h f Hf) as Hsplit.
    remember (take h fragments) as pre eqn:Hpre.
    remember (drop (S h) fragments) as suf eqn:Hsuf.
    clearbody reinject added. rewrite <- Hsplit. rewrite rebuild_app.
    destruct (rebuild reinject 0 pre [] added) as [res1 added1] eqn:E1.
    simpl fst; simpl snd. rewrite Hlen. simpl rebuild.
    destruct (rebuild_step_kept reinject (Z.of_nat h) f added1 Hnone)
      as [keys Hkeys].
    destruct (rebuild_step reinject (Z.of_nat h) f added1) as [out added2].
    simpl in Hkeys. subst out. rewrite rebuild_acc.
    destruct (rebuild reinject (Z.of_nat h + 1) suf [] added2)
      as [res3 added3]. simpl.
    destruct (add_new_sections_prefix added3
      ((res1 ++ f :: keys) ++ res3)) as [tail ->].
    exists (keys ++ res3 ++ tail). now rewrite <- !app_assoc.
Qed.

Lemma empty_section_untouched_witness :
  two_headers_file !! 0%nat = Some (Fragment1 "[a]" Section_ "a") ∧
  snd (migrate two_headers_file (remove_def "a")) !! 0%nat
    = Some (Fragment1 "[a]" Section_ "a").
Proof.
  assert (H0 : two_headers_file !! 0%nat = Some (Fragment1 "[a]" Section_ "a"))
    by reflexivity.
  split; [exact H0|].
  destruct (empty_section_untouched two_headers_file (remove_def "a") 0
              (Fragment1 "[a]" Section_ "a") H0 eq_refl
              (or_intror (ex_intro _ (Fragment1 "[b]" Section_ "b")
                            (conj eq_refl eq_refl))))
    as (_ & _ & post & ->).
  reflexivity.
Defined.

(** ** Removal of a section *)



Lemma elem_of_register_removed_sections fragments spans l i r :
  (i, r) ∈ register_removed_sections fragments spans l ↔
  ∃ name f, name ∈ l ∧ i ∈ iter_from_spans (spans_of spans name) ∧
            getitem fragments i = Some f ∧ removable f = true ∧
            r = [commented f].
Proof.
  unfold register_removed_sections. rewrite elem_of_flat_map. split.
  - intros (name & Hname & H). apply list_elem_of_omap in H as (j & Hj & H).
    destruct (getitem fragments j) as [f|] eqn:Hf; [|discriminate].
    exists name, f. unfold removable.
    destruct (kind f); try discriminate; injection H as <- <-; easy.
  - intros (name & f & Hname & Hi & Hf & Hrem & ->). exists name.
    split; [exact Hname|]. apply list_elem_of_omap. exists i.
    split; [exact Hi|]. rewrite Hf. unfold removable in Hrem.
    destruct (kind f); try discriminate; reflexivity.
Qed.



Lemma lookup_mapi_from {A B} (g : Z → A → B) : ∀ l i n,
  mapi_from g i l !! n = g (i + Z.of_nat n) <$> l !! n.
Proof.
  induction l as [|x l IH]; intros i n; simpl; [now destruct n|].
  destruct n as [|n]; simpl.
  - now rewrite Z.add_0_r.
  - rewrite IH. do 2 f_equal. lia.
Qed.

Lemma length_mapi_from {A B} (g : Z → A → B) : ∀ l i,
  length (mapi_from g i l) = length l.
Proof. induction l as [|x l IH]; intros i; simpl; [|rewrite IH]; easy. Qed.




(** ** The last lines of a file *)

(** C2.  On the file of the two lines [[rdp]] and
    [session_probe_exe_or_file=foo.exe] the index holds for [rdp] the one
    span (0, 2), which [iter_from_spans] walks as 0, 1: the span does not
    end at the end of the sequence, and the key line, at index 2 of 4, is
    in no span. *)
Theorem last_line_outside_span :
  let spans := fragments_to_spans_of_sections rdp_file in
  parse_configuration (lines ["[rdp]"; "session_probe_exe_or_file=foo.exe"])
    = rdp_file ∧
  length rdp_file = 4%nat ∧
  rdp_file !! 2%nat = Some exe_line ∧
  spans = {["rdp" := [(0, 2)]]} ∧
  iter_from_spans (spans_of spans "rdp") = [0; 1] ∧
  ¬ covered spans 2.
Proof.
  intros spans.
  assert (Hspans : spans = {["rdp" := [(0, 2)]]}) by (vm_compute; reflexivity).
  split; [vm_compute; reflexivity|]. split; [reflexivity|].
  split; [reflexivity|]. split; [exact Hspans|].
  split; [vm_compute; reflexivity|].
  intros (name & l & sp & Hl & Hsp & Hin). rewrite Hspans in Hl.
  apply lookup_singleton_Some in Hl as [_ <-].
  apply list_elem_of_singleton in Hsp as ->. unfold in_span in Hin.
  simpl in Hin. lia.
Qed.

(** Before a header the span stops one fragment short of the header, and
    at the end of the file two fragments short of the end. *)
Example spans_two_sections :
  fragments_to_spans_of_sections two_sections_file
  = {["a" := [(0, 4)]; "b" := [(5, 7)]]}.
Proof. vm_compute. reflexivity. Qed.

(** C4.  On the same file the rule that moves the key to
    [session_probe] is turned into a move-key action and changed = true is
    returned, but the key line is not commented out and no [session_probe]
    section is written: the fragments come back as they were. *)
Theorem move_key_last_line :
  moved_keys (migration_def_to_actions rdp_file move_exe_def)
    = [("rdp", "session_probe_exe_or_file", "session_probe", "exe_or_file",
        "foo.exe")] ∧
  migrate rdp_file move_exe_def = (true, rdp_file).
Proof. split; vm_compute; reflexivity. Qed.

(** With an empty line after the key line the key is moved. *)
Example move_key_blank_line :
  migrate rdp_file_blank move_exe_def
  = (true,
     [Fragment1 "[rdp]" Section_ "rdp"; newline_fragment;
      Fragment0 "#session_probe_exe_or_file=foo.exe" Comment;
      newline_fragment; newline_fragment;
      newline_fragment; section_fragment "session_probe";
      newline_fragment; key_value_fragment "exe_or_file" "foo.exe";
      newline_fragment]).
Proof. vm_compute. reflexivity. Qed.

(** The rename of [session_timeout] in the catalog, on a file that ends
    with an empty line. *)
Example rename_key_globals :
  (let fragments :=
     parse_configuration (lines ["[globals]"; "session_timeout=30"; ""]) in
   match migration_defs with
   | (_, def) :: _ => str_join (map text (snd (migrate fragments def)))
   | [] => ""
   end)
  = lines ["[globals]"; "#session_timeout=30";
           "base_inactivity_timeout=30"; ""].
Proof. vm_compute. reflexivity. Qed.

(** * Further properties *)

(** ** The order of versions *)

(** X1.  [<] on versions is a strict total order of their parts and [<=] is
    its reflexive closure: [<] is irreflexive and transitive, [a <= b] is
    the negation of [b < a], two versions are ordered one way or the other
    unless their parts are equal, and two versions that are [<=] each other
    are the same. *)
Theorem version_order (a b c : RedemptionVersion) :
  __lt__ a a = false ∧
  (__lt__ a b = true → __lt__ b c = true → __lt__ a c = true) ∧
  __le__ a b = negb (__lt__ b a) ∧
  (__lt__ a b = true ∨ a = b ∨ __lt__ b a = true) ∧
  (__le__ a b = true → __le__ b a = true → a = b) ∧
  (__le__ a b = true → __le__ b c = true → __le__ a c = true).
Proof.
  assert (Heq : tuple_compare (__part a) (__part b) = Eq → a = b).
  { intros H. apply (law_eq _ tuple_compare_lawful) in H.
    destruct a, b. unfold __part in H. simpl in H. congruence. }
  split; [apply lt_irrefl|]. split.
  { intros Hab Hbc. apply (lt_le_trans a b c Hab).
    rewrite le_not_lt. now rewrite (lt_asym _ _ Hbc). }
  split; [apply le_not_lt|]. split.
  { unfold __lt__, tuple_lt.
    rewrite (law_anti _ tuple_compare_lawful (__part b) (__part a)).
    destruct (tuple_compare (__part a) (__part b)) eqn:E; simpl; auto. }
  split; [|apply le_trans].
  rewrite !le_not_lt, !negb_true_iff. unfold __lt__, tuple_lt.
  rewrite (law_anti _ tuple_compare_lawful (__part b) (__part a)).
  destruct (tuple_compare (__part a) (__part b)) eqn:E; simpl;
    try discriminate. intros _ _. now apply Heq.
Qed.

Lemma version_order_witness :
  __lt__ (mkVersion 9 1 39 "") (mkVersion 9 1 71 "") = true ∧
  __lt__ (mkVersion 9 1 71 "") (mkVersion 9 1 76 "a") = true ∧
  __lt__ (mkVersion 9 1 39 "") (mkVersion 9 1 76 "a") = true.
Proof.
  assert (H1 : __lt__ (mkVersion 9 1 39 "") (mkVersion 9 1 71 "") = true)
    by reflexivity.
  assert (H2 : __lt__ (mkVersion 9 1 71 "") (mkVersion 9 1 76 "a") = true)
    by reflexivity.
  split; [exact H1|]. split; [exact H2|].
  exact (proj1 (proj2 (version_order (mkVersion 9 1 39 "")
    (mkVersion 9 1 71 "") (mkVersion 9 1 76 "a"))) H1 H2).
Defined.

(** ** Rules without a target *)

Lemma no_target_actions migration_def fragments :
  no_target migration_def fragments →
  ∀ l st, (∀ f, f ∈ l → f ∈ fragments) →
    no_actions st = true →
    (∀ desc g, migration_key_desc st = Some desc → g ∈ fragments →
               kind g = KeyValue → desc !! value1 g = None) →
    no_actions (foldl (actions_step migration_def) st l) = true.
Proof.
  intros Hno. induction l as [|f l IH]; intros st Hsub Hact Hdesc;
    [exact Hact|].
  cbn [foldl]. assert (Hf : f ∈ fragments) by (apply Hsub; left).
  assert (Hsub' : ∀ x, x ∈ l → x ∈ fragments)
    by (intros x Hx; apply Hsub; now right).
  unfold actions_step. destruct (kind f) eqn:Hk; try (now apply IH).
  - destruct (Hno f Hf Hk) as [Hnone|(desc & Hsome & Hkeys)];
      unfold on_section; rewrite ?Hnone, ?Hsome; apply IH; try easy.
    simpl. intros desc' g [= <-]. apply Hkeys.
  - unfold on_key_value.
    destruct (truthy_desc (migration_key_desc st)) as [desc|] eqn:Ht;
      [|now apply IH].
    assert (Hd : migration_key_desc st = Some desc).
    { unfold truthy_desc in Ht. destruct (migration_key_desc st) as [m|];
        [|discriminate]. destruct (decide (m = ∅)); congruence. }
    rewrite (Hdesc desc f Hd Hf Hk). now apply IH.
Qed.

(** X2.  A description none of whose rules has a target in the file, no
    section of the file having a rule or only key rules for keys that the
    file does not have, changes nothing: [migrate] returns changed = false
    and the fragments it was given. *)
Theorem migrate_no_target (fragments : list ConfigurationFragment)
    (migration_def : MigrationDescType) :
  no_target migration_def fragments →
  migrate fragments migration_def = (false, fragments).
Proof.
  intros Hno. unfold migrate, migration_def_to_actions.
  rewrite (no_target_actions migration_def fragments Hno); try easy.
Qed.

Lemma migrate_no_target_witness :
  no_target move_exe_def other_file ∧
  migrate other_file move_exe_def = (false, other_file).
Proof.
  assert (H : no_target move_exe_def other_file).
  { intros f Hf Hk. left.
    apply list_elem_of_In in Hf. simpl in Hf.
    destruct Hf as [<-|[<-|[<-|[<-|[<-|[]]]]]]; try discriminate.
    vm_compute. reflexivity. }
  split; [exact H|]. exact (migrate_no_target other_file move_exe_def H).
Defined.

(** ** The driver *)

Lemma migrate_false_same fragments migration_def :
  fst (migrate fragments migration_def) = false →
  snd (migrate fragments migration_def) = fragments.
Proof.
  unfold migrate. destruct (no_actions _); [reflexivity|].
  now destruct (rebuild _ _ _ _ _).
Qed.

Lemma migrate_fragments_fold (l : list MigrationType) : ∀ is_changed fragments,
  fst (foldl (λ '(is_changed, fragments) '(_, desc),
         let '(is_updated, fragments) := migrate fragments desc in
         (is_changed || is_updated, fragments))
       (is_changed, fragments) l) = false →
  is_changed = false ∧
  snd (foldl (λ '(is_changed, fragments) '(_, desc),
         let '(is_updated, fragments) := migrate fragments desc in
         (is_changed || is_updated, fragments))
       (is_changed, fragments) l) = fragments.
Proof.
  induction l as [|[v desc] l IH]; intros c fs; simpl; [easy|].
  pose proof (migrate_false_same fs desc) as Hsame.
  destruct (migrate fs desc) as [u fs'] eqn:E. simpl in Hsame.
  intros H. apply IH in H as [Hc ->]. apply orb_false_elim in Hc as [-> ->].
  split; [reflexivity|]. now apply Hsame.
Qed.

(** X3.  The loop of [migrate_file] reports no change only when the
    fragments are the ones read from the file, whatever the catalog and the
    version are; and it reports no change when the version is at or above
    every version of the catalog. *)
Theorem migrate_fragments_unchanged (catalog : list MigrationType)
    (version : RedemptionVersion) (fragments : list ConfigurationFragment) :
  (fst (migrate_fragments catalog version fragments) = false →
   snd (migrate_fragments catalog version fragments) = fragments) ∧
  (forallb (λ t, version_ge version (fst t)) catalog = true →
   migrate_fragments catalog version fragments = (false, fragments)).
Proof.
  split.
  - unfold migrate_fragments. intros H.
    now apply migrate_fragments_fold in H as [_ H].
  - intros Hall. unfold migrate_fragments.
    now rewrite (migration_filter_stale _ _ Hall).
Qed.

Lemma migrate_fragments_unchanged_witness :
  fst (migrate_fragments migration_defs (version_of "9.1.50") other_file)
    = false ∧
  snd (migrate_fragments migration_defs (version_of "9.1.50") other_file)
    = other_file.
Proof.
  assert (H : fst (migrate_fragments migration_defs (version_of "9.1.50")
                     other_file) = false) by (vm_compute; reflexivity).
  split; [exact H|].
  exact (proj1 (migrate_fragments_unchanged migration_defs
                  (version_of "9.1.50") other_file) H).
Defined.

(** ** The structure of the section index *)

Lemma recorded_setdefault_append name s (d : gmap string (list Span)) name' sp :
  recorded (setdefault_append name s d) name' sp ↔
  recorded d name' sp ∨ (name' = name ∧ sp = s).
Proof.
  unfold recorded, spans_of. rewrite lookup_setdefault_append.
  case_decide as Hn.
  - subst name'. simpl. rewrite elem_of_app, list_elem_of_singleton. tauto.
  - split; [auto|]. intros [H|[H _]]; [exact H|congruence].
Qed.

Lemma recorded_close_span i st name sp :
  recorded (close_span i st) name sp ↔
  recorded (section_spans st) name sp ∨
  (start st < i - 1 ∧ name = span_section st ∧ sp = (start st, i - 1)).
Proof.
  unfold close_span. destruct (Z.ltb_spec (start st) (i - 1)) as [Hlt|Hge].
  - rewrite recorded_setdefault_append. tauto.
  - split; [auto|]. intros [H|[H _]]; [exact H|lia].
Qed.

Lemma close_span_names fragments n i st :
  span_names_inv fragments n st →
  i = Z.of_nat n ∨ i < Z.of_nat n →
  (∀ name sp, recorded (close_span i st) name sp →
     span_start fragments name (fst sp) ∧ fst sp < snd sp ∧ snd sp < i ∨
     recorded (section_spans st) name sp) ∧
  (∀ name sp, recorded (close_span i st) name sp →
     span_start fragments name (fst sp) ∧ fst sp < snd sp) ∧
  one_span_each (close_span i st).
Proof.
  intros (Hs & Hname & Hrec & Hone) Hi.
  assert (Hnew : start st < i - 1 →
    span_start fragments (span_section st) (start st)).
  { intros Hlt. destruct Hname as [Hhdr|(H0 & Hn & Hnone)]; [now left|].
    right. split; [exact H0|]. split; [exact Hn|].
    intros f Hf. apply (Hnone 0 f); [lia|exact Hf]. }
  split; [|split].
  - intros name sp H. apply recorded_close_span in H as [H|(Hlt & -> & ->)].
    + now right.
    + left. simpl. split; [now apply Hnew|lia].
  - intros name sp H. apply recorded_close_span in H as [H|(Hlt & -> & ->)].
    + destruct (Hrec _ _ H) as (H1 & H2 & _). easy.
    + simpl. split; [now apply Hnew|lia].
  - intros j n1 s1 n2 s2 H1 H2 Hj1 Hj2.
    apply recorded_close_span in H1 as [H1|(Hlt1 & -> & ->)];
      apply recorded_close_span in H2 as [H2|(Hlt2 & -> & ->)].
    + exact (Hone j _ _ _ _ H1 H2 Hj1 Hj2).
    + destruct (Hrec _ _ H1) as (_ & _ & Hend). unfold in_span in *.
      simpl in *. lia.
    + destruct (Hrec _ _ H2) as (_ & _ & Hend). unfold in_span in *.
      simpl in *. lia.
    + easy.
Qed.

Lemma spans_loop_names fragments : ∀ rest n st,
  drop n fragments = rest → (n ≤ length fragments)%nat →
  span_names_inv fragments n st →
  span_names_inv fragments (length fragments)
    (spans_loop (Z.of_nat n) rest st).
Proof.
  induction rest as [|f rest IH]; intros n st Hdrop Hn Hinv; simpl.
  - apply drop_nil_inv in Hdrop. assert (n = length fragments) as <- by lia.
    exact Hinv.
  - assert (Hf : fragments !! n = Some f).
    { rewrite <- (Nat.add_0_r n), <- lookup_drop, Hdrop. reflexivity. }
    assert (Hget : getitem fragments (Z.of_nat n) = Some f)
      by (unfold getitem; now rewrite Nat2Z.id).
    pose proof (lookup_lt_Some _ _ _ Hf) as Hlt.
    replace (Z.of_nat n + 1) with (Z.of_nat (S n)) by lia.
    apply IH; [|lia|].
    { rewrite (drop_S _ _ _ Hf) in Hdrop. congruence. }
    destruct (decide (kind f = Section_)) as [Hk|Hk].
    + rewrite Hk.
      destruct (close_span_names fragments n (Z.of_nat n) st Hinv)
        as (Hcl & _ & Hone); [now left|].
      destruct Hinv as (Hs & Hname & Hrec & _).
      split; [simpl; lia|]. split; [left; now exists f|].
      split; [|exact Hone]. simpl. intros name sp H.
      destruct (Hcl _ _ H) as [(H1 & H2 & H3)|Hold]; [easy|].
      destruct (Hrec _ _ Hold) as (H1 & H2 & H3). split; [exact H1|]. lia.
    + assert (Hsame : match kind f with
                      | Section_ =>
                          mkSpanState (Z.of_nat n) (value1 f)
                            (close_span (Z.of_nat n) st)
                      | _ => st
                      end = st) by (destruct (kind f); congruence).
      rewrite Hsame. destruct Hinv as (Hs & Hname & Hrec & Hone).
      split; [lia|]. split; [|split; [exact Hrec|exact Hone]].
      destruct Hname as [Hhdr|(H0 & Hnm & Hnone)]; [now left|].
      right. split; [exact H0|]. split; [exact Hnm|].
      intros j g Hj Hg. destruct (decide (j = Z.of_nat n)) as [->|Hne].
      * congruence.
      * apply (Hnone j g); [lia|exact Hg].
Qed.

(** The names and the places of the spans of the index. *)
Lemma spans_names fragments :
  let spans := fragments_to_spans_of_sections fragments in
  (∀ name sp, recorded spans name sp →
     span_start fragments name (fst sp) ∧ fst sp < snd sp) ∧
  one_span_each spans.
Proof.
  intros spans.
  assert (Hinv : span_names_inv fragments (length fragments)
    (spans_loop 0 fragments (mkSpanState 0 "" ∅))).
  { apply (spans_loop_names fragments fragments 0); [reflexivity|lia|].
    split; [simpl; lia|]. split.
    { right. simpl. repeat split; intros; lia. }
    split.
    - intros n s H. unfold recorded, spans_of in H. simpl in H.
      rewrite lookup_empty in H. inversion H.
    - intros i n1 s1 n2 s2 H. unfold recorded, spans_of in H. simpl in H.
      rewrite lookup_empty in H. inversion H. }
  destruct (close_span_names fragments (length fragments)
              (last_index fragments) _ Hinv) as (_ & Hnames & Hone).
  { unfold last_index. destruct fragments; simpl length; lia. }
  split; [exact Hnames|exact Hone].
Qed.

(** X4.  Every span recorded in the section index is well placed: it is
    not empty and lies inside the sequence; its first index is a Section
    fragment of the name it is recorded for, or is 0 when it is recorded for
    the empty name and the sequence does not start with a Section fragment;
    no other Section fragment lies in it; and no index lies in two recorded
    spans. *)
Theorem spans_structure (fragments : list ConfigurationFragment)
    (name : string) (sp : Span) :
  let spans := fragments_to_spans_of_sections fragments in
  recorded spans name sp →
  0 ≤ fst sp < snd sp ∧ snd sp < Z.of_nat (length fragments) ∧
  span_start fragments name (fst sp) ∧
  (∀ j f, fst sp < j < snd sp → getitem fragments j = Some f →
          kind f ≠ Section_) ∧
  (∀ i name' sp', recorded spans name' sp' →
     in_span i sp → in_span i sp' → name' = name ∧ sp' = sp).
Proof.
  intros spans Hrec.
  destruct (spans_names fragments) as [Hnames Hone].
  fold spans in Hnames, Hone.
  destruct (Hnames _ _ Hrec) as [Hstart Hlt].
  assert (Hok : span_ok fragments sp).
  { unfold recorded in Hrec. apply elem_of_spans_of in Hrec as (l & Hl & Hsp).
    pose proof (spans_ok _ _ _ Hl) as Hall. rewrite Forall_forall in Hall.
    now apply Hall. }
  destruct Hok as (Hab & Hlen & Hbody).
  split; [exact Hab|]. split; [lia|]. split; [exact Hstart|]. split.
  - intros j f Hj. apply Hbody. lia.
  - intros i name' sp' Hrec' Hi Hi'.
    destruct (Hone i _ _ _ _ Hrec Hrec' Hi Hi') as [-> ->]. easy.
Qed.

Lemma spans_structure_witness :
  recorded (fragments_to_spans_of_sections two_sections_file) "a" (0, 4) ∧
  span_start two_sections_file "a" 0.
Proof.
  assert (H : recorded (fragments_to_spans_of_sections two_sections_file)
                "a" (0, 4)) by (vm_compute; left).
  split; [exact H|].
  exact (proj1 (proj2 (proj2 (spans_structure two_sections_file "a" (0, 4) H)))).
Defined.

(** X5.  The loops of [migrate] read [fragments[i]] only at indices of the
    sequence: every index that [iter_from_spans] yields for a name of the
    index, and every index at which a replacement is registered, is at
    least 0 and below the length, so no IndexError is raised. *)
Theorem migrate_indices_in_range (fragments : list ConfigurationFragment)
    (migration_def : MigrationDescType) :
  let spans := fragments_to_spans_of_sections fragments in
  let a := migration_def_to_actions fragments migration_def in
  (∀ name i, i ∈ iter_from_spans (spans_of spans name) →
     0 ≤ i < Z.of_nat (length fragments) ∧ is_Some (getitem fragments i)) ∧
  (∀ name, Forall (λ sp, is_Some (getitem fragments (fst sp)))
             (spans_of spans name)) ∧
  (∀ i, is_Some (reinject_fragments fragments spans a !! i) →
     0 ≤ i < Z.of_nat (length fragments)).
Proof.
  intros spans a. split; [|split].
  - intros name i Hi. split; [|now apply (getitem_in_spans _ name)].
    apply (covered_in_range fragments spans); [apply spans_ok|].
    exact (iter_covered _ _ _ Hi).
  - intros name. apply Forall_forall. intros sp Hsp.
    apply elem_of_spans_of in Hsp as (l & Hl & Hsp).
    pose proof (spans_ok _ _ _ Hl) as Hall. rewrite Forall_forall in Hall.
    destruct (Hall _ Hsp) as (Hab & Hlen & _).
    unfold getitem. apply lookup_lt_is_Some. lia.
  - intros i [r Hr]. unfold reinject_fragments in Hr.
    rewrite foldl_register_lookup, lookup_empty in Hr.
    destruct (last_registration i _) as [r'|] eqn:E; [|discriminate].
    apply last_registration_elem in E.
    apply (registration_covered fragments spans) in E; [|apply spans_ok].
    apply (covered_in_range fragments spans); [apply spans_ok|exact E].
Qed.

Lemma migrate_indices_in_range_witness :
  2 ∈ iter_from_spans
        (spans_of (fragments_to_spans_of_sections dup_file) "a") ∧
  0 ≤ 2 < Z.of_nat (length dup_file).
Proof.
  assert (H : 2 ∈ iter_from_spans
                (spans_of (fragments_to_spans_of_sections dup_file) "a")).
  { apply list_elem_of_In. vm_compute. auto. }
  split; [exact H|].
  exact (proj1 (proj1 (migrate_indices_in_range dup_file rename_k_def) "a" 2 H)).
Defined.

(** ** What the rewriter keeps *)

(** A replacement starts with the fragment it replaces, commented out, and
    is registered for a KeyValue or Section fragment or at the first index
    of a span of a renamed section. *)
Lemma registration_head fragments spans a i r :
  (i, r) ∈ registrations fragments spans a →
  ∃ f rest, getitem fragments i = Some f ∧ r = commented f :: rest ∧
    (removable f = true ∨
     ∃ old new sp, (old, new) ∈ renamed_sections a ∧
                   recorded spans old sp ∧ fst sp = i).
Proof.
  unfold registrations. rewrite !elem_of_app. intros [H|[H|[H|H]]].
  - apply elem_of_flat_map in H as ([[[s k] nk] nv] & _ & H).
    apply elem_of_map in H as ([j f] & [= -> ->] & H).
    apply elem_of_iter_key_fragment in H as (_ & Hf & Hk & _).
    exists f. eexists. split; [exact Hf|]. split; [reflexivity|].
    left. unfold removable. now rewrite Hk.
  - apply elem_of_register_removed_sections in H
      as (name & f & _ & _ & Hf & Hrem & ->).
    exists f, []. auto.
  - apply elem_of_flat_map in H as (t & _ & H).
    apply elem_of_map in H as ([j f] & [= -> ->] & H).
    apply elem_of_iter_key_fragment in H as (_ & Hf & Hk & _).
    exists f, []. split; [exact Hf|]. split; [reflexivity|].
    left. unfold removable. now rewrite Hk.
  - apply elem_of_flat_map in H as ([old new] & Hin & H).
    apply list_elem_of_omap in H as (sp & Hsp & H).
    destruct (getitem fragments (fst sp)) as [f|] eqn:Hf; [|discriminate].
    injection H as <- <-. exists f. eexists.
    split; [exact Hf|]. split; [reflexivity|]. right. now exists old, new, sp.
Qed.

Lemma reinject_head fragments spans a i r :
  reinject_fragments fragments spans a !! i = Some r →
  ∃ f rest, getitem fragments i = Some f ∧ r = commented f :: rest ∧
    (removable f = true ∨
     ∃ old new sp, (old, new) ∈ renamed_sections a ∧
                   recorded spans old sp ∧ fst sp = i).
Proof.
  unfold reinject_fragments. rewrite foldl_register_lookup, lookup_empty.
  destruct (last_registration i _) as [r'|] eqn:E; [|discriminate].
  intros [= <-]. apply last_registration_elem in E.
  exact (registration_head _ _ _ _ _ E).
Qed.

Lemma rebuild_step_head reinject i f added :
  (∀ r, reinject !! i = Some r → ∃ rest, r = commented f :: rest) →
  ∃ tail, fst (rebuild_step reinject i f added) = kept reinject i f :: tail.
Proof.
  intros Hhead. unfold rebuild_step, kept.
  assert (Hd : ∃ rest,
    default [f] (reinject !! i)
    = match reinject !! i with Some _ => commented f | None => f end :: rest).
  { destruct (reinject !! i) as [r|]; simpl; [|now exists []].
    destruct (Hhead r eq_refl) as [rest ->]. now exists rest. }
  destruct Hd as [rest ->].
  destruct (first_section _) as [s|]; [|now exists rest].
  destruct (nonempty_str s); [|now exists rest].
  destruct (od_get s added) as [keys|]; [|now exists rest].
  destruct (nonempty keys); [|now exists rest].
  exists (rest ++ keys). reflexivity.
Qed.

Lemma rebuild_sublist reinject : ∀ l i added,
  (∀ n f r, l !! n = Some f → reinject !! (i + Z.of_nat n) = Some r →
            ∃ rest, r = commented f :: rest) →
  mapi_from (kept reinject) i l
    `sublist_of` fst (rebuild reinject i l [] added).
Proof.
  induction l as [|f l IH]; intros i added Hhead; simpl; [reflexivity|].
  destruct (rebuild_step_head reinject i f added) as [tail Htail].
  { intros r Hr. apply (Hhead 0%nat f r eq_refl). now rewrite Z.add_0_r. }
  destruct (rebuild_step reinject i f added) as [out added'].
  simpl in Htail. subst out. rewrite rebuild_acc. simpl.
  apply sublist_skip, sublist_inserts_l, IH.
  intros n g r Hg Hr. apply (Hhead (S n) g r Hg).
  now replace (i + Z.of_nat (S n)) with (i + 1 + Z.of_nat n) by lia.
Qed.

Lemma no_actions_registrations fragments spans a :
  no_actions a = true → registrations fragments spans a = [].
Proof.
  unfold no_actions, registrations.
  destruct (renamed_sections a), (renamed_keys a), (moved_keys a),
    (removed_sections a), (removed_keys a); try discriminate. reflexivity.
Qed.

Lemma mapi_from_id {A} (g : Z → A → A) : ∀ l i,
  (∀ j x, g j x = x) → mapi_from g i l = l.
Proof.
  induction l as [|x l IH]; intros i Hg; simpl; [reflexivity|].
  now rewrite Hg, IH.
Qed.

Lemma migrate_sublist fragments migration_def :
  let spans := fragments_to_spans_of_sections fragments in
  let a := migration_def_to_actions fragments migration_def in
  mapi_from (kept (reinject_fragments fragments spans a)) 0 fragments
    `sublist_of` snd (migrate fragments migration_def).
Proof.
  intros spans a. unfold migrate. fold a.
  destruct (no_actions a) eqn:Hno.
  - simpl. unfold reinject_fragments.
    rewrite (no_actions_registrations _ _ _ Hno). simpl.
    rewrite mapi_from_id; [reflexivity|].
    intros j x. unfold kept. now rewrite lookup_empty.
  - fold spans.
    pose proof (rebuild_sublist (reinject_fragments fragments spans a)
      fragments 0
      (collect_added_keys fragments spans (moved_keys a))) as Hsub.
    destruct (rebuild _ 0 fragments [] _) as [res added]. simpl in *.
    destruct (add_new_sections_prefix added res) as [tail ->].
    apply sublist_inserts_r, Hsub.
    intros n f r Hf Hr. rewrite Z.add_0_l in Hr.
    apply reinject_head in Hr as (f' & rest & Hf' & -> & _).
    unfold getitem in Hf'. rewrite Nat2Z.id in Hf'.
    exists rest. congruence.
Qed.

Lemma kept_survives reinject : ∀ l i,
  Forall2 survives l (mapi_from (kept reinject) i l).
Proof.
  induction l as [|f l IH]; intros i; simpl; constructor; [|apply IH].
  unfold survives, kept. destruct (reinject !! i); auto.
Qed.

(** X6.  [migrate] drops no line: the fragments of the input, each one as
    it is or, where a replacement is registered for it, commented out, are
    in the output in their order; the output has at least as many fragments
    as the input. *)
Theorem migrate_keeps_lines (fragments : list ConfigurationFragment)
    (migration_def : MigrationDescType) :
  let spans := fragments_to_spans_of_sections fragments in
  let a := migration_def_to_actions fragments migration_def in
  let out := snd (migrate fragments migration_def) in
  mapi_from (kept (reinject_fragments fragments spans a)) 0 fragments
    `sublist_of` out ∧
  (∃ keep, Forall2 survives fragments keep ∧ keep `sublist_of` out) ∧
  (length fragments ≤ length out)%nat.
Proof.
  intros spans a out.
  pose proof (migrate_sublist fragments migration_def) as Hsub.
  fold spans a out in Hsub. split; [exact Hsub|]. split.
  - eexists. split; [|exact Hsub]. apply kept_survives.
  - apply sublist_length in Hsub. now rewrite length_mapi_from in Hsub.
Qed.

(** ** Lines that no rule touches *)

Lemma migrate_kept_at fragments migration_def h f :
  let spans := fragments_to_spans_of_sections fragments in
  fragments !! h = Some f →
  reinject_fragments fragments spans
    (migration_def_to_actions fragments migration_def) !! Z.of_nat h = None →
  ∃ post, snd (migrate fragments migration_def)
          = migrate_upto fragments migration_def h ++ f :: post.
Proof.
  intros spans Hf Hnone. unfold migrate, migrate_upto.
  destruct (no_actions (migration_def_to_actions fragments migration_def)).
  - exists (drop (S h) fragments). simpl. symmetry.
    now apply take_drop_middle.
  - fold spans.
    set (reinject := reinject_fragments fragments spans
      (migration_def_to_actions fragments migration_def)) in *.
    set (added := collect_added_keys fragments spans
      (moved_keys (migration_def_to_actions fragments migration_def))).
    assert (Hlen : 0 + Z.of_nat (length (take h fragments)) = Z.of_nat h).
    { rewrite length_take. apply lookup_lt_Some in Hf. lia. }
    pose proof (take_drop_middle fragments h f Hf) as Hsplit.
    remember (take h fragments) as pre eqn:Hpre.
    remember (drop (S h) fragments) as suf eqn:Hsuf.
    clearbody reinject added. rewrite <- Hsplit. rewrite rebuild_app.
    destruct (rebuild reinject 0 pre [] added) as [res1 added1] eqn:E1.
    simpl fst; simpl snd. rewrite Hlen. simpl rebuild.
    destruct (rebuild_step_kept reinject (Z.of_nat h) f added1 Hnone)
      as [keys Hkeys].
    destruct (rebuild_step reinject (Z.of_nat h) f added1) as [out added2].
    simpl in Hkeys. subst out. rewrite rebuild_acc.
    destruct (rebuild reinject (Z.of_nat h + 1) suf [] added2)
      as [res3 added3]. simpl.
    destruct (add_new_sections_prefix added3
      ((res1 ++ f :: keys) ++ res3)) as [tail ->].
    exists (keys ++ res3 ++ tail). now rewrite <- !app_assoc.
Qed.

(** X7.  A fragment that is neither a Section nor a KeyValue fragment, a
    blank line, a comment or an unrecognized line, is never replaced: no
    replacement is registered for it and it is written as it is, after
    what is written for the fragments before it.  The one exception is the
    first fragment of the sequence when a rename is recorded for the empty
    section name. *)
Theorem other_kinds_untouched (fragments : list ConfigurationFragment)
    (migration_def : MigrationDescType) (i : nat)
    (f : ConfigurationFragment) :
  let spans := fragments_to_spans_of_sections fragments in
  let a := migration_def_to_actions fragments migration_def in
  fragments !! i = Some f →
  removable f = false →
  i ≠ 0%nat ∨ (∀ new, ("", new) ∉ renamed_sections a) →
  reinject_fragments fragments spans a !! Z.of_nat i = None ∧
  ∃ post, snd (migrate fragments migration_def)
          = migrate_upto fragments migration_def i ++ f :: post.
Proof.
  intros spans a Hf Hrem Hedge.
  assert (Hnone : reinject_fragments fragments spans a !! Z.of_nat i = None).
  { destruct (reinject_fragments fragments spans a !! Z.of_nat i) as [r|] eqn:E;
      [|reflexivity].
    exfalso. apply reinject_head in E as (f' & rest & Hf' & _ & Hwhy).
    unfold getitem in Hf'. rewrite Nat2Z.id, Hf in Hf'. injection Hf' as <-.
    destruct Hwhy as [Hr|(old & new & sp & Hin & Hrec & Hsp)]; [congruence|].
    destruct (spans_names fragments) as [Hnames _].
    destruct (Hnames _ _ Hrec) as [[(g & Hg & Hk & _)|(H0 & Hold & _)] _].
    - rewrite Hsp in Hg. unfold getitem in Hg. rewrite Nat2Z.id, Hf in Hg.
      injection Hg as <-. unfold removable in Hrem. now rewrite Hk in Hrem.
    - subst old. destruct Hedge as [Hi|Hno]; [lia|]. now apply Hno in Hin. }
  split; [exact Hnone|]. now apply migrate_kept_at.
Qed.

Lemma other_kinds_untouched_witness :
  dup_file !! 3%nat = Some newline_fragment ∧
  reinject_fragments dup_file (fragments_to_spans_of_sections dup_file)
    (migration_def_to_actions dup_file rename_k_def) !! 3 = None.
Proof.
  assert (H : dup_file !! 3%nat = Some newline_fragment) by reflexivity.
  split; [exact H|].
  exact (proj1 (other_kinds_untouched dup_file rename_k_def 3
                  newline_fragment H eq_refl
                  (or_introl (Nat.neq_succ_0 2)))).
Defined.

(** ** Moved keys *)

Lemma od_extend_cons {V} k (vs : list V) k0 v0 d :
  od_extend k vs ((k0, v0) :: d)
  = if String.eqb k k0 then (k0, v0 ++ vs) :: d
    else (k0, v0) :: od_extend k vs d.
Proof. unfold od_extend. simpl. now destruct (String.eqb k k0). Qed.

Lemma queued_od_extend k vs d k' x :
  queued k' x d → queued k' x (od_extend k vs d).
Proof.
  induction d as [|[k0 v0] d IH]; intros (l & Hl & Hx).
  - inversion Hl.
  - rewrite od_extend_cons. apply elem_of_cons in Hl as [[= -> ->]|Hl].
    + destruct (String.eqb k k0).
      * exists (v0 ++ vs). split; [left|]. apply elem_of_app. now left.
      * exists v0. split; [left|exact Hx].
    + destruct (String.eqb k k0).
      * exists l. split; [now right|exact Hx].
      * destruct IH as (l' & Hl' & Hx'); [now exists l|].
        exists l'. split; [now right|exact Hx'].
Qed.

Lemma queued_od_extend_new k vs (d : odict (list ConfigurationFragment)) x :
  x ∈ vs → queued k x (od_extend k vs d).
Proof.
  intros Hx. induction d as [|[k0 v0] d IH].
  - exists ([] ++ vs). split; [left|exact Hx].
  - rewrite od_extend_cons. destruct (String.eqb_spec k k0) as [->|Hne].
    + exists (v0 ++ vs). split; [left|]. apply elem_of_app. now right.
    + destruct IH as (l & Hl & Hx'). exists l. split; [now right|exact Hx'].
Qed.

Lemma queued_od_set k x s keys (d : odict (list ConfigurationFragment)) :
  queued k x d → od_get s d = Some keys →
  x ∈ keys ∨ queued k x (od_set s [] d).
Proof.
  induction d as [|[k0 v0] d IH]; intros (l & Hl & Hx) Hget; [inversion Hl|].
  simpl in *. destruct (String.eqb s k0) eqn:E.
  - injection Hget as <-. apply elem_of_cons in Hl as [[= -> ->]|Hl].
    + now left.
    + right. exists l. split; [now right|exact Hx].
  - apply elem_of_cons in Hl as [[= -> ->]|Hl].
    + right. exists v0. split; [left|exact Hx].
    + destruct IH as [H|(l' & Hl' & Hx')]; [now exists l|exact Hget| |].
      * now left.
      * right. exists l'. split; [now right|exact Hx'].
Qed.

Lemma queued_rebuild_step reinject i f added k x :
  queued k x added →
  x ∈ fst (rebuild_step reinject i f added) ∨
  queued k x (snd (rebuild_step reinject i f added)).
Proof.
  intros Hq. unfold rebuild_step.
  destruct (first_section _) as [s|]; [|now right].
  destruct (nonempty_str s); [|now right].
  destruct (od_get s added) as [keys|] eqn:Hget; [|now right].
  destruct (nonempty keys); [|now right]. simpl.
  destruct (queued_od_set k x s keys added Hq Hget) as [H|H]; [|now right].
  left. apply elem_of_app. now right.
Qed.

Lemma queued_rebuild reinject k x : ∀ l i result added,
  x ∈ result ∨ queued k x added →
  x ∈ fst (rebuild reinject i l result added) ∨
  queued k x (snd (rebuild reinject i l result added)).
Proof.
  induction l as [|f l IH]; intros i result added H; simpl; [exact H|].
  pose proof (queued_rebuild_step reinject i f added k x) as Hstep.
  destruct (rebuild_step reinject i f added) as [out added']. simpl in Hstep.
  apply IH. destruct H as [H|H].
  - left. apply elem_of_app. now left.
  - destruct (Hstep H) as [H'|H']; [left|now right].
    apply elem_of_app. now right.
Qed.

Lemma queued_add_new_sections k x : ∀ added result,
  x ∈ result ∨ queued k x added → x ∈ add_new_sections result added.
Proof.
  unfold add_new_sections.
  induction added as [|[s keys] added IH]; intros result H; simpl.
  - destruct H as [H|(l & Hl & _)]; [exact H|inversion Hl].
  - apply IH. destruct H as [H|(l & Hl & Hx)].
    + left. destruct (nonempty keys); [|exact H].
      rewrite !elem_of_app. auto.
    + apply elem_of_cons in Hl as [[= -> ->]|Hl].
      * left. destruct keys as [|y keys]; [inversion Hx|]. simpl.
        apply elem_of_app. now right.
      * right. now exists l.
Qed.

Lemma queued_inner_mono k x new_section trio
    (matches : list (Z * ConfigurationFragment)) : ∀ added,
  queued k x added →
  queued k x (foldl (λ added _, od_extend new_section trio added)
                added matches).
Proof.
  induction matches as [|m matches IH]; intros added H; simpl; [exact H|].
  apply IH. now apply queued_od_extend.
Qed.

Lemma queued_outer_mono fragments spans k x
    (l : list (string * string * string * string * string)) : ∀ acc,
  queued k x acc →
  queued k x
    (foldl (λ added '(old_section, old_key, new_section, new_key, new_value),
        foldl (λ added _,
            od_extend new_section (key_trio new_key new_value) added)
          added
          (iter_key_fragment fragments spans old_section KeyValue old_key))
      acc l).
Proof.
  induction l as [|[[[[o k0] n] nk] nv] l IH]; intros acc Hq; simpl;
    [exact Hq|].
  apply IH. now apply queued_inner_mono.
Qed.

Lemma queued_collect fragments spans l :
  ∀ old ok ns nk nv i f,
    (old, ok, ns, nk, nv) ∈ l →
    (i, f) ∈ iter_key_fragment fragments spans old KeyValue ok →
    queued ns (key_value_fragment nk nv)
      (collect_added_keys fragments spans l).
Proof.
  unfold collect_added_keys.
  generalize (@nil (string * list ConfigurationFragment)).
  induction l as [|t l IH]; intros acc old ok ns nk nv i f Hin Hm;
    [inversion Hin|].
  apply elem_of_cons in Hin as [<-|Hin].
  - cbn [foldl]. apply queued_outer_mono.
    destruct (iter_key_fragment fragments spans old KeyValue ok)
      as [|m ms]; [inversion Hm|]. cbn [foldl].
    apply queued_inner_mono, queued_od_extend_new.
    unfold key_trio. right. left.
  - cbn [foldl]. eapply IH; eauto.
Qed.

(** X8.  A key that a move-key action finds is written anew and its line is
    commented out: for every move-key action and every KeyValue fragment
    that [iter_key_fragment] yields for it, [migrate] returns changed =
    true, and its output holds the fragment [new_key=new_value] and the
    Comment fragment made of the old line. *)
Theorem moved_key_written (fragments : list ConfigurationFragment)
    (migration_def : MigrationDescType)
    (old_section old_key new_section new_key new_value : string)
    (i : Z) (f : ConfigurationFragment) :
  let spans := fragments_to_spans_of_sections fragments in
  let a := migration_def_to_actions fragments migration_def in
  (old_section, old_key, new_section, new_key, new_value) ∈ moved_keys a →
  (i, f) ∈ iter_key_fragment fragments spans old_section KeyValue old_key →
  fst (migrate fragments migration_def) = true ∧
  key_value_fragment new_key new_value ∈ snd (migrate fragments migration_def) ∧
  commented f ∈ snd (migrate fragments migration_def).
Proof.
  intros spans a Hin Hm.
  assert (Hno : no_actions a = false).
  { unfold no_actions. destruct (moved_keys a); [inversion Hin|].
    simpl. now rewrite !orb_true_r. }
  split; [|split].
  - unfold migrate. fold a. rewrite Hno. now destruct (rebuild _ _ _ _ _).
  - unfold migrate. fold a. rewrite Hno. fold spans.
    pose proof (queued_collect fragments spans (moved_keys a)
      _ _ _ _ _ _ _ Hin Hm) as Hq.
    pose proof (queued_rebuild (reinject_fragments fragments spans a)
      new_section (key_value_fragment new_key new_value) fragments 0 []
      (collect_added_keys fragments spans (moved_keys a)) (or_intror Hq))
      as Hr.
    destruct (rebuild _ 0 fragments [] _) as [res added]. simpl in *.
    now apply (queued_add_new_sections new_section).
  - pose proof (migrate_sublist fragments migration_def) as Hsub.
    fold spans a in Hsub. cbv zeta in Hsub.
    eapply elem_of_submseteq; [|apply sublist_submseteq, Hsub].
    apply elem_of_iter_key_fragment in Hm as (Hi & Hf & Hk & Hv).
    pose proof (iter_covered _ _ _ Hi) as Hcov.
    apply (covered_in_range fragments) in Hcov; [|apply spans_ok].
    assert (Hreg : (i, [commented f]) ∈ registrations fragments spans a).
    { unfold registrations. rewrite !elem_of_app. right. right. left.
      unfold register_removed_keys. apply elem_of_flat_map.
      exists (old_section, old_key). split.
      - apply elem_of_app. right. apply elem_of_map.
        now exists (old_section, old_key, new_section, new_key, new_value).
      - apply elem_of_map. exists (i, f). split; [reflexivity|].
        apply elem_of_iter_key_fragment. easy. }
    assert (Hsome : is_Some (reinject_fragments fragments spans a !! i)).
    { unfold reinject_fragments. rewrite foldl_register_lookup, lookup_empty.
      destruct (last_registration i _) eqn:E; [eauto|].
      rewrite last_registration_none in E. now apply E in Hreg. }
    apply (list_elem_of_lookup_2 _ (Z.to_nat i)).
    rewrite lookup_mapi_from. unfold getitem in Hf. rewrite Hf. simpl.
    rewrite Z.add_0_l, Z2Nat.id by lia. unfold kept.
    destruct Hsome as [r ->]. reflexivity.
Qed.

Lemma moved_key_written_witness :
  ("rdp", "session_probe_exe_or_file", "session_probe", "exe_or_file",
   "foo.exe")
    ∈ moved_keys (migration_def_to_actions rdp_file_blank move_exe_def) ∧
  (2, exe_line)
    ∈ iter_key_fragment rdp_file_blank
        (fragments_to_spans_of_sections rdp_file_blank) "rdp" KeyValue
        "session_probe_exe_or_file" ∧
  key_value_fragment "exe_or_file" "foo.exe"
    ∈ snd (migrate rdp_file_blank move_exe_def).
Proof.
  assert (H1 : ("rdp", "session_probe_exe_or_file", "session_probe",
                "exe_or_file", "foo.exe")
    ∈ moved_keys (migration_def_to_actions rdp_file_blank move_exe_def))
    by (vm_compute; left).
  assert (H2 : (2, exe_line)
    ∈ iter_key_fragment rdp_file_blank
        (fragments_to_spans_of_sections rdp_file_blank) "rdp" KeyValue
        "session_probe_exe_or_file") by (vm_compute; left).
  split; [exact H1|]. split; [exact H2|].
  exact (proj1 (proj2 (moved_key_written rdp_file_blank move_exe_def
    _ _ _ _ _ _ _ H1 H2))).
Defined.

(** ** Where moved keys are written *)


















(** ** Replacements are written in place *)

Lemma rebuild_step_chunk reinject i f added :
  ∃ keys, fst (rebuild_step reinject i f added)
          = default [f] (reinject !! i) ++ keys.
Proof.
  unfold rebuild_step.
  destruct (first_section _) as [s|]; [|exists []; now rewrite app_nil_r].
  destruct (nonempty_str s); [|exists []; now rewrite app_nil_r].
  destruct (od_get s added) as [keys|]; [|exists []; now rewrite app_nil_r].
  destruct (nonempty keys); [now exists keys|].
  exists []. now rewrite app_nil_r.
Qed.

(** X11.  [migrate] writes the input in order, each fragment at its place:
    for every fragment, after what is written for the fragments before it
    comes its replacement, when one is registered for its index, and the
    fragment itself otherwise; a renamed key therefore stays in its
    section. *)
Theorem replacement_in_place (fragments : list ConfigurationFragment)
    (migration_def : MigrationDescType) (h : nat)
    (f : ConfigurationFragment) :
  let spans := fragments_to_spans_of_sections fragments in
  let a := migration_def_to_actions fragments migration_def in
  fragments !! h = Some f →
  ∃ post,
    snd (migrate fragments migration_def)
    = migrate_upto fragments migration_def h
      ++ default [f] (reinject_fragments fragments spans a !! Z.of_nat h)
      ++ post.
Proof.
  intros spans a Hf. unfold migrate, migrate_upto. fold a.
  destruct (no_actions a) eqn:Hno.
  - exists (drop (S h) fragments). simpl.
    unfold reinject_fragments.
    rewrite (no_actions_registrations _ _ _ Hno). simpl.
    rewrite lookup_empty. simpl. symmetry. now apply take_drop_middle.
  - fold spans.
    set (reinject := reinject_fragments fragments spans a) in *.
    set (added := collect_added_keys fragments spans (moved_keys a)).
    assert (Hlen : 0 + Z.of_nat (length (take h fragments)) = Z.of_nat h).
    { rewrite length_take. apply lookup_lt_Some in Hf. lia. }
    pose proof (take_drop_middle fragments h f Hf) as Hsplit.
    remember (take h fragments) as pre eqn:Hpre.
    remember (drop (S h) fragments) as suf eqn:Hsuf.
    clearbody reinject added. rewrite <- Hsplit. rewrite rebuild_app.
    destruct (rebuild reinject 0 pre [] added) as [res1 added1] eqn:E1.
    simpl fst; simpl snd. rewrite Hlen. simpl rebuild.
    destruct (rebuild_step_chunk reinject (Z.of_nat h) f added1)
      as [keys Hkeys].
    destruct (rebuild_step reinject (Z.of_nat h) f added1) as [out added2].
    simpl in Hkeys. subst out. rewrite rebuild_acc.
    destruct (rebuild reinject (Z.of_nat h + 1) suf [] added2)
      as [res3 added3]. simpl.
    destruct (add_new_sections_prefix added3
      ((res1 ++ default [f] (reinject !! Z.of_nat h) ++ keys) ++ res3))
      as [tail ->].
    exists (keys ++ res3 ++ tail). now rewrite <- !app_assoc.
Qed.

Lemma replacement_in_place_witness :
  dup_file !! 4%nat = Some (key_value_fragment "k" "2") ∧
  ∃ post,
    snd (migrate dup_file rename_k_def)
    = migrate_upto dup_file rename_k_def 4
      ++ [Fragment0 "#k=2" Comment; newline_fragment;
          key_value_fragment "k2" "2"] ++ post.
Proof.
  assert (H : dup_file !! 4%nat = Some (key_value_fragment "k" "2"))
    by reflexivity.
  split; [exact H|].
  destruct (replacement_in_place dup_file rename_k_def 4 _ H) as [post Hp].
  exists post. rewrite Hp. reflexivity.
Defined.

(** ** The scope of key rules *)

Lemma foldl_on_step_desc orders : ∀ st,
  migration_key_desc (foldl on_step st orders)
  = foldl step_desc (migration_key_desc st) orders.
Proof.
  induction orders as [|o orders IH]; intros st; simpl; [reflexivity|].
  rewrite IH. now destruct o.
Qed.

Lemma on_key_value_desc st fragment :
  migration_key_desc (on_key_value st fragment) = migration_key_desc st.
Proof.
  unfold on_key_value. destruct (truthy_desc _) as [desc|]; [|easy].
  destruct (desc !! value1 fragment) as [[|order]|]; try easy.
  destruct (UpdateItem.call _ _ _ _) as [[t0 t1] t2].
  now destruct (String.eqb t0 (section st)).
Qed.

Lemma actions_key_desc fragments migration_def :
  migration_key_desc (migration_def_to_actions fragments migration_def)
  = match last_section fragments with
    | Some name => declared_rules migration_def name
    | None => None
    end.
Proof.
  induction fragments as [|fragment fragments IH] using rev_ind; [easy|].
  rewrite migration_def_to_actions_snoc. unfold last_section in *.
  rewrite foldl_app. simpl. unfold actions_step.
  destruct (kind fragment); try exact IH.
  - unfold on_section, declared_rules.
    destruct (migration_def !! value1 fragment) as [[|n|d|orders]|];
      try easy.
    now rewrite foldl_on_step_desc.
  - now rewrite on_key_value_desc.
Qed.

(** X12.  The key rules in force are those declared for the section whose
    header was read last: the mapping is set at each Section fragment to the
    one its rule gives, or to none, and a KeyValue fragment leaves it as it
    is.  So a key line that comes before the first header, or in a section
    whose rule declares no key rules, gives no action. *)
Theorem key_rules_scope (fragments : list ConfigurationFragment)
    (migration_def : MigrationDescType) (f : ConfigurationFragment) :
  let in_force :=
    match last_section fragments with
    | Some name => declared_rules migration_def name
    | None => None
    end in
  migration_key_desc (migration_def_to_actions fragments migration_def)
    = in_force ∧
  (kind f = KeyValue → in_force = None →
   migration_def_to_actions (fragments ++ [f]) migration_def
   = migration_def_to_actions fragments migration_def).
Proof.
  intros in_force. split; [apply actions_key_desc|].
  intros Hk Hnone. rewrite migration_def_to_actions_snoc.
  unfold actions_step, on_key_value. rewrite Hk, actions_key_desc.
  fold in_force. now rewrite Hnone.
Qed.

Lemma key_rules_scope_witness :
  kind exe_line = KeyValue ∧
  migration_def_to_actions ([exe_line] ++ [exe_line]) move_exe_def
  = migration_def_to_actions [exe_line] move_exe_def.
Proof.
  split; [reflexivity|].
  exact (proj2 (key_rules_scope [exe_line] move_exe_def exe_line)
           eq_refl eq_refl).
Defined.

Lemma last_section_elem fragments name :
  last_section fragments = Some name →
  ∃ hdr, hdr ∈ fragments ∧ kind hdr = Section_ ∧ value1 hdr = name.
Proof.
  induction fragments as [|f fragments IH] using rev_ind; [discriminate|].
  unfold last_section in *. rewrite foldl_app. simpl.
  destruct (kind f) eqn:Hk;
    try (intros H; destruct (IH H) as (hdr & Hin & Hh);
         exists hdr; split; [apply elem_of_app; now left|exact Hh]).
  intros [= <-]. exists f. split; [|easy].
  apply elem_of_app. right. left.
Qed.

Lemma foldl_on_step_lists orders : ∀ st,
  renamed_keys (foldl on_step st orders) = renamed_keys st ∧
  moved_keys (foldl on_step st orders) = moved_keys st ∧
  removed_sections (foldl on_step st orders) = removed_sections st ∧
  removed_keys (foldl on_step st orders) = removed_keys st.
Proof.
  induction orders as [|o orders IH]; intros st; simpl; [easy|].
  destruct (IH (on_step st o)) as (-> & -> & -> & ->). now destruct o.
Qed.

(** What the actions name, for a state [st] and fragments [l]. *)
Lemma actions_sound_step migration_def l f st :
  (migration_key_desc st ≠ None →
   has_fragment l Section_ (original_section st)) →
  sound_actions migration_def l st →
  sound_actions migration_def (l ++ [f]) (actions_step migration_def st f).
Proof.
  intros Hsrc (I1 & I2 & I3 & I4).
  assert (Hmono : ∀ k s, has_fragment l k s → has_fragment (l ++ [f]) k s).
  { intros k s (x & Hin & H). exists x. split; [|exact H].
    apply elem_of_app. now left. }
  assert (Hold : sound_actions migration_def (l ++ [f]) st).
  { split; [|split; [|split]].
    - intros n Hn. destruct (I1 n Hn). auto.
    - intros s k nk nv H. destruct (I2 _ _ _ _ H). auto.
    - intros s k ns nk nv H. destruct (I3 _ _ _ _ _ H). auto.
    - intros s k H. eauto. }
  clear I1 I2 I3 I4. destruct Hold as (I1 & I2 & I3 & I4).
  assert (Hf : f ∈ l ++ [f]) by (apply elem_of_app; right; left).
  unfold actions_step. destruct (kind f) eqn:Hkind; try easy.
  - unfold on_section.
    destruct (migration_def !! value1 f) as [[|n|d|orders]|] eqn:Hrule;
      try easy.
    + split; [|easy]. intros n Hn. simpl in Hn.
      apply elem_of_app in Hn as [Hn|Hn]; [now apply I1|].
      apply list_elem_of_singleton in Hn as ->.
      split; [now exists f|exact Hrule].
    + unfold sound_actions.
      destruct (foldl_on_step_lists orders
        (mkActions (value1 f) (value1 f) None (renamed_sections st)
           (renamed_keys st) (moved_keys st) (removed_sections st)
           (removed_keys st))) as (-> & -> & -> & ->). easy.
  - assert (Hkey : has_fragment (l ++ [f]) KeyValue (value1 f))
      by now exists f.
    unfold on_key_value.
    destruct (truthy_desc (migration_key_desc st)) as [desc|] eqn:Ht;
      [|easy].
    assert (Hne : migration_key_desc st ≠ None).
    { unfold truthy_desc in Ht. now destruct (migration_key_desc st). }
    pose proof (Hmono _ _ (Hsrc Hne)) as Hhdr.
    destruct (desc !! value1 f) as [[|order]|]; try easy.
    + split; [easy|]. split; [easy|]. split; [easy|]. simpl.
      intros s k Hin. apply elem_of_app in Hin as [Hin|Hin]; [eauto|].
      apply list_elem_of_singleton in Hin as [= -> ->]. exact Hkey.
    + destruct (UpdateItem.call _ _ _ _) as [[t0 t1] t2].
      destruct (String.eqb t0 (section st)).
      * split; [easy|]. split; [|easy]. simpl. intros s k nk nv Hin.
        apply elem_of_app in Hin as [Hin|Hin]; [eauto|].
        apply list_elem_of_singleton in Hin as [= -> -> -> ->]. auto.
      * split; [easy|]. split; [easy|]. split; [|easy]. simpl.
        intros s k ns nk nv Hin.
        apply elem_of_app in Hin as [Hin|Hin]; [eauto|].
        apply list_elem_of_singleton in Hin as [= -> -> -> -> ->]. auto.
Qed.

(** X13.  Every action names something the file has: a removed section is
    the name of a Section fragment whose rule is the removal marker; a
    rename-key or a move-key action has the name of a Section fragment as
    its source section and the key of a KeyValue fragment as its old key;
    a remove-key action has the key of a KeyValue fragment. *)
Theorem actions_sound (fragments : list ConfigurationFragment)
    (migration_def : MigrationDescType) :
  sound_actions migration_def fragments
    (migration_def_to_actions fragments migration_def).
Proof.
  induction fragments as [|f fragments IH] using rev_ind.
  - split; [|split; [|split]]; intros *; simpl; intros H; inversion H.
  - rewrite migration_def_to_actions_snoc.
    apply actions_sound_step; [|exact IH].
    intros Hsome. rewrite actions_key_desc in Hsome.
    destruct (actions_names fragments migration_def) as [-> _].
    destruct (last_section fragments) as [name|] eqn:E; [|congruence].
    exact (last_section_elem _ _ E).
Qed.

Lemma actions_sound_witness :
  ("rdp", "session_probe_exe_or_file", "session_probe", "exe_or_file",
   "foo.exe")
    ∈ moved_keys (migration_def_to_actions rdp_file move_exe_def) ∧
  has_fragment rdp_file Section_ "rdp".
Proof.
  assert (H : ("rdp", "session_probe_exe_or_file", "session_probe",
               "exe_or_file", "foo.exe")
    ∈ moved_keys (migration_def_to_actions rdp_file move_exe_def))
    by (vm_compute; left).
  split; [exact H|].
  destruct (actions_sound rdp_file move_exe_def) as (_ & _ & Hm & _).
  exact (proj1 (Hm _ _ _ _ _ H)).
Defined.

(** ** The fragments of the parser *)

Lemma rgx_ini_parser_alternatives :
  rgx_ini_parser = Re.Alt (Re.Group 1 (Re.Chr nl)) rgx_line.
Proof. reflexivity. Qed.

Lemma str_forall_app q a b :
  str_forall q (a +:+ b) = str_forall q a && str_forall q b.
Proof.
  induction a as [|c a IH]; [reflexivity|].
  change (String c a +:+ b) with (String c (a +:+ b)). simpl.
  now rewrite IH, andb_assoc.
Qed.

Lemma str_take_add n k s :
  str_take (n + k) s = str_take n s +:+ str_take k (str_drop n s).
Proof.
  revert s; induction n as [|n IH]; intros s; simpl.
  - now destruct s.
  - destruct s as [|c s]; [now destruct k|].
    change (String c (str_take n s) +:+ str_take k (str_drop n s))
      with (String c (str_take n s +:+ str_take k (str_drop n s))).
    now rewrite IH.
Qed.

Lemma str_length_take n s :
  (n ≤ String.length s)%nat → String.length (str_take n s) = n.
Proof.
  revert s; induction n as [|n IH]; intros [|c s]; simpl; try lia.
  intros H. rewrite IH; lia.
Qed.

Module ReChars.
Import Re.

Lemma rep_greedy_chars p q : (∀ c, p c = true → q c = true) →
  ∀ rest min pos gs (k : cont) res,
  rep_greedy p min pos rest gs k = Some res →
  ∃ n, (min ≤ n ≤ String.length rest)%nat ∧
       str_forall q (str_take n rest) = true ∧
       k (pos + n)%nat (str_drop n rest) gs = Some res.
Proof.
  intros Hpq. induction rest as [|c rest IH]; intros min pos gs k res; simpl.
  - destruct min; simpl; [|discriminate]. intros H. exists 0%nat.
    rewrite Nat.add_0_r. split; [lia|]. split; [reflexivity|exact H].
  - assert (Hstop : when0 min (k pos (String c rest) gs) = Some res →
      ∃ n, (min ≤ n ≤ S (String.length rest))%nat ∧
           str_forall q (str_take n (String c rest)) = true ∧
           k (pos + n)%nat (str_drop n (String c rest)) gs = Some res).
    { destruct min; simpl; [|discriminate]. intros H. exists 0%nat.
      rewrite Nat.add_0_r. split; [lia|]. split; [reflexivity|exact H]. }
    destruct (p c) eqn:Hc; [|exact Hstop].
    destruct (rep_greedy p (Nat.pred min) (S pos) rest gs k) eqn:E; simpl.
    + intros [= ->]. apply IH in E as (n & Hn & Hq & Hk). exists (S n).
      rewrite Nat.add_succ_r. split; [lia|]. split; [|exact Hk].
      simpl. now rewrite (Hpq c Hc), Hq.
    + exact Hstop.
Qed.

Lemma rep_lazy_chars p q : (∀ c, p c = true → q c = true) →
  ∀ rest min pos gs (k : cont) res,
  rep_lazy p min pos rest gs k = Some res →
  ∃ n, (min ≤ n ≤ String.length rest)%nat ∧
       str_forall q (str_take n rest) = true ∧
       k (pos + n)%nat (str_drop n rest) gs = Some res.
Proof.
  intros Hpq. induction rest as [|c rest IH]; intros min pos gs k res; simpl.
  - destruct min; simpl; [|discriminate].
    destruct (k pos EmptyString gs) eqn:E; simpl; [|discriminate].
    intros [= ->]. exists 0%nat. rewrite Nat.add_0_r.
    split; [lia|]. split; [reflexivity|exact E].
  - destruct (when0 min (k pos (String c rest) gs)) eqn:E; simpl.
    + intros [= ->]. destruct min; simpl in E; [|discriminate].
      exists 0%nat. rewrite Nat.add_0_r.
      split; [lia|]. split; [reflexivity|exact E].
    + destruct (p c) eqn:Hc; [|discriminate]. intros H.
      apply IH in H as (n & Hn & Hq & Hk). exists (S n).
      rewrite Nat.add_succ_r. split; [lia|]. split; [|exact Hk].
      simpl. now rewrite (Hpq c Hc), Hq.
Qed.

(** A successful run of [exec] entered its continuation after characters of
    the class that [r] consumes. *)
Lemma exec_chars q : ∀ r, consumes q r →
  ∀ pos rest gs (k : cont) res,
  exec r pos rest gs k = Some res →
  ∃ n gs', (min_len r ≤ n ≤ String.length rest)%nat ∧
           str_forall q (str_take n rest) = true ∧
           k (pos + n)%nat (str_drop n rest) gs' = Some res ∧
           (∀ g, ¬ In g (groups_of r) → gs' g = gs g).
Proof.
  induction r as [p|p|p|p|p|g r IH|r1 IH1 r2 IH2|r1 IH1 r2 IH2|r IH| |];
    intros Hq pos rest gs k res; simpl in Hq |- *.
  - destruct rest as [|c rest]; [discriminate|].
    destruct (p c) eqn:Hc; [|discriminate]. intros H. exists 1%nat, gs.
    rewrite Nat.add_1_r. simpl. rewrite (Hq c Hc).
    split; [lia|]. split; [reflexivity|]. split; [exact H|reflexivity].
  - intros H. apply (rep_greedy_chars p q Hq) in H as (n & Hn & Hc & Hk).
    now exists n, gs.
  - intros H. apply (rep_greedy_chars p q Hq) in H as (n & Hn & Hc & Hk).
    now exists n, gs.
  - intros H. apply (rep_lazy_chars p q Hq) in H as (n & Hn & Hc & Hk).
    now exists n, gs.
  - intros H. apply (rep_lazy_chars p q Hq) in H as (n & Hn & Hc & Hk).
    now exists n, gs.
  - intros H. apply (IH Hq) in H as (n & gs' & Hn & Hc & Hk & Hg).
    exists n, (set_group g (pos, (pos + n)%nat) gs').
    split; [exact Hn|]. split; [exact Hc|]. split; [exact Hk|].
    intros g' Hg'. unfold set_group.
    destruct (Nat.eqb_spec g' g) as [->|Hne].
    + exfalso. apply Hg'. now left.
    + apply Hg. intros Hin. apply Hg'. now right.
  - destruct Hq as [Hq1 Hq2].
    intros H. apply (IH1 Hq1) in H as (n1 & gs1 & Hn1 & Hc1 & Hk1 & Hg1).
    apply (IH2 Hq2) in Hk1 as (n2 & gs2 & Hn2 & Hc2 & Hk2 & Hg2).
    rewrite str_length_drop in Hn2. rewrite str_drop_drop in Hk2.
    exists (n1 + n2)%nat, gs2. rewrite Nat.add_assoc.
    split; [lia|]. split; [|split; [exact Hk2|]].
    + now rewrite str_take_add, str_forall_app, Hc1, Hc2.
    + intros g Hg. rewrite Hg2, Hg1; [reflexivity| |]; intros Hin; apply Hg;
        apply in_or_app; auto.
  - destruct Hq as [Hq1 Hq2].
    destruct (exec r1 pos rest gs k) eqn:E; simpl.
    + intros [= ->]. apply (IH1 Hq1) in E as (n & gs' & Hn & Hc & Hk & Hg).
      exists n, gs'. split; [lia|]. split; [exact Hc|]. split; [exact Hk|].
      intros g Hg'. apply Hg. intros Hin. apply Hg'. apply in_or_app; auto.
    + intros H. apply (IH2 Hq2) in H as (n & gs' & Hn & Hc & Hk & Hg).
      exists n, gs'. split; [lia|]. split; [exact Hc|]. split; [exact Hk|].
      intros g Hg'. apply Hg. intros Hin. apply Hg'. apply in_or_app; auto.
  - destruct (exec r pos rest gs accept) as [[e gs']|] eqn:E; [|discriminate].
    intros H. apply ReFacts.exec_inv in E as (n & gs'' & Hn & Hk & Hg).
    unfold accept in Hk. injection Hk as _ ->.
    exists 0%nat, gs'. rewrite Nat.add_0_r, str_drop_0.
    split; [lia|]. split; [reflexivity|]. split; [exact H|exact Hg].
  - destruct (at_dollar rest); [|discriminate]. intros H. exists 0%nat, gs.
    rewrite Nat.add_0_r, str_drop_0. split; [lia|]. now repeat split.
  - destruct (Nat.eqb pos 0); [|discriminate]. intros H. exists 0%nat, gs.
    rewrite Nat.add_0_r, str_drop_0. split; [lia|]. now repeat split.
Qed.

(** The same for a group: its span is the characters that [r] consumed. *)
Lemma exec_group_chars q g r : consumes q r →
  ∀ pos rest gs (k : cont) res,
  exec (Group g r) pos rest gs k = Some res →
  ∃ n gs', (min_len r ≤ n ≤ String.length rest)%nat ∧
           str_forall q (str_take n rest) = true ∧
           k (pos + n)%nat (str_drop n rest) gs' = Some res ∧
           gs' g = Some (pos, (pos + n)%nat) ∧
           (∀ g', g' ≠ g → ¬ In g' (groups_of r) → gs' g' = gs g').
Proof.
  intros Hq pos rest gs k res H. simpl in H.
  apply (exec_chars q r Hq) in H as (n & gs' & Hn & Hc & Hk & Hg).
  exists n, (set_group g (pos, (pos + n)%nat) gs').
  split; [exact Hn|]. split; [exact Hc|]. split; [exact Hk|]. split.
  - unfold set_group. now rewrite Nat.eqb_refl.
  - intros g' Hne Hin. unfold set_group.
    destruct (Nat.eqb_spec g' g); [congruence|]. now apply Hg.
Qed.

End ReChars.

(** ** Pieces of a string *)

Lemma str_slice_at pos a n s :
  str_slice (pos + a) (pos + a + n) s = str_take n (str_drop a (str_drop pos s)).
Proof.
  unfold str_slice. rewrite str_drop_drop. f_equal. lia.
Qed.

Lemma str_take_nonempty n s :
  (1 ≤ n ≤ String.length s)%nat → str_take n s ≠ "".
Proof.
  intros Hn H. apply (f_equal String.length) in H.
  rewrite str_length_take in H; [simpl in H; lia|lia].
Qed.

(** ** Longest and shortest repetitions *)

Module ReOrder.
Import Re.

Lemma exec_seq r1 r2 pos rest gs (k : cont) :
  exec (Seq r1 r2) pos rest gs k
  = exec r1 pos rest gs (λ p r g, exec r2 p r g k).
Proof. reflexivity. Qed.

Lemma exec_star p pos rest gs (k : cont) :
  exec (Star p) pos rest gs k = rep_greedy p 0 pos rest gs k.
Proof. reflexivity. Qed.

Lemma exec_plus p pos rest gs (k : cont) :
  exec (Plus p) pos rest gs k = rep_greedy p 1 pos rest gs k.
Proof. reflexivity. Qed.

Lemma exec_group_star_lazy g p pos rest gs (k : cont) :
  exec (Group g (StarLazy p)) pos rest gs k
  = rep_lazy p 0 pos rest gs
      (λ pos' rest' gs', k pos' rest' (set_group g (pos, pos') gs')).
Proof. reflexivity. Qed.

(** A greedy repetition succeeds when some run of the class can be followed
    by the continuation. *)
Lemma rep_greedy_complete p : ∀ rest n min pos gs (k : cont),
  (min ≤ n ≤ String.length rest)%nat →
  str_forall p (str_take n rest) = true →
  is_Some (k (pos + n)%nat (str_drop n rest) gs) →
  is_Some (rep_greedy p min pos rest gs k).
Proof.
  induction rest as [|c rest IH]; intros n min pos gs k Hn Hc Hk.
  - simpl in Hn. assert (n = 0%nat) as -> by lia.
    assert (min = 0%nat) as -> by lia.
    rewrite Nat.add_0_r in Hk. exact Hk.
  - destruct n as [|n].
    + assert (min = 0%nat) as -> by lia. rewrite Nat.add_0_r in Hk.
      change (str_drop 0 (String c rest)) with (String c rest) in Hk.
      cbn [rep_greedy]. destruct (p c); [|exact Hk].
      destruct (rep_greedy p (Nat.pred 0) (S pos) rest gs k);
        cbn [orelse]; [eauto|exact Hk].
    + simpl in Hc. apply andb_true_iff in Hc as [Hc1 Hc2].
      cbn [rep_greedy]. rewrite Hc1.
      assert (is_Some (rep_greedy p (Nat.pred min) (S pos) rest gs k))
        as [x ->].
      { apply (IH n); [simpl in Hn; lia|exact Hc2|].
        rewrite Nat.add_succ_r in Hk. exact Hk. }
      cbn [orelse]. eauto.
Qed.

(** The run that a greedy repetition settles on is the longest one that the
    continuation accepts. *)
Lemma rep_greedy_max p : ∀ rest min pos gs (k : cont) res,
  rep_greedy p min pos rest gs k = Some res →
  ∃ n, (min ≤ n ≤ String.length rest)%nat ∧
       str_forall p (str_take n rest) = true ∧
       k (pos + n)%nat (str_drop n rest) gs = Some res ∧
       ∀ n', (n < n' ≤ String.length rest)%nat →
             str_forall p (str_take n' rest) = true →
             k (pos + n')%nat (str_drop n' rest) gs = None.
Proof.
  induction rest as [|c rest IH]; intros min pos gs k res.
  - cbn [rep_greedy]. destruct min; cbn [when0]; [|discriminate].
    intros H. exists 0%nat. rewrite Nat.add_0_r.
    split; [lia|]. split; [reflexivity|]. split; [exact H|].
    intros n' Hn'. simpl in Hn'. lia.
  - cbn [rep_greedy].
    assert (Hstop :
      p c = false ∨ rep_greedy p (Nat.pred min) (S pos) rest gs k = None →
      when0 min (k pos (String c rest) gs) = Some res →
      ∃ n, (min ≤ n ≤ String.length (String c rest))%nat ∧
           str_forall p (str_take n (String c rest)) = true ∧
           k (pos + n)%nat (str_drop n (String c rest)) gs = Some res ∧
           ∀ n', (n < n' ≤ String.length (String c rest))%nat →
                 str_forall p (str_take n' (String c rest)) = true →
                 k (pos + n')%nat (str_drop n' (String c rest)) gs = None).
    { intros Hno. destruct min; cbn [when0]; [|discriminate].
      intros H. exists 0%nat. rewrite Nat.add_0_r.
      split; [simpl; lia|]. split; [reflexivity|]. split; [exact H|].
      intros n' Hn' Hc'. destruct n' as [|m]; [lia|].
      simpl in Hc'. apply andb_true_iff in Hc' as [Hc1 Hc2].
      destruct Hno as [Hno|Hno]; [congruence|].
      destruct (k (pos + S m)%nat (str_drop (S m) (String c rest)) gs)
        eqn:Ek; [|reflexivity].
      exfalso.
      assert (is_Some (rep_greedy p (Nat.pred 0) (S pos) rest gs k))
        as [x Hx]; [|congruence].
      apply (rep_greedy_complete p rest m); [simpl in Hn' |- *; lia|exact Hc2|].
      rewrite Nat.add_succ_r in Ek.
      change (is_Some (k (S (pos + m)) (str_drop (S m) (String c rest)) gs)).
      rewrite Ek. eauto. }
    destruct (p c) eqn:Hpc; [|apply Hstop; now left].
    destruct (rep_greedy p (Nat.pred min) (S pos) rest gs k) eqn:E;
      cbn [orelse]; [|apply Hstop; now right].
    intros [= ->]. apply IH in E as (n & Hn & Hq & Hk & Hmax). exists (S n).
    rewrite Nat.add_succ_r. split; [simpl; lia|].
    split; [simpl; now rewrite Hpc, Hq|]. split; [exact Hk|].
    intros n' Hn' Hc'. destruct n' as [|m]; [lia|].
    simpl in Hc'. apply andb_true_iff in Hc' as [_ Hc2].
    rewrite Nat.add_succ_r. apply (Hmax m); [simpl in Hn'; lia|exact Hc2].
Qed.

(** A greedy repetition before [accept] stops at a character that is not in
    the class, or at the end. *)
Lemma rep_greedy_accept_end p rest min pos gs e gs' :
  rep_greedy p min pos rest gs accept = Some (e, gs') →
  ∃ n, e = (pos + n)%nat ∧ gs' = gs ∧
       (min ≤ n ≤ String.length rest)%nat ∧
       str_forall p (str_take n rest) = true ∧
       match str_drop n rest with
       | String c _ => p c = false
       | EmptyString => True
       end.
Proof.
  intros H. apply rep_greedy_max in H as (n & Hn & Hc & Hk & Hmax).
  unfold accept in Hk. injection Hk as <- <-. exists n.
  split; [reflexivity|]. split; [reflexivity|]. split; [exact Hn|].
  split; [exact Hc|].
  destruct (str_drop n rest) as [|c r] eqn:E; [exact I|].
  destruct (p c) eqn:Hpc; [exfalso|reflexivity].
  assert (Hlen := str_length_drop n rest). rewrite E in Hlen. simpl in Hlen.
  specialize (Hmax (n + 1)%nat). unfold accept in Hmax.
  assert (Some ((pos + (n + 1))%nat, gs) = None); [|discriminate].
  apply Hmax; [lia|].
  rewrite str_take_add, str_forall_app, Hc, E. simpl.
  replace (str_take 0 r) with EmptyString by now destruct r.
  simpl. now rewrite Hpc.
Qed.

(** A lazy repetition succeeds when some run of the class can be followed by
    the continuation. *)
Lemma rep_lazy_complete p : ∀ rest n min pos gs (k : cont),
  (min ≤ n ≤ String.length rest)%nat →
  str_forall p (str_take n rest) = true →
  is_Some (k (pos + n)%nat (str_drop n rest) gs) →
  is_Some (rep_lazy p min pos rest gs k).
Proof.
  induction rest as [|c rest IH]; intros n min pos gs k Hn Hc Hk.
  - simpl in Hn. assert (n = 0%nat) as -> by lia.
    assert (min = 0%nat) as -> by lia.
    rewrite Nat.add_0_r in Hk. destruct Hk as [x Hx].
    change (str_drop 0 EmptyString) with EmptyString in Hx.
    cbn [rep_lazy when0]. rewrite Hx. cbn [orelse]. eauto.
  - cbn [rep_lazy].
    destruct (when0 min (k pos (String c rest) gs)) eqn:E; cbn [orelse];
      [eauto|].
    destruct n as [|n].
    + assert (min = 0%nat) as -> by lia. rewrite Nat.add_0_r in Hk.
      destruct Hk as [x Hx].
      change (str_drop 0 (String c rest)) with (String c rest) in Hx.
      cbn [when0] in E. congruence.
    + simpl in Hc. apply andb_true_iff in Hc as [Hc1 Hc2]. rewrite Hc1.
      apply (IH n); [simpl in Hn; lia|exact Hc2|].
      rewrite Nat.add_succ_r in Hk. exact Hk.
Qed.

(** The run that a lazy repetition settles on is the shortest one that the
    continuation accepts. *)
Lemma rep_lazy_min p : ∀ rest min pos gs (k : cont) res,
  rep_lazy p min pos rest gs k = Some res →
  ∃ n, (min ≤ n ≤ String.length rest)%nat ∧
       str_forall p (str_take n rest) = true ∧
       k (pos + n)%nat (str_drop n rest) gs = Some res ∧
       ∀ n', (min ≤ n' < n)%nat →
             k (pos + n')%nat (str_drop n' rest) gs = None.
Proof.
  induction rest as [|c rest IH]; intros min pos gs k res; cbn [rep_lazy].
  - destruct (when0 min (k pos EmptyString gs)) eqn:E; cbn [orelse];
      [|discriminate].
    intros [= ->]. destruct min; cbn [when0] in E; [|discriminate].
    exists 0%nat. rewrite Nat.add_0_r.
    split; [lia|]. split; [reflexivity|]. split; [exact E|].
    intros n' Hn'. lia.
  - destruct (when0 min (k pos (String c rest) gs)) eqn:E; cbn [orelse].
    + intros [= ->]. destruct min; cbn [when0] in E; [|discriminate].
      exists 0%nat. rewrite Nat.add_0_r.
      split; [simpl; lia|]. split; [reflexivity|]. split; [exact E|].
      intros n' Hn'. lia.
    + destruct (p c) eqn:Hpc; [|discriminate]. intros H.
      apply IH in H as (n & Hn & Hq & Hk & Hmin). exists (S n).
      rewrite Nat.add_succ_r. split; [simpl; lia|].
      split; [simpl; now rewrite Hpc, Hq|]. split; [exact Hk|].
      intros n' Hn'. destruct n' as [|m].
      * assert (min = 0%nat) as -> by lia. rewrite Nat.add_0_r. exact E.
      * rewrite Nat.add_succ_r. apply (Hmin m). lia.
Qed.

(** The lookahead of the pattern. *)
Lemma exec_ahead_line_end pos rest gs :
  is_Some (exec (Ahead (Alt (Chr nl) Dollar)) pos rest gs accept)
  ↔ at_line_end rest = true.
Proof.
  destruct rest as [|c [|c' r]]; simpl; unfold nl;
    [|destruct (is_nl c)..]; simpl;
    (split; [intros [x Hx]; try discriminate; reflexivity
            |intros Hx; try discriminate; eauto]).
Qed.

(** What can follow a value: blanks up to the end of the line. *)
Lemma exec_tail : ∀ rest pos gs,
  is_Some (exec rgx_tail pos rest gs accept) ↔ line_end rest = true.
Proof.
  unfold rgx_tail. intros rest pos gs. rewrite exec_seq, exec_star.
  revert pos gs. induction rest as [|c rest IH]; intros pos gs;
    cbn [rep_greedy when0 line_end].
  - rewrite exec_ahead_line_end. reflexivity.
  - change (Nat.pred 0) with 0%nat. specialize (IH (S pos) gs).
    destruct (blank c) eqn:Hb.
    + destruct (rep_greedy blank 0 (S pos) rest gs
        (λ p r g, exec (Ahead (Alt (Chr nl) Dollar)) p r g accept)) eqn:E;
        cbn [orelse].
      * assert (line_end rest = true) as -> by (apply IH; eauto).
        rewrite orb_true_r. split; eauto.
      * assert (line_end rest = false) as ->.
        { destruct (line_end rest); [|reflexivity].
          destruct (proj2 IH eq_refl) as [x Hx]. discriminate. }
        rewrite exec_ahead_line_end. simpl. now rewrite orb_false_r.
    + rewrite exec_ahead_line_end. simpl. now rewrite orb_false_r.
Qed.

(** The value of a key can stop wherever only blanks are left on the line. *)
Lemma exec_value_complete pos rest n gs :
  (n ≤ String.length rest)%nat →
  str_forall not_nl (str_take n rest) = true →
  line_end (str_drop n rest) = true →
  is_Some (exec rgx_value pos rest gs accept).
Proof.
  intros Hn Hc Hl. unfold rgx_value.
  rewrite exec_seq, exec_group_star_lazy.
  apply (rep_lazy_complete not_nl rest n); [lia|exact Hc|].
  apply (exec_tail (str_drop n rest)). exact Hl.
Qed.

End ReOrder.

Lemma ends_blank_take : ∀ n s,
  (n ≤ String.length s)%nat → ends_blank (str_take n s) = true →
  ∃ m c, n = S m ∧ str_drop m s = String c (str_drop n s) ∧ blank c = true.
Proof.
  induction n as [|n IH]; intros s Hn H.
  - destruct s; discriminate.
  - destruct s as [|a s]; [simpl in Hn; lia|]. simpl in Hn.
    destruct n as [|n].
    + exists 0%nat, a. split; [reflexivity|].
      change (str_drop 1 (String a s)) with (str_drop 0 s).
      rewrite str_drop_0. split; [reflexivity|].
      simpl in H. now destruct s.
    + destruct s as [|a' s]; [simpl in Hn; lia|].
      destruct (IH (String a' s)) as (m & c & Hm & Hd & Hc); [simpl in *; lia| |].
      * exact H.
      * exists (S m), c. split; [now rewrite Hm|]. split; [exact Hd|exact Hc].
Qed.
(** ** The groups of each alternative *)

Module ReLine.
Import Re ReOrder.

Lemma not_nl_end s :
  match s with String c _ => not_nl c = false | EmptyString => True end →
  at_line_end s = true.
Proof.
  destruct s as [|c s]; [reflexivity|]. unfold not_nl. simpl.
  now intros H%negb_false_iff.
Qed.

(** One given character. *)
Lemma exec_chr a pos rest gs (k : cont) res :
  exec (Chr (is_char a)) pos rest gs k = Some res →
  str_take 1 rest = String a EmptyString ∧
  (1 ≤ String.length rest)%nat ∧
  k (pos + 1)%nat (str_drop 1 rest) gs = Some res.
Proof.
  destruct rest as [|c rest]; [discriminate|].
  cbn [exec]. destruct (is_char a c) eqn:E; [|discriminate]. intros H.
  apply Ascii.eqb_eq in E as <-. rewrite Nat.add_1_r.
  split; [now destruct rest|]. split; [simpl; lia|].
  change (str_drop 1 (String a rest)) with (str_drop 0 rest).
  now rewrite str_drop_0.
Qed.

(** A lookahead consumes nothing. *)
Lemma exec_ahead r pos rest gs (k : cont) res :
  exec (Ahead r) pos rest gs k = Some res →
  ∃ e gs', exec r pos rest gs accept = Some (e, gs') ∧
           k pos rest gs' = Some res ∧
           (∀ g, ¬ In g (groups_of r) → gs' g = gs g).
Proof.
  simpl. destruct (exec r pos rest gs accept) as [[e gs']|] eqn:E;
    [|discriminate].
  intros H. exists e, gs'. split; [reflexivity|]. split; [exact H|].
  apply ReFacts.exec_inv in E as (n & gs'' & _ & Hk & Hg).
  unfold accept in Hk. injection Hk as _ ->. exact Hg.
Qed.

Lemma exec_comment pos rest e gs :
  exec rgx_comment pos rest no_groups accept = Some (e, gs) →
  gs 1%nat = None ∧ gs 2%nat ≠ None ∧
  comment_line (str_take (e - pos) rest) ∧
  at_line_end (str_drop (e - pos) rest) = true.
Proof.
  unfold rgx_comment. rewrite exec_seq. intros H.
  apply (ReChars.exec_chars blank) in H as (n0 & gs0 & Hn0 & Hc0 & H & Hg0);
    [|now intros c].
  rewrite exec_seq in H.
  change (exec (Group 2 (Chr (is_char "#"))) (pos + n0) (str_drop n0 rest) gs0
            (λ p r g, exec (Star not_nl) p r g accept))
    with (exec (Chr (is_char "#")) (pos + n0) (str_drop n0 rest) gs0
            (λ p r g, exec (Star not_nl) p r
                        (set_group 2 ((pos + n0)%nat, p) g) accept)) in H.
  apply exec_chr in H as (Hx1 & Hl1 & H). cbv beta in H.
  rewrite exec_star in H.
  apply rep_greedy_accept_end in H as (n2 & -> & -> & Hn2 & Hc2 & Hend).
  split; [|split; [|split]].
  - unfold set_group. simpl. apply Hg0. simpl. tauto.
  - unfold set_group. simpl. discriminate.
  - exists (str_take n0 rest), (str_take n2 (str_drop 1 (str_drop n0 rest))).
    split; [|split; [exact Hc0|exact Hc2]].
    replace (pos + n0 + 1 + n2 - pos)%nat with (n0 + (1 + n2))%nat by lia.
    rewrite str_take_add. f_equal. rewrite str_take_add, Hx1. reflexivity.
  - replace (pos + n0 + 1 + n2 - pos)%nat with (n0 + 1 + n2)%nat by lia.
    rewrite <- !str_drop_drop. apply not_nl_end, Hend.
Qed.

Lemma exec_section pos rest e gs :
  exec rgx_section pos rest no_groups accept = Some (e, gs) →
  gs 1%nat = None ∧ gs 2%nat = None ∧
  ∃ a name,
    gs 3%nat = Some ((pos + a)%nat, (pos + a + String.length name)%nat) ∧
    str_take (String.length name) (str_drop a rest) = name ∧
    section_line (str_take (e - pos) rest) name.
Proof.
  unfold rgx_section. rewrite exec_seq. intros H.
  apply (ReChars.exec_chars blank) in H as (n0 & gs0 & Hn0 & Hc0 & H & Hg0);
    [|now intros c].
  rewrite exec_seq in H. apply exec_chr in H as (Hx1 & Hl1 & H).
  rewrite exec_seq in H.
  apply (ReChars.exec_chars blank) in H as (n2 & gs2 & Hn2 & Hc2 & H & Hg2);
    [|now intros c].
  rewrite exec_seq in H.
  apply (ReChars.exec_group_chars not_nl) in H
    as (n3 & gs3 & Hn3 & Hc3 & H & Hg3 & Hg3'); [|now intros c].
  rewrite exec_seq in H.
  apply (ReChars.exec_chars blank) in H as (n4 & gs4 & Hn4 & Hc4 & H & Hg4);
    [|now intros c].
  rewrite exec_seq in H. apply exec_chr in H as (Hx5 & Hl5 & H).
  apply (ReChars.exec_chars blank) in H as (n6 & gs6 & Hn6 & Hc6 & H & Hg6);
    [|now intros c].
  unfold accept in H. injection H as <- <-.
  assert (Hother : ∀ g, g ≠ 3%nat → gs6 g = None).
  { intros g H3. rewrite Hg6, Hg4, Hg3', Hg2, Hg0; simpl; auto. }
  split; [now apply Hother|]. split; [now apply Hother|].
  set (name := str_take n3 (str_drop n2 (str_drop 1 (str_drop n0 rest)))).
  assert (Hlen : String.length name = n3).
  { apply str_length_take. lia. }
  exists (n0 + 1 + n2)%nat, name. rewrite Hlen. split; [|split].
  - rewrite Hg6, Hg4, Hg3 by (simpl; tauto). f_equal. f_equal; lia.
  - unfold name. rewrite !str_drop_drop. do 2 f_equal; lia.
  - exists (str_take n0 rest), (str_take n2 (str_drop 1 (str_drop n0 rest))),
      (str_take n4 (str_drop n3 (str_drop n2 (str_drop 1 (str_drop n0 rest))))),
      (str_take n6 (str_drop 1 (str_drop n4 (str_drop n3
         (str_drop n2 (str_drop 1 (str_drop n0 rest))))))).
    split; [|split; [exact Hc0|split; [exact Hc2|split; [exact Hc4|
      split; [exact Hc6|split; [|exact Hc3]]]]]].
    + replace (pos + n0 + 1 + n2 + n3 + n4 + 1 + n6 - pos)%nat
        with (n0 + (1 + (n2 + (n3 + (n4 + (1 + n6))))))%nat by lia.
      rewrite str_take_add. f_equal. rewrite str_take_add, Hx1. f_equal.
      rewrite str_take_add. f_equal. rewrite str_take_add. f_equal.
      rewrite str_take_add. f_equal. rewrite str_take_add, Hx5. reflexivity.
    + apply str_take_nonempty. exact Hn3.
Qed.

(** The blanks after the [=], the value and what follows it. *)
Lemma exec_blank_value pos rest gs e gs' :
  exec (Seq (Star blank) rgx_value) pos rest gs accept = Some (e, gs') →
  ∃ n4 n5 n6,
    e = (pos + n4 + n5 + n6)%nat ∧
    (∀ g, gs' g
          = set_group 5 ((pos + n4)%nat, (pos + n4 + n5)%nat) gs g) ∧
    (n4 + n5 + n6 ≤ String.length rest)%nat ∧
    blanks (str_take n4 rest) ∧
    str_forall not_nl (str_take n5 (str_drop n4 rest)) = true ∧
    blanks (str_take n6 (str_drop n5 (str_drop n4 rest))) ∧
    starts_blank (str_take n5 (str_drop n4 rest)) = false ∧
    ends_blank (str_take n5 (str_drop n4 rest)) = false ∧
    at_line_end (str_drop n6 (str_drop n5 (str_drop n4 rest))) = true.
Proof.
  rewrite exec_seq, exec_star. intros H.
  apply rep_greedy_max in H as (n4 & Hn4 & Hc4 & H & Hmax4).
  remember (str_drop n4 rest) as R eqn:ER.
  unfold rgx_value in H. rewrite exec_seq, exec_group_star_lazy in H.
  apply rep_lazy_min in H as (n5 & Hn5 & Hc5 & H & Hmin5).
  cbv beta in H.
  assert (Hle : line_end (str_drop n5 R) = true).
  { apply (exec_tail _ (pos + n4 + n5)%nat
             (set_group 5 ((pos + n4)%nat, (pos + n4 + n5)%nat) gs)).
    unfold rgx_tail. rewrite H. eauto. }
  rewrite exec_seq in H.
  apply (ReChars.exec_chars blank) in H as (n6 & gs6 & Hn6 & Hc6 & H & Hg6);
    [|now intros c].
  assert (Hend : at_line_end (str_drop n6 (str_drop n5 R)) = true).
  { apply (exec_ahead_line_end (pos + n4 + n5 + n6)%nat _ gs6).
    rewrite H. eauto. }
  apply exec_ahead in H as (e' & gs7 & _ & H & Hg7).
  unfold accept in H. injection H as <- <-.
  exists n4, n5, n6. rewrite <- ER. split; [reflexivity|]. split.
  { intros g. rewrite Hg7, Hg6 by (simpl; tauto). reflexivity. }
  rewrite str_length_drop in Hn6.
  assert (HlenR : String.length R = (String.length rest - n4)%nat)
    by (rewrite ER; apply str_length_drop).
  split; [lia|]. split; [exact Hc4|]. split; [exact Hc5|].
  split; [exact Hc6|]. split; [|split; [|exact Hend]].
  - destruct (starts_blank (str_take n5 R)) eqn:Es; [exfalso|reflexivity].
    destruct n5 as [|m]; [destruct R; discriminate|].
    destruct R as [|c R']; [discriminate|]. simpl in Es.
    simpl in Hc5. apply andb_true_iff in Hc5 as [_ Hc5].
    assert (Hd : str_drop (n4 + 1) rest = R').
    { rewrite <- str_drop_drop, <- ER. apply str_drop_0. }
    destruct (exec_value_complete (pos + (n4 + 1))%nat R' m gs) as [x Hx];
      [simpl in Hn5; lia|exact Hc5|exact Hle|].
    specialize (Hmax4 (n4 + 1)%nat). rewrite Hd in Hmax4. cbv beta in Hmax4.
    rewrite Hmax4 in Hx; [discriminate|simpl in HlenR; lia|].
    rewrite str_take_add, str_forall_app, Hc4, <- ER. simpl.
    now rewrite Es.
  - destruct (ends_blank (str_take n5 R)) eqn:Ee; [exfalso|reflexivity].
    apply ends_blank_take in Ee as (m & c & -> & Hd & Hb); [|lia].
    specialize (Hmin5 m). cbv beta in Hmin5. rewrite Hd in Hmin5.
    destruct (proj2 (exec_tail (String c (str_drop (S m) R))
                       (pos + n4 + m)%nat
                       (set_group 5 ((pos + n4)%nat, (pos + n4 + m)%nat) gs)))
      as [x Hx].
    { cbn [line_end]. rewrite Hb, Hle. now rewrite orb_true_r. }
    unfold rgx_tail in Hx. rewrite Hmin5 in Hx; [discriminate|lia].
Qed.

Lemma exec_key_value pos rest e gs :
  exec rgx_key_value pos rest no_groups accept = Some (e, gs) →
  gs 1%nat = None ∧ gs 2%nat = None ∧ gs 3%nat = None ∧
  ∃ a key b value,
    gs 4%nat = Some ((pos + a)%nat, (pos + a + String.length key)%nat) ∧
    str_take (String.length key) (str_drop a rest) = key ∧
    gs 5%nat = Some ((pos + b)%nat, (pos + b + String.length value)%nat) ∧
    str_take (String.length value) (str_drop b rest) = value ∧
    key_value_line (str_take (e - pos) rest) key value ∧
    starts_blank value = false ∧ ends_blank value = false ∧
    at_line_end (str_drop (e - pos) rest) = true.
Proof.
  unfold rgx_key_value. rewrite exec_seq. intros H.
  apply (ReChars.exec_chars blank) in H as (n0 & gs0 & Hn0 & Hc0 & H & Hg0);
    [|now intros c].
  rewrite exec_seq in H.
  apply (ReChars.exec_group_chars not_space) in H
    as (n1 & gs1 & Hn1 & Hc1 & H & Hg1 & Hg1'); [|now intros c].
  rewrite exec_seq in H.
  apply (ReChars.exec_chars blank) in H as (n2 & gs2 & Hn2 & Hc2 & H & Hg2);
    [|now intros c].
  rewrite exec_seq in H. apply exec_chr in H as (Hx3 & Hl3 & H).
  cbv beta in H.
  apply exec_blank_value in H
    as (n4 & n5 & n6 & -> & Hgs & Hlen & Hc4 & Hc5 & Hc6 & Hs & He & Hend).
  assert (Hother : ∀ g, g ≠ 4%nat → g ≠ 5%nat → gs g = None).
  { intros g H4 H5. rewrite Hgs. unfold set_group.
    destruct (Nat.eqb_spec g 5); [lia|].
    rewrite Hg2, Hg1', Hg0; simpl; auto; tauto. }
  split; [now apply Hother|]. split; [now apply Hother|].
  split; [now apply Hother|].
  set (key := str_take n1 (str_drop n0 rest)).
  set (value := str_take n5 (str_drop n4 (str_drop 1 (str_drop n2
                  (str_drop n1 (str_drop n0 rest)))))) in *.
  rewrite !str_length_drop in Hlen.
  assert (Hkey : String.length key = n1) by (apply str_length_take; lia).
  assert (Hvalue : String.length value = n5).
  { apply str_length_take. rewrite !str_length_drop. lia. }
  exists n0, key, (n0 + n1 + n2 + 1 + n4)%nat, value. rewrite Hkey, Hvalue.
  split; [|split; [|split; [|split; [|split; [|split; [|split]]]]]].
  - rewrite Hgs. unfold set_group. simpl. rewrite Hg2, Hg1; simpl; tauto.
  - reflexivity.
  - rewrite Hgs. unfold set_group. simpl. f_equal. f_equal; lia.
  - unfold value. rewrite !str_drop_drop. do 2 f_equal; lia.
  - exists (str_take n0 rest), (str_take n2 (str_drop n1 (str_drop n0 rest))),
      (str_take n4 (str_drop 1 (str_drop n2 (str_drop n1 (str_drop n0 rest))))),
      (str_take n6 (str_drop n5 (str_drop n4 (str_drop 1 (str_drop n2
         (str_drop n1 (str_drop n0 rest))))))).
    split; [|split; [exact Hc0|split; [exact Hc2|split; [exact Hc4|
      split; [exact Hc6|split; [|split; [exact Hc1|exact Hc5]]]]]]].
    + replace (pos + n0 + n1 + n2 + 1 + n4 + n5 + n6 - pos)%nat
        with (n0 + (n1 + (n2 + (1 + (n4 + (n5 + n6))))))%nat by lia.
      rewrite str_take_add. f_equal. rewrite str_take_add. f_equal.
      rewrite str_take_add. f_equal. rewrite str_take_add, Hx3. f_equal.
      rewrite str_take_add. f_equal. rewrite str_take_add. reflexivity.
    + apply str_take_nonempty. exact Hn1.
  - exact Hs.
  - exact He.
  - replace (pos + n0 + n1 + n2 + 1 + n4 + n5 + n6 - pos)%nat
      with (n0 + n1 + n2 + 1 + n4 + n5 + n6)%nat by lia.
    rewrite <- !str_drop_drop. exact Hend.
Qed.

Lemma exec_unknown pos rest e gs :
  exec rgx_unknown pos rest no_groups accept = Some (e, gs) →
  (∀ g, gs g = None) ∧
  str_take (e - pos) rest ≠ "" ∧
  str_forall not_nl (str_take (e - pos) rest) = true ∧
  at_line_end (str_drop (e - pos) rest) = true.
Proof.
  unfold rgx_unknown. rewrite exec_plus. intros H.
  apply rep_greedy_accept_end in H as (n & -> & -> & Hn & Hc & Hend).
  replace (pos + n - pos)%nat with n by lia.
  split; [reflexivity|]. split; [now apply str_take_nonempty|].
  split; [exact Hc|]. apply not_nl_end, Hend.
Qed.

(** The alternative that gave the match. *)
Lemma exec_line pos rest e gs :
  exec rgx_line pos rest no_groups accept = Some (e, gs) →
  exec rgx_comment pos rest no_groups accept = Some (e, gs) ∨
  exec rgx_section pos rest no_groups accept = Some (e, gs) ∨
  exec rgx_key_value pos rest no_groups accept = Some (e, gs) ∨
  exec rgx_unknown pos rest no_groups accept = Some (e, gs).
Proof.
  unfold rgx_line.
  change (exec (Alt rgx_comment (Alt rgx_section
            (Alt rgx_key_value rgx_unknown))) pos rest no_groups accept)
    with (orelse (exec rgx_comment pos rest no_groups accept)
           (orelse (exec rgx_section pos rest no_groups accept)
              (orelse (exec rgx_key_value pos rest no_groups accept)
                 (exec rgx_unknown pos rest no_groups accept)))).
  destruct (exec rgx_comment pos rest no_groups accept); cbn [orelse];
    [intros H; now left|].
  destruct (exec rgx_section pos rest no_groups accept); cbn [orelse];
    [intros H; right; now left|].
  destruct (exec rgx_key_value pos rest no_groups accept); cbn [orelse];
    intros H; right; right; [now left|now right].
Qed.

(** The first alternative, or one of the others. *)
Lemma exec_ini_parser pos rest e gs :
  exec rgx_ini_parser pos rest no_groups accept = Some (e, gs) →
  gs 1%nat ≠ None ∨ exec rgx_line pos rest no_groups accept = Some (e, gs).
Proof.
  rewrite rgx_ini_parser_alternatives.
  change (exec (Alt (Group 1 (Chr nl)) rgx_line) pos rest no_groups accept)
    with (orelse (exec (Group 1 (Chr nl)) pos rest no_groups accept)
            (exec rgx_line pos rest no_groups accept)).
  destruct (exec (Group 1 (Chr nl)) pos rest no_groups accept) as [r|] eqn:E;
    cbn [orelse]; [|intros H; now right].
  intros [= ->]. left.
  apply (ReChars.exec_group_chars nl) in E as (n & gs' & _ & _ & H & Hg & _);
    [|now intros c].
  unfold accept in H. injection H as _ <-. now rewrite Hg.
Qed.

End ReLine.
(** ** The shape of the fragments *)

Lemma elem_of_scan s m : ∀ rest pos skip,
  str_drop pos s = rest →
  m ∈ Re.scan rgx_ini_parser s pos rest skip →
  ∃ p e gs,
    m = Re.mkMatch s p e gs ∧
    Re.exec rgx_ini_parser p (str_drop p s) Re.no_groups Re.accept
      = Some (e, gs).
Proof.
  induction rest as [|c rest IH]; intros pos skip Hs.
  - destruct skip; [|intros H; inversion H].
    rewrite scan_end, rgx_ini_parser_end. intros H; inversion H.
  - destruct skip as [|skip].
    + rewrite scan_here.
      destruct (Re.exec rgx_ini_parser pos (String c rest) Re.no_groups
                  Re.accept) as [[e gs]|] eqn:E.
      * intros [->|H]%elem_of_cons.
        -- exists pos, e, gs. now rewrite Hs.
        -- eapply IH; [|exact H]. eapply str_drop_succ, Hs.
      * apply IH. eapply str_drop_succ, Hs.
    + rewrite scan_skip. apply IH. eapply str_drop_succ, Hs.
Qed.

Lemma to_fragment_newline m :
  Re.m_groups m 1%nat ≠ None → _to_fragment m = newline_fragment.
Proof.
  unfold _to_fragment, Re.has_group. now destruct (Re.m_groups m 1%nat).
Qed.

Lemma to_fragment_comment m :
  Re.m_groups m 1%nat = None → Re.m_groups m 2%nat ≠ None →
  _to_fragment m = Fragment0 (Re.group0 m) Comment.
Proof.
  unfold _to_fragment, Re.has_group. intros ->.
  now destruct (Re.m_groups m 2%nat).
Qed.

Lemma to_fragment_section m sp :
  Re.m_groups m 1%nat = None → Re.m_groups m 2%nat = None →
  Re.m_groups m 3%nat = Some sp →
  _to_fragment m = Fragment1 (Re.group0 m) Section_ (Re.group_str m 3).
Proof. unfold _to_fragment, Re.has_group. now intros -> -> ->. Qed.

Lemma to_fragment_key_value m sp :
  Re.m_groups m 1%nat = None → Re.m_groups m 2%nat = None →
  Re.m_groups m 3%nat = None → Re.m_groups m 4%nat = Some sp →
  _to_fragment m
  = mkFragment (Re.group0 m) KeyValue (Re.group_str m 4) (Re.group_str m 5).
Proof. unfold _to_fragment, Re.has_group. now intros -> -> -> ->. Qed.

Lemma to_fragment_unknown m :
  (∀ g, Re.m_groups m g = None) →
  _to_fragment m = Fragment0 (Re.group0 m) Unknown.
Proof. unfold _to_fragment, Re.has_group. intros H. now rewrite !H. Qed.

Lemma group_str_at s p e gs g a n :
  gs g = Some ((p + a)%nat, (p + a + n)%nat) →
  Re.group_str (Re.mkMatch s p e gs) g
  = str_take n (str_drop a (str_drop p s)).
Proof.
  intros H. unfold Re.group_str, Re.group. cbn [Re.m_groups Re.m_string].
  rewrite H. cbn [default]. apply str_slice_at.
Qed.

(** A fragment of the parser comes from a match of the pattern; the match
    is a newline or one of the four kinds of line. *)
Lemma parsed_cases (content : string) (f : ConfigurationFragment) :
  f ∈ parse_configuration content →
  ∃ p e gs,
    f = _to_fragment (Re.mkMatch content p e gs) ∧
    (gs 1%nat ≠ None ∨
     Re.exec rgx_comment p (str_drop p content) Re.no_groups Re.accept
       = Some (e, gs) ∨
     Re.exec rgx_section p (str_drop p content) Re.no_groups Re.accept
       = Some (e, gs) ∨
     Re.exec rgx_key_value p (str_drop p content) Re.no_groups Re.accept
       = Some (e, gs) ∨
     Re.exec rgx_unknown p (str_drop p content) Re.no_groups Re.accept
       = Some (e, gs)).
Proof.
  unfold parse_configuration, Re.finditer.
  intros (m & -> & Hm)%elem_of_map.
  apply (elem_of_scan content m content 0%nat 0%nat (str_drop_0 content))
    in Hm as (p & e & gs & -> & He).
  exists p, e, gs. split; [reflexivity|].
  apply ReLine.exec_ini_parser in He as [H1|He]; [now left|right].
  now apply ReLine.exec_line.
Qed.

(** X14 ([parse_configuration], [_to_fragment], [rgx_ini_parser]): every
    fragment of the parser has the shape of its kind.  A [NewLine] fragment
    is the one-character newline fragment.  The text of a [Comment] is
    blanks, a [#] and characters other than the newline.  The text of a
    [Section] is its name between brackets, with blanks around the brackets
    and around the name; the name is not empty and has no newline.  The text
    of a [KeyValue] is its key, an [=] and its value with blanks around each;
    the key is not empty and has no white space, the value has no newline.
    The text of an [Unknown] fragment is not empty and has no newline.  The
    values that a kind does not set are empty. *)
Theorem parsed_fragment_shape (content : string)
    (f : ConfigurationFragment) :
  f ∈ parse_configuration content →
  match kind f with
  | NewLine => f = newline_fragment
  | Comment => comment_line (text f) ∧ value1 f = "" ∧ value2 f = ""
  | Section_ => section_line (text f) (value1 f) ∧ value2 f = ""
  | KeyValue => key_value_line (text f) (value1 f) (value2 f)
  | Unknown =>
      text f ≠ "" ∧ str_forall not_nl (text f) = true ∧
      value1 f = "" ∧ value2 f = ""
  end.
Proof.
  intros (p & e & gs & -> & [H1|[He|[He|[He|He]]]])%parsed_cases.
  - rewrite to_fragment_newline by exact H1. reflexivity.
  - apply ReLine.exec_comment in He as (H1 & H2 & Hshape & _).
    rewrite to_fragment_comment by assumption.
    cbn [kind Fragment0 text value1 value2]. now split.
  - apply ReLine.exec_section in He as (H1 & H2 & a & name & H3 & Hn & Hshape).
    rewrite (to_fragment_section (Re.mkMatch content p e gs) _ H1 H2 H3).
    cbn [kind Fragment1 text value1 value2].
    rewrite (group_str_at _ _ _ _ _ _ _ H3), Hn. now split.
  - apply ReLine.exec_key_value in He
      as (H1 & H2 & H3 & a & key & b & value & H4 & Hk & H5 & Hv & Hshape
          & _).
    rewrite (to_fragment_key_value (Re.mkMatch content p e gs) _ H1 H2 H3 H4).
    cbn [kind text value1 value2].
    rewrite (group_str_at _ _ _ _ _ _ _ H4), (group_str_at _ _ _ _ _ _ _ H5).
    rewrite Hk, Hv. exact Hshape.
  - apply ReLine.exec_unknown in He as (Hg & Hne & Hc & _).
    rewrite to_fragment_unknown by exact Hg.
    cbn [kind Fragment0 text value1 value2]. now split.
Qed.

Lemma parsed_fragment_shape_witness :
  Fragment1 " [ globals ] " Section_ "globals"
    ∈ parse_configuration (" [ globals ] " +:+ newline_str +:+ "a = b") ∧
  section_line " [ globals ] " "globals".
Proof.
  assert (H : Fragment1 " [ globals ] " Section_ "globals"
    ∈ parse_configuration (" [ globals ] " +:+ newline_str +:+ "a = b")).
  { vm_compute. apply list_elem_of_here. }
  split; [exact H|].
  exact (proj1 (parsed_fragment_shape _ _ H)).
Defined.

(** The kind of the fragment of each kind of match. *)
Lemma parsed_kind (content : string) (p e : nat) (gs : Re.groups) :
  let f := _to_fragment (Re.mkMatch content p e gs) in
  let rest := str_drop p content in
  (gs 1%nat ≠ None → kind f = NewLine) ∧
  (Re.exec rgx_comment p rest Re.no_groups Re.accept = Some (e, gs) →
   kind f = Comment) ∧
  (Re.exec rgx_section p rest Re.no_groups Re.accept = Some (e, gs) →
   kind f = Section_) ∧
  (Re.exec rgx_key_value p rest Re.no_groups Re.accept = Some (e, gs) →
   kind f = KeyValue) ∧
  (Re.exec rgx_unknown p rest Re.no_groups Re.accept = Some (e, gs) →
   kind f = Unknown).
Proof.
  cbv zeta. split; [|split; [|split; [|split]]].
  - intros H1. now rewrite to_fragment_newline.
  - intros (H1 & H2 & _)%ReLine.exec_comment.
    now rewrite to_fragment_comment.
  - intros (H1 & H2 & a & name & H3 & _)%ReLine.exec_section.
    now rewrite (to_fragment_section (Re.mkMatch content p e gs) _ H1 H2 H3).
  - intros (H1 & H2 & H3 & a & key & b & value & H4 & _)%ReLine.exec_key_value.
    now rewrite
      (to_fragment_key_value (Re.mkMatch content p e gs) _ H1 H2 H3 H4).
  - intros (Hg & _)%ReLine.exec_unknown. now rewrite to_fragment_unknown.
Qed.

(** X15 ([rgx_ini_parser], [_to_fragment]): the value of a [KeyValue]
    fragment is trimmed: neither its first nor its last character is a space
    or a tab. *)
Theorem key_value_trimmed (content : string) (f : ConfigurationFragment) :
  f ∈ parse_configuration content → kind f = KeyValue →
  starts_blank (value2 f) = false ∧ ends_blank (value2 f) = false.
Proof.
  intros (p & e & gs & -> & Hcases)%parsed_cases Hkind.
  destruct (parsed_kind content p e gs) as (K1 & K2 & K3 & _ & K5).
  destruct Hcases as [H|[H|[H|[He|H]]]];
    [apply K1 in H|apply K2 in H|apply K3 in H| |apply K5 in H];
    try congruence.
  apply ReLine.exec_key_value in He
    as (H1 & H2 & H3 & a & key & b & value & H4 & _ & H5 & Hv & _ & Hs & He
        & _).
  rewrite (to_fragment_key_value (Re.mkMatch content p e gs) _ H1 H2 H3 H4).
  cbn [value2]. rewrite (group_str_at _ _ _ _ _ _ _ H5), Hv. now split.
Qed.

Lemma key_value_trimmed_witness :
  mkFragment " a =  b c  " KeyValue "a" "b c" ∈ parse_configuration " a =  b c  " ∧
  starts_blank "b c" = false ∧ ends_blank "b c" = false.
Proof.
  assert (H : mkFragment " a =  b c  " KeyValue "a" "b c"
                ∈ parse_configuration " a =  b c  ").
  { vm_compute. apply list_elem_of_here. }
  split; [exact H|].
  exact (key_value_trimmed _ _ H eq_refl).
Defined.

(** ** Lines end at a newline *)

Lemma scan_head s : ∀ rest pos skip m l,
  str_drop pos s = rest →
  Re.scan rgx_ini_parser s pos rest skip = m :: l →
  ∃ e gs,
    m = Re.mkMatch s (pos + skip) e gs ∧
    Re.exec rgx_ini_parser (pos + skip)%nat (str_drop (pos + skip) s)
      Re.no_groups Re.accept = Some (e, gs).
Proof.
  induction rest as [|c rest IH]; intros pos skip m l Hs.
  - destruct skip; [|discriminate].
    rewrite scan_end, rgx_ini_parser_end. discriminate.
  - destruct skip as [|skip].
    + rewrite scan_here.
      destruct (rgx_ini_parser_here pos c rest) as (e & gs & He & _).
      rewrite He. intros [= <- _]. exists e, gs.
      rewrite Nat.add_0_r, Hs. now split.
    + rewrite scan_skip, Nat.add_succ_r. apply (IH (S pos)).
      eapply str_drop_succ, Hs.
Qed.

(** Two matches in a row: the second starts where the first ends. *)
Lemma scan_adjacent s : ∀ rest pos skip l1 m m' l2,
  str_drop pos s = rest →
  Re.scan rgx_ini_parser s pos rest skip = l1 ++ m :: m' :: l2 →
  ∃ p e gs e' gs',
    m = Re.mkMatch s p e gs ∧ m' = Re.mkMatch s e e' gs' ∧
    Re.exec rgx_ini_parser p (str_drop p s) Re.no_groups Re.accept
      = Some (e, gs) ∧
    Re.exec rgx_ini_parser e (str_drop e s) Re.no_groups Re.accept
      = Some (e', gs').
Proof.
  induction rest as [|c rest IH]; intros pos skip l1 m m' l2 Hs.
  - destruct skip; [|destruct l1; discriminate].
    rewrite scan_end, rgx_ini_parser_end. destruct l1; discriminate.
  - destruct skip as [|skip].
    + rewrite scan_here.
      destruct (rgx_ini_parser_here pos c rest) as (e & gs & He & Hlt & _).
      rewrite He. destruct l1 as [|x l1]; simpl.
      * intros [= <- Htail].
        apply scan_head in Htail as (e' & gs' & -> & He');
          [|eapply str_drop_succ, Hs].
        replace (S pos + (e - pos - 1))%nat with e in * by lia.
        exists pos, e, gs, e', gs'. rewrite Hs. now repeat split.
      * intros [= _ Htail]. eapply IH; [|exact Htail].
        eapply str_drop_succ, Hs.
    + rewrite scan_skip. apply IH. eapply str_drop_succ, Hs.
Qed.

Lemma exec_ini_parser_newline pos c r e gs :
  nl c = true →
  Re.exec rgx_ini_parser pos (String c r) Re.no_groups Re.accept
    = Some (e, gs) →
  gs 1%nat ≠ None.
Proof.
  intros Hc. rewrite rgx_ini_parser_alternatives.
  change (Re.exec (Re.Alt (Re.Group 1 (Re.Chr nl)) rgx_line) pos (String c r)
            Re.no_groups Re.accept)
    with (Re.orelse
            (if nl c
             then Re.accept (S pos) r
                    (Re.set_group 1 (pos, S pos) Re.no_groups)
             else None)
            (Re.exec rgx_line pos (String c r) Re.no_groups Re.accept)).
  rewrite Hc. unfold Re.accept. cbn [Re.orelse]. intros [= <- <-].
  unfold Re.set_group. simpl. discriminate.
Qed.

(** X16 ([rgx_ini_parser], [parse_configuration]): a comment, a key with
    its value and an unknown line run to the end of their line: the fragment
    that follows one of them is a newline fragment. *)
Theorem line_runs_to_newline (content : string)
    (l1 l2 : list ConfigurationFragment) (f g : ConfigurationFragment) :
  parse_configuration content = l1 ++ f :: g :: l2 →
  kind f = Comment ∨ kind f = KeyValue ∨ kind f = Unknown →
  g = newline_fragment.
Proof.
  unfold parse_configuration, Re.finditer. intros Heq Hkind.
  apply map_eq_app in Heq as (ms1 & ms & Hscan & _ & Hms).
  apply map_eq_cons in Hms as (m & ms' & -> & <- & Hms).
  apply map_eq_cons in Hms as (m' & ms2 & -> & <- & _).
  apply (scan_adjacent content content 0%nat 0%nat) in Hscan
    as (p & e & gs & e' & gs' & -> & -> & He & He'); [|apply str_drop_0].
  assert (Hpe : (p ≤ e)%nat).
  { apply ReFacts.exec_accept_inv in He as [He _]. lia. }
  assert (Hend : at_line_end (str_drop e content) = true).
  { replace e with (p + (e - p))%nat at 1 by lia. rewrite <- str_drop_drop.
    destruct (parsed_kind content p e gs) as (K1 & _ & K3 & _).
    apply ReLine.exec_ini_parser in He as [H1|He];
      [apply K1 in H1; destruct Hkind as [?|[?|?]]; congruence|].
    apply ReLine.exec_line in He as [He|[He|[He|He]]].
    - now apply ReLine.exec_comment in He as (_ & _ & _ & Hend).
    - apply K3 in He. destruct Hkind as [?|[?|?]]; congruence.
    - now apply ReLine.exec_key_value in He
        as (_ & _ & _ & a & key & b & value & _ & _ & _ & _ & _ & _ & _
            & Hend).
    - now apply ReLine.exec_unknown in He as (_ & _ & _ & Hend). }
  apply to_fragment_newline. cbn [Re.m_groups].
  destruct (str_drop e content) as [|c r] eqn:E.
  - rewrite rgx_ini_parser_end in He'. discriminate.
  - eapply exec_ini_parser_newline; [exact Hend|exact He'].
Qed.

Lemma line_runs_to_newline_witness :
  parse_configuration ("# one" +:+ newline_str +:+ "k=v")
  = [] ++ Fragment0 "# one" Comment :: newline_fragment
       :: [mkFragment "k=v" KeyValue "k" "v"] ∧
  newline_fragment = newline_fragment.
Proof.
  assert (H : parse_configuration ("# one" +:+ newline_str +:+ "k=v")
              = [] ++ Fragment0 "# one" Comment :: newline_fragment
                  :: [mkFragment "k=v" KeyValue "k" "v"])
    by reflexivity.
  split; [exact H|].
  exact (line_runs_to_newline _ _ _ _ _ H (or_introl eq_refl)).
Defined.
(** ** Versions *)

Lemma str_length_app a b :
  String.length (a +:+ b) = (String.length a + String.length b)%nat.
Proof.
  induction a as [|c a IH]; [reflexivity|].
  change (String c a +:+ b) with (String c (a +:+ b)). simpl. now rewrite IH.
Qed.

Lemma str_app_assoc a b c : (a +:+ b) +:+ c = a +:+ b +:+ c.
Proof.
  induction a as [|x a IH]; [reflexivity|].
  change (String x (a +:+ b +:+ c)) with (String x a +:+ b +:+ c).
  change ((String x a +:+ b) +:+ c) with (String x ((a +:+ b) +:+ c)).
  now rewrite IH.
Qed.

Lemma str_take_app_length a b : str_take (String.length a) (a +:+ b) = a.
Proof.
  induction a as [|x a IH]; [now destruct b|].
  change (String x a +:+ b) with (String x (a +:+ b)). simpl. now rewrite IH.
Qed.

Lemma str_drop_app_length a b : str_drop (String.length a) (a +:+ b) = b.
Proof.
  induction a as [|x a IH]; [apply str_drop_0|].
  change (String x a +:+ b) with (String x (a +:+ b)). simpl. exact IH.
Qed.

(** The piece [b] of [a ++ b ++ c]. *)
Lemma str_slice_app a b c i j :
  i = String.length a → j = (String.length a + String.length b)%nat →
  str_slice i j (a +:+ b +:+ c) = b.
Proof.
  intros -> ->. unfold str_slice. rewrite str_drop_app_length.
  replace (String.length a + String.length b - String.length a)%nat
    with (String.length b) by lia.
  apply str_take_app_length.
Qed.

Module ReVersion.
Import Re ReOrder.

Lemma exec_caret r rest gs (k : cont) :
  exec (Seq Caret r) 0 rest gs k = exec r 0 rest gs k.
Proof. reflexivity. Qed.

Lemma exec_group_plus g p pos rest gs (k : cont) :
  exec (Group g (Plus p)) pos rest gs k
  = rep_greedy p 1 pos rest gs
      (λ pos' rest' gs', k pos' rest' (set_group g (pos, pos') gs')).
Proof. reflexivity. Qed.

Lemma exec_group_star g p pos rest gs (k : cont) :
  exec (Group g (Star p)) pos rest gs k
  = rep_greedy p 0 pos rest gs
      (λ pos' rest' gs', k pos' rest' (set_group g (pos, pos') gs')).
Proof. reflexivity. Qed.

Lemma exec_chr_run a r pos rest gs (k : cont) :
  exec (Seq (Chr (is_char a)) r) pos (String a EmptyString +:+ rest) gs k
  = exec r (S pos) rest gs k.
Proof.
  change (String a EmptyString +:+ rest) with (String a rest).
  rewrite exec_seq. cbn [exec]. unfold is_char. now rewrite Ascii.eqb_refl.
Qed.

(** A greedy repetition takes a run of the class that ends the string or is
    followed by a character outside the class, when the continuation accepts
    what comes after. *)
Lemma rep_greedy_run p : ∀ d rest min pos gs (k : cont) res,
  str_forall p d = true → (min ≤ String.length d)%nat →
  match rest with String c _ => p c = false | EmptyString => True end →
  k (pos + String.length d)%nat rest gs = Some res →
  rep_greedy p min pos (d +:+ rest) gs k = Some res.
Proof.
  induction d as [|a d IH]; intros rest min pos gs k res Hd Hmin Hrest Hk.
  - simpl in Hmin. assert (min = 0%nat) as -> by lia.
    simpl in Hk. rewrite Nat.add_0_r in Hk.
    change (EmptyString +:+ rest) with rest.
    destruct rest as [|c r]; cbn [rep_greedy when0]; [exact Hk|].
    rewrite Hrest. exact Hk.
  - simpl in Hd. apply andb_true_iff in Hd as [Ha Hd].
    change (String a d +:+ rest) with (String a (d +:+ rest)).
    cbn [rep_greedy]. rewrite Ha.
    rewrite (IH rest (Nat.pred min) (S pos) gs k res);
      [reflexivity|exact Hd|simpl in Hmin; lia|exact Hrest|].
    simpl in Hk. rewrite Nat.add_succ_r in Hk. exact Hk.
Qed.

(** Before a continuation that always accepts, a greedy repetition stops at
    a character that is not in the class, or at the end. *)
Lemma rep_greedy_end p rest min pos gs (k : cont) res :
  (∀ p' r g, is_Some (k p' r g)) →
  rep_greedy p min pos rest gs k = Some res →
  ∃ n, (min ≤ n ≤ String.length rest)%nat ∧
       str_forall p (str_take n rest) = true ∧
       k (pos + n)%nat (str_drop n rest) gs = Some res ∧
       match str_drop n rest with
       | String c _ => p c = false
       | EmptyString => True
       end.
Proof.
  intros Hk H. apply rep_greedy_max in H as (n & Hn & Hc & H & Hmax).
  exists n. split; [exact Hn|]. split; [exact Hc|]. split; [exact H|].
  destruct (str_drop n rest) as [|c r] eqn:E; [exact I|].
  destruct (p c) eqn:Hpc; [exfalso|reflexivity].
  assert (Hlen := str_length_drop n rest). rewrite E in Hlen. simpl in Hlen.
  destruct (Hk (pos + (n + 1))%nat (str_drop (n + 1) rest) gs) as [x Hx].
  rewrite (Hmax (n + 1)%nat) in Hx; [discriminate|lia|].
  rewrite str_take_add, str_forall_app, Hc, E. simpl. now rewrite Hpc.
Qed.

Lemma rep_greedy_total p rest pos gs (k : cont) :
  (∀ p' r g, is_Some (k p' r g)) → is_Some (rep_greedy p 0 pos rest gs k).
Proof.
  intros Hk. apply (rep_greedy_complete p rest 0); [lia|reflexivity|].
  apply Hk.
Qed.

(** What a match of [rgx_version] at the start of [s] consumed. *)
Lemma rgx_version_inv s e gs :
  exec rgx_version 0 s no_groups accept = Some (e, gs) →
  ∃ n1 n2 n3 n4 : nat,
    let p2 := (n1 + 1)%nat in
    let p3 := (p2 + n2 + 1)%nat in
    let p4 := (p3 + n3)%nat in
    e = (p4 + n4)%nat ∧ (e ≤ String.length s)%nat ∧
    (1 ≤ n1)%nat ∧ (1 ≤ n2)%nat ∧ (1 ≤ n3)%nat ∧
    gs 1%nat = Some (0%nat, n1) ∧ gs 2%nat = Some (p2, (p2 + n2)%nat) ∧
    gs 3%nat = Some (p3, (p3 + n3)%nat) ∧
    gs 4%nat = Some (p4, (p4 + n4)%nat) ∧
    str_forall digit (str_take n1 s) = true ∧
    str_take 1 (str_drop n1 s) = "." ∧
    str_forall digit (str_take n2 (str_drop p2 s)) = true ∧
    str_take 1 (str_drop (p2 + n2) s) = "." ∧
    str_forall digit (str_take n3 (str_drop p3 s)) = true ∧
    str_forall not_nl (str_take n4 (str_drop p4 s)) = true ∧
    starts_digit (str_drop p4 s) = false ∧
    at_line_end (str_drop (p4 + n4) s) = true.
Proof.
  unfold rgx_version. rewrite exec_caret, exec_seq. intros H.
  apply (ReChars.exec_group_chars digit) in H
    as (n1 & gs1 & Hn1 & Hc1 & H & Hg1 & Hg1'); [|now intros c].
  rewrite exec_seq in H. apply ReLine.exec_chr in H as (Hx1 & Hl1 & H).
  rewrite exec_seq in H.
  apply (ReChars.exec_group_chars digit) in H
    as (n2 & gs2 & Hn2 & Hc2 & H & Hg2 & Hg2'); [|now intros c].
  rewrite exec_seq in H. apply ReLine.exec_chr in H as (Hx2 & Hl2 & H).
  rewrite exec_seq, exec_group_plus in H.
  apply rep_greedy_end in H as (n3 & Hn3 & Hc3 & H & Hend3).
  2:{ intros p' r g. cbv beta. rewrite exec_group_star.
      apply rep_greedy_total. intros. unfold accept. eauto. }
  cbv beta in H. rewrite exec_group_star in H.
  apply rep_greedy_end in H as (n4 & Hn4 & Hc4 & H & Hend4).
  2:{ intros. unfold accept. eauto. }
  cbv beta in H. unfold accept in H. injection H as <- <-.
  repeat match goal with
         | H : context [String.length (str_drop _ _)] |- _ =>
             rewrite str_length_drop in H
         end.
  cbn [min_len] in Hn1, Hn2.
  exists n1, n2, n3, n4. cbv zeta.
  split; [reflexivity|]. split; [lia|]. split; [lia|]. split; [lia|].
  split; [lia|].
  split.
  { unfold set_group. simpl. rewrite Hg2' by (simpl; lia || tauto).
    exact Hg1. }
  split; [unfold set_group; simpl; exact Hg2|].
  split; [unfold set_group; simpl; reflexivity|].
  split; [unfold set_group; simpl; reflexivity|].
  split; [exact Hc1|]. split; [exact Hx1|].
  rewrite !str_drop_drop in Hc2. rewrite !str_drop_drop in Hx2.
  rewrite !str_drop_drop in Hc3. rewrite !str_drop_drop in Hc4.
  split; [rewrite <- Hc2; repeat (f_equal; try lia)|].
  split; [rewrite <- Hx2; repeat (f_equal; try lia)|].
  split; [rewrite <- Hc3; repeat (f_equal; try lia)|].
  split; [rewrite <- Hc4; repeat (f_equal; try lia)|]. split.
  - replace (str_drop n3 (str_drop 1 (str_drop n2 (str_drop 1
               (str_drop n1 s)))))
      with (str_drop (n1 + 1 + n2 + 1 + n3) s) in Hend3
      by (rewrite !str_drop_drop; f_equal; lia).
    destruct (str_drop (n1 + 1 + n2 + 1 + n3) s); [reflexivity|].
    exact Hend3.
  - apply ReLine.not_nl_end.
    replace (str_drop n4 (str_drop n3 (str_drop 1 (str_drop n2 (str_drop 1
               (str_drop n1 s))))))
      with (str_drop (n1 + 1 + n2 + 1 + n3 + n4) s) in Hend4
      by (rewrite !str_drop_drop; f_equal; lia).
    exact Hend4.
Qed.

(** The match of [rgx_version] on a string of the expected form. *)
Lemma rgx_version_run d1 d2 d3 suffix tail :
  str_forall digit d1 = true → (1 ≤ String.length d1)%nat →
  str_forall digit d2 = true → (1 ≤ String.length d2)%nat →
  str_forall digit d3 = true → (1 ≤ String.length d3)%nat →
  str_forall not_nl suffix = true → starts_digit suffix = false →
  at_line_end tail = true →
  let s := d1 +:+ "." +:+ d2 +:+ "." +:+ d3 +:+ suffix +:+ tail in
  ∃ m, match_ rgx_version s = Some m ∧
       group_str m 1 = d1 ∧ group_str m 2 = d2 ∧ group_str m 3 = d3 ∧
       group_str m 4 = suffix.
Proof.
  intros H1 L1 H2 L2 H3 L3 H4 Hs Ht s.
  set (p2 := S (0 + String.length d1)).
  set (p3 := S (p2 + String.length d2)).
  set (p4 := (p3 + String.length d3)%nat).
  set (gs := set_group 4 (p4, (p4 + String.length suffix)%nat)
               (set_group 3 (p3, (p3 + String.length d3)%nat)
                  (set_group 2 (p2, (p2 + String.length d2)%nat)
                     (set_group 1 (0%nat, (0 + String.length d1)%nat)
                        no_groups)))).
  assert (He : exec rgx_version 0 s no_groups accept
               = Some ((p4 + String.length suffix)%nat, gs)).
  { unfold rgx_version, s. rewrite exec_caret, exec_seq, exec_group_plus.
    apply rep_greedy_run; [exact H1|exact L1|reflexivity|]. cbv beta.
    rewrite exec_chr_run, exec_seq, exec_group_plus.
    apply rep_greedy_run; [exact H2|exact L2|reflexivity|]. cbv beta.
    rewrite exec_chr_run, exec_seq, exec_group_plus.
    apply rep_greedy_run; [exact H3|exact L3| |].
    { destruct suffix as [|c suffix]; [|exact Hs].
      change (EmptyString +:+ tail) with tail.
      destruct tail as [|c tail]; [exact I|]. simpl in Ht.
      unfold nl, is_nl in Ht. apply Ascii.eqb_eq in Ht as ->. reflexivity. }
    cbv beta. rewrite exec_group_star.
    apply rep_greedy_run; [exact H4|lia| |reflexivity].
    destruct tail as [|c tail]; [exact I|]. simpl in Ht.
    unfold not_nl. fold (nl c). now rewrite Ht. }
  exists (mkMatch s 0 (p4 + String.length suffix) gs). split.
  { unfold match_. now rewrite He. }
  unfold group_str, group, gs, set_group.
  cbn [m_groups m_string Nat.eqb default].
  assert (E1 : s = EmptyString +:+ d1 +:+ ("." +:+ d2 +:+ "." +:+ d3
                     +:+ suffix +:+ tail)) by reflexivity.
  assert (E2 : s = (d1 +:+ ".") +:+ d2 +:+ ("." +:+ d3 +:+ suffix +:+ tail)).
  { unfold s. now rewrite !str_app_assoc. }
  assert (E3 : s = (d1 +:+ "." +:+ d2 +:+ ".") +:+ d3 +:+ (suffix +:+ tail)).
  { unfold s. now rewrite !str_app_assoc. }
  assert (E4 : s = (d1 +:+ "." +:+ d2 +:+ "." +:+ d3) +:+ suffix +:+ tail).
  { unfold s. now rewrite !str_app_assoc. }
  split; [|split; [|split]].
  - rewrite E1. now apply str_slice_app.
  - rewrite E2. apply str_slice_app; unfold p2; rewrite !str_length_app;
      simpl; lia.
  - rewrite E3. apply str_slice_app; unfold p3, p2;
      rewrite !str_length_app; simpl; lia.
  - rewrite E4. apply str_slice_app; unfold p4, p3, p2;
      rewrite !str_length_app; simpl; lia.
Qed.

End ReVersion.
(** ** Parsing and printing a version *)

Lemma str_app_nil_r s : s +:+ "" = s.
Proof.
  induction s as [|c s IH]; [reflexivity|].
  change (String c s +:+ "") with (String c (s +:+ "")). now rewrite IH.
Qed.

(** [int] reads the digits of a decimal number from the left. *)
Lemma int_from_uint d : ∀ acc,
  int_from acc (DecimalString.NilEmpty.string_of_uint d)
  = (acc * 10 ^ DecimalPos.Unsigned.usize d
     + DecimalPos.Unsigned.of_lu (Decimal.rev d))%N.
Proof.
  induction d as [|d IH|d IH|d IH|d IH|d IH|d IH|d IH|d IH|d IH|d IH];
    intros acc;
    [simpl; lia|..];
    cbn [DecimalString.NilEmpty.string_of_uint int_from
         DecimalPos.Unsigned.usize];
    rewrite IH;
    match goal with
    | |- context [Decimal.rev (?c d)] =>
        change (Decimal.rev (c d)) with (Decimal.revapp d (c Decimal.Nil))
    end;
    rewrite DecimalPos.Unsigned.of_lu_revapp, N.pow_succ_r';
    match goal with
    | |- context [(N_of_ascii ?a - 48)%N] =>
        let k := eval vm_compute in (N_of_ascii a - 48)%N in
        change (N_of_ascii a - 48)%N with k
    end;
    cbn [DecimalPos.Unsigned.of_lu]; lia.
Qed.

Lemma int_str_of_N n : int (str_of_N n) = n.
Proof.
  unfold int, str_of_N. rewrite int_from_uint.
  rewrite <- DecimalPos.Unsigned.of_uint_alt.
  change (Pos.of_uint (N.to_uint n)) with (N.of_uint (N.to_uint n)).
  rewrite DecimalN.Unsigned.of_to. lia.
Qed.

Lemma string_of_uint_digits d :
  str_forall digit (DecimalString.NilEmpty.string_of_uint d) = true.
Proof.
  induction d; [reflexivity|..];
    cbn [DecimalString.NilEmpty.string_of_uint str_forall];
    rewrite IHd; reflexivity.
Qed.

Lemma str_of_N_digits n :
  str_forall digit (str_of_N n) = true ∧ (1 ≤ String.length (str_of_N n))%nat.
Proof.
  split; [apply string_of_uint_digits|].
  unfold str_of_N. destruct n as [|p]; [simpl; lia|].
  cbn [N.to_uint]. pose proof (DecimalPos.Unsigned.to_uint_nonnil p) as Hp.
  destruct (Pos.to_uint p); [congruence|..]; simpl; lia.
Qed.

(** What [__init__] accepted. *)
Lemma version_init_inv s v :
  RedemptionVersion_init s = inr v →
  ∃ d1 d2 d3 tail,
    s = d1 +:+ "." +:+ d2 +:+ "." +:+ d3 +:+ revision v +:+ tail ∧
    (str_forall digit d1 = true ∧ (1 ≤ String.length d1)%nat) ∧
    (str_forall digit d2 = true ∧ (1 ≤ String.length d2)%nat) ∧
    (str_forall digit d3 = true ∧ (1 ≤ String.length d3)%nat) ∧
    major v = int d1 ∧ minor v = int d2 ∧ build v = int d3 ∧
    str_forall not_nl (revision v) = true ∧
    starts_digit (revision v) = false ∧
    at_line_end tail = true.
Proof.
  unfold RedemptionVersion_init, Re.match_.
  destruct (Re.exec rgx_version 0 s Re.no_groups Re.accept) as [[e gs]|] eqn:E;
    [|discriminate].
  intros [= <-]. cbn [major minor build revision].
  apply ReVersion.rgx_version_inv in E
    as (n1 & n2 & n3 & n4 & -> & Hlen & L1 & L2 & L3 & G1 & G2 & G3 & G4
        & C1 & X1 & C2 & X2 & C3 & C4 & Hs & Ht).
  rewrite (group_str_at s 0 _ gs 1 0 n1 G1).
  rewrite (group_str_at s 0 _ gs 2 (n1 + 1) n2 G2).
  rewrite (group_str_at s 0 _ gs 3 (n1 + 1 + n2 + 1) n3 G3).
  rewrite (group_str_at s 0 _ gs 4 (n1 + 1 + n2 + 1 + n3) n4 G4).
  change (str_drop 0 s) with s.
  exists (str_take n1 s), (str_take n2 (str_drop (n1 + 1) s)),
    (str_take n3 (str_drop (n1 + 1 + n2 + 1) s)),
    (str_drop (n1 + 1 + n2 + 1 + n3 + n4) s).
  split.
  { rewrite <- (str_take_drop (n1 + 1 + n2 + 1 + n3 + n4) s) at 1.
    replace (n1 + 1 + n2 + 1 + n3 + n4)%nat
      with (n1 + (1 + (n2 + (1 + (n3 + n4)))))%nat at 1 by lia.
    rewrite str_take_add, str_app_assoc. f_equal.
    rewrite str_take_add, X1, str_app_assoc. f_equal.
    rewrite str_drop_drop, str_take_add, str_app_assoc. f_equal.
    rewrite str_drop_drop, str_take_add, X2, str_app_assoc. f_equal.
    rewrite str_drop_drop, str_take_add, str_app_assoc. f_equal.
    now rewrite str_drop_drop. }
  rewrite !str_length_take by (rewrite ?str_length_drop; lia).
  split; [now split|]. split; [now split|]. split; [now split|].
  split; [reflexivity|]. split; [reflexivity|]. split; [reflexivity|].
  split; [exact C4|]. split; [|exact Ht].
  destruct n4; [now destruct (str_drop _ s)|].
  now destruct (str_drop (n1 + 1 + n2 + 1 + n3) s).
Qed.

(** X17 ([RedemptionVersion.__init__], [rgx_version]): a string that
    [__init__] accepts starts with three runs of digits separated by dots;
    the major, minor and build numbers are the values of the runs, the
    revision is what follows up to the end of the line; it has no newline
    and does not start with a digit.  (The string is taken short enough for
    [int] to convert its runs of digits.) *)
Theorem version_parse_shape (s : string) (v : RedemptionVersion) :
  RedemptionVersion_init s = inr v →
  (String.length s ≤ int_max_str_digits)%nat →
  ∃ d1 d2 d3 tail,
    s = d1 +:+ "." +:+ d2 +:+ "." +:+ d3 +:+ revision v +:+ tail ∧
    digits d1 ∧ digits d2 ∧ digits d3 ∧
    __part v = (int d1, int d2, int d3, revision v) ∧
    str_forall not_nl (revision v) = true ∧
    starts_digit (revision v) = false ∧
    at_line_end tail = true.
Proof.
  intros (d1 & d2 & d3 & tail & Hs & [C1 L1] & [C2 L2] & [C3 L3] & Hma & Hmi
          & Hb & Hr & Hd & Ht)%version_init_inv Hlen.
  exists d1, d2, d3, tail. split; [exact Hs|].
  rewrite Hs, !str_length_app in Hlen.
  assert (Hdigits : ∀ d, str_forall digit d = true →
            (1 ≤ String.length d ≤ int_max_str_digits)%nat → digits d).
  { intros d Hc Hl. split; [|split; [exact Hc|lia]].
    intros ->. simpl in Hl. lia. }
  split; [apply Hdigits; [exact C1|lia]|].
  split; [apply Hdigits; [exact C2|lia]|].
  split; [apply Hdigits; [exact C3|lia]|].
  split; [unfold __part; now rewrite Hma, Hmi, Hb|].
  now split.
Qed.

Lemma version_parse_shape_witness :
  RedemptionVersion_init "9.1.39-rc1" = inr (mkVersion 9 1 39 "-rc1") ∧
  (String.length "9.1.39-rc1" ≤ int_max_str_digits)%nat ∧
  ∃ d1 d2 d3 tail,
    "9.1.39-rc1" = d1 +:+ "." +:+ d2 +:+ "." +:+ d3 +:+ "-rc1" +:+ tail ∧
    digits d1 ∧ digits d2 ∧ digits d3.
Proof.
  assert (H : RedemptionVersion_init "9.1.39-rc1"
              = inr (mkVersion 9 1 39 "-rc1")) by reflexivity.
  assert (L : (String.length "9.1.39-rc1" ≤ int_max_str_digits)%nat)
    by (unfold int_max_str_digits; simpl; lia).
  split; [exact H|]. split; [exact L|].
  destruct (version_parse_shape _ _ H L)
    as (d1 & d2 & d3 & tail & Hs & D1 & D2 & D3 & _).
  exists d1, d2, d3, tail.
  split; [exact Hs|]. split; [exact D1|]. split; [exact D2|exact D3].
Defined.

(** X18 ([RedemptionVersion.__init__], [rgx_version]): [__init__] accepts
    three runs of digits separated by dots and followed by a suffix that has
    no newline and does not start with a digit, whatever comes on the next
    lines; the numbers are the values of the runs and the revision is the
    suffix. *)
Theorem version_parse_complete (d1 d2 d3 suffix tail : string) :
  digits d1 → digits d2 → digits d3 →
  str_forall not_nl suffix = true → starts_digit suffix = false →
  at_line_end tail = true →
  RedemptionVersion_init
    (d1 +:+ "." +:+ d2 +:+ "." +:+ d3 +:+ suffix +:+ tail)
  = inr (mkVersion (int d1) (int d2) (int d3) suffix).
Proof.
  intros (N1 & C1 & _) (N2 & C2 & _) (N3 & C3 & _) Hs Hd Ht.
  assert (Hlen : ∀ d, d ≠ "" → (1 ≤ String.length d)%nat).
  { intros [|c d] Hne; [congruence|simpl; lia]. }
  destruct (ReVersion.rgx_version_run d1 d2 d3 suffix tail)
    as (m & Hm & G1 & G2 & G3 & G4); auto.
  cbv zeta in Hm. unfold RedemptionVersion_init.
  now rewrite Hm, G1, G2, G3, G4.
Qed.

Lemma version_parse_complete_witness :
  digits "10" ∧ digits "0" ∧ digits "7" ∧
  RedemptionVersion_init
    ("10" +:+ "." +:+ "0" +:+ "." +:+ "7" +:+ "c" +:+ newline_str)
  = inr (mkVersion 10 0 7 "c").
Proof.
  assert (D : ∀ d, d ≠ "" → str_forall digit d = true →
                   (String.length d ≤ 10)%nat → digits d).
  { intros d H1 H2 H3. split; [exact H1|]. split; [exact H2|].
    unfold int_max_str_digits. lia. }
  assert (D1 : digits "10") by (apply D; [discriminate|reflexivity|simpl; lia]).
  assert (D2 : digits "0") by (apply D; [discriminate|reflexivity|simpl; lia]).
  assert (D3 : digits "7") by (apply D; [discriminate|reflexivity|simpl; lia]).
  split; [exact D1|]. split; [exact D2|]. split; [exact D3|].
  exact (version_parse_complete "10" "0" "7" "c" newline_str D1 D2 D3
           eq_refl eq_refl eq_refl).
Defined.

(** X19 ([RedemptionVersion.__str__], [RedemptionVersion.__init__]): the
    string that [__str__] gives for a parsed version is accepted by
    [__init__], which gives the same four parts again.  (The parsed string
    is taken short enough for [int] to convert its runs of digits; the
    numbers then print in no more digits than they were read from.) *)
Theorem version_str_roundtrip (s : string) (v : RedemptionVersion) :
  RedemptionVersion_init s = inr v →
  (String.length s ≤ int_max_str_digits)%nat →
  RedemptionVersion_init (__str__ v) = inr v.
Proof.
  intros (d1 & d2 & d3 & tail & _ & _ & _ & _ & _ & _ & _ & Hr & Hd & _)
           %version_init_inv _.
  destruct (str_of_N_digits (major v)) as [C1 L1].
  destruct (str_of_N_digits (minor v)) as [C2 L2].
  destruct (str_of_N_digits (build v)) as [C3 L3].
  destruct (ReVersion.rgx_version_run (str_of_N (major v))
              (str_of_N (minor v)) (str_of_N (build v)) (revision v) "")
    as (m & Hm & G1 & G2 & G3 & G4); auto.
  cbv zeta in Hm. rewrite str_app_nil_r in Hm.
  unfold RedemptionVersion_init, __str__.
  rewrite Hm, G1, G2, G3, G4, !int_str_of_N. now destruct v.
Qed.

Lemma version_str_roundtrip_witness :
  RedemptionVersion_init "09.01.039b" = inr (mkVersion 9 1 39 "b") ∧
  __str__ (mkVersion 9 1 39 "b") = "9.1.39b" ∧
  RedemptionVersion_init (__str__ (mkVersion 9 1 39 "b"))
  = inr (mkVersion 9 1 39 "b").
Proof.
  assert (H : RedemptionVersion_init "09.01.039b"
              = inr (mkVersion 9 1 39 "b")) by reflexivity.
  assert (L : (String.length "09.01.039b" ≤ int_max_str_digits)%nat)
    by (unfold int_max_str_digits; simpl; lia).
  split; [exact H|]. split; [reflexivity|].
  exact (version_str_roundtrip _ _ H L).
Defined.
(** ** The catalog *)

Lemma dict_of_lookup_None {V} (pairs : list (string * V)) (name : string) :
  name ∉ map fst pairs → dict_of pairs !! name = None.
Proof.
  unfold dict_of.
  assert (H : ∀ d : gmap string V, d !! name = None →
            name ∉ map fst pairs →
            foldl (λ d kv, <[fst kv := snd kv]> d) d pairs !! name = None).
  { induction pairs as [|[k v] pairs IH]; intros d Hd Hn; [exact Hd|].
    cbn [foldl]. apply IH.
    - cbn [fst snd]. rewrite lookup_insert_ne; [exact Hd|].
      intros ->. apply Hn. simpl. left.
    - intros Hin. apply Hn. simpl. now right. }
  apply H. apply lookup_empty.
Qed.

(** The catalog has rules for the sections of [catalog_sections] only. *)
Lemma catalog_rules (t : MigrationType) (name : string) :
  t ∈ migration_defs → name ∉ catalog_sections → snd t !! name = None.
Proof.
  unfold migration_defs, catalog_sections. intros Ht Hn.
  repeat (apply elem_of_cons in Ht as [->|Ht]); [..|inversion Ht];
    cbn [snd]; apply dict_of_lookup_None; cbn [map fst];
    intros Hin; apply Hn; revert Hin; rewrite !elem_of_cons; tauto.
Qed.

Lemma migrate_fragments_same (l : list MigrationType)
    (fragments : list ConfigurationFragment) :
  (∀ t, t ∈ l → migrate fragments (snd t) = (false, fragments)) →
  foldl (λ '(is_changed, fragments) '(_, desc),
      let '(is_updated, fragments) := migrate fragments desc in
      (is_changed || is_updated, fragments))
    (false, fragments) l = (false, fragments).
Proof.
  induction l as [|[v desc] l IH]; intros H; [reflexivity|].
  assert (Hm : migrate fragments desc = (false, fragments))
    by (apply (H (v, desc)); left).
  cbn [foldl]. rewrite Hm. cbn [orb].
  apply IH. intros t Ht. apply H. now right.
Qed.

(** X20 ([migrate_file], [migration_defs], [migrate]): the catalog of the
    program leaves alone a file that has none of the sections [globals],
    [rdp], [video] and [all_target_mod]: whatever the previous version is,
    the loop of [migrate_file] reports no change and gives the fragments it
    read, so the file is not written. *)
Theorem catalog_untouched (version : RedemptionVersion)
    (fragments : list ConfigurationFragment) :
  (∀ f, f ∈ fragments → kind f = Section_ → value1 f ∉ catalog_sections) →
  migrate_fragments migration_defs version fragments = (false, fragments).
Proof.
  intros Hfile. unfold migrate_fragments. apply migrate_fragments_same.
  intros t [Ht _]%migration_filter_elem.
  unfold migrate, migration_def_to_actions.
  rewrite (no_target_actions (snd t) fragments); try easy.
  intros f Hf Hk. left. apply catalog_rules; [exact Ht|]. now apply Hfile.
Qed.

Lemma catalog_untouched_witness :
  (∀ f, f ∈ mod_rdp_file → kind f = Section_ →
        value1 f ∉ catalog_sections) ∧
  migrate_fragments migration_defs (mkVersion 9 1 0 "") mod_rdp_file
  = (false, mod_rdp_file).
Proof.
  assert (H : ∀ f, f ∈ mod_rdp_file → kind f = Section_ →
                   value1 f ∉ catalog_sections).
  { intros f Hf Hk. apply list_elem_of_In in Hf. simpl in Hf.
    destruct Hf as [<-|[<-|[<-|[<-|[]]]]]; try discriminate.
    apply not_elem_of_cons; split; [discriminate|].
    apply not_elem_of_cons; split; [discriminate|].
    apply not_elem_of_cons; split; [discriminate|].
    apply not_elem_of_cons; split; [discriminate|]. apply not_elem_of_nil. }
  split; [exact H|].
  exact (catalog_untouched (mkVersion 9 1 0 "") mod_rdp_file H).
Defined.
(** ** Newlines *)

Lemma class_blank_not_nl c : blank c = true → not_nl c = true.
Proof.
  unfold blank, not_nl, Re.is_nl. intros H.
  apply orb_true_iff in H as [H|H]; apply Ascii.eqb_eq in H; now subst.
Qed.

Lemma class_char_not_nl a c :
  a ≠ newline_char → is_char a c = true → not_nl c = true.
Proof.
  unfold is_char, not_nl, Re.is_nl. intros Ha H. apply Ascii.eqb_eq in H.
  subst. apply negb_true_iff, Ascii.eqb_neq. exact Ha.
Qed.

Lemma class_not_space_not_nl c : not_space c = true → not_nl c = true.
Proof.
  unfold not_space, not_nl, Re.is_nl. intros H.
  destruct (Ascii.eqb_spec c "010"%char) as [->|]; [|reflexivity].
  vm_compute in H. discriminate.
Qed.

(** No alternative of the pattern after the first consumes a newline. *)
Lemma consumes_line : consumes not_nl rgx_line.
Proof.
  unfold rgx_line, rgx_comment, rgx_section, rgx_key_value, rgx_value,
    rgx_unknown. cbn [consumes].
  repeat split;
    first [ exact class_blank_not_nl
          | exact class_not_space_not_nl
          | (intros c H; exact H)
          | (intros c; apply class_char_not_nl; discriminate) ].
Qed.

Lemma line_text content r p e gs :
  consumes not_nl r →
  Re.exec r p (str_drop p content) Re.no_groups Re.accept = Some (e, gs) →
  str_forall not_nl (str_take (e - p) (str_drop p content)) = true.
Proof.
  intros Hr H.
  apply (ReChars.exec_chars not_nl r Hr) in H as (n & gs' & _ & Hc & H & _).
  unfold Re.accept in H. injection H as <- _.
  now replace (p + n - p)%nat with n by lia.
Qed.

Lemma to_fragment_text m :
  Re.m_groups m 1%nat = None → text (_to_fragment m) = Re.group0 m.
Proof.
  unfold _to_fragment, Re.has_group. intros ->.
  destruct (Re.m_groups m 2%nat); [reflexivity|].
  destruct (Re.m_groups m 3%nat); [reflexivity|].
  now destruct (Re.m_groups m 4%nat).
Qed.

(** A fragment is the newline fragment or has no newline. *)
Lemma parsed_text content f :
  f ∈ parse_configuration content →
  (kind f = NewLine ∧ text f = newline_str) ∨
  (kind f ≠ NewLine ∧ str_forall not_nl (text f) = true).
Proof.
  intros (p & e & gs & -> & Hcases)%parsed_cases.
  destruct (parsed_kind content p e gs) as (K1 & K2 & K3 & K4 & K5).
  destruct consumes_line as (C2 & C3 & C4 & C5).
  destruct Hcases as [H|[H|[H|[H|H]]]].
  - left. now rewrite to_fragment_newline.
  - right. split; [rewrite (K2 H); discriminate|].
    rewrite to_fragment_text by now apply ReLine.exec_comment in H.
    exact (line_text content rgx_comment p e gs C2 H).
  - right. split; [rewrite (K3 H); discriminate|].
    rewrite to_fragment_text by now apply ReLine.exec_section in H.
    exact (line_text content rgx_section p e gs C3 H).
  - right. split; [rewrite (K4 H); discriminate|].
    rewrite to_fragment_text by now apply ReLine.exec_key_value in H.
    exact (line_text content rgx_key_value p e gs C4 H).
  - right. split; [rewrite (K5 H); discriminate|].
    rewrite to_fragment_text by now apply ReLine.exec_unknown in H.
    exact (line_text content rgx_unknown p e gs C5 H).
Qed.

Lemma count_nl_app a b : count_nl (a +:+ b) = (count_nl a + count_nl b)%nat.
Proof.
  induction a as [|c a IH]; [reflexivity|].
  change (String c a +:+ b) with (String c (a +:+ b)). simpl.
  rewrite IH. lia.
Qed.

Lemma count_nl_none s : str_forall not_nl s = true → count_nl s = 0%nat.
Proof.
  induction s as [|c s IH]; [reflexivity|]. simpl.
  intros [Hc Hs]%andb_true_iff. unfold not_nl in Hc. unfold nl.
  apply negb_true_iff in Hc. rewrite Hc. now rewrite IH.
Qed.

Lemma count_nl_join (l : list ConfigurationFragment) :
  (∀ f, f ∈ l →
     (kind f = NewLine ∧ text f = newline_str) ∨
     (kind f ≠ NewLine ∧ str_forall not_nl (text f) = true)) →
  count_nl (str_join (map text l))
  = length (filter (λ f, kind f = NewLine) l).
Proof.
  induction l as [|f l IH]; intros H; [reflexivity|].
  cbn [map str_join foldr]. rewrite count_nl_app.
  fold (str_join (map text l)). rewrite IH by (intros g Hg; apply H; now right).
  rewrite filter_cons.
  destruct (H f) as [[Hk Ht]|[Hk Ht]]; [left| |].
  - rewrite Ht. destruct (decide (kind f = NewLine)); [reflexivity|easy].
  - rewrite (count_nl_none _ Ht).
    destruct (decide (kind f = NewLine)); [easy|reflexivity].
Qed.

(** X21 ([parse_configuration], [rgx_ini_parser]): the parser keeps the
    lines of the input: it returns one NewLine fragment for each newline
    character of the content, and no other fragment has a newline in its
    text. *)
Theorem newline_fragments (content : string) :
  length (filter (λ f, kind f = NewLine) (parse_configuration content))
  = count_nl content ∧
  ∀ f, f ∈ parse_configuration content → kind f ≠ NewLine →
       count_nl (text f) = 0%nat.
Proof.
  split.
  - rewrite <- count_nl_join by apply parsed_text.
    unfold parse_configuration, Re.finditer.
    rewrite (scan_texts content content 0 0);
      [now rewrite str_drop_0|reflexivity|simpl; lia].
  - intros f [[Hk _]|[_ Ht]]%parsed_text Hne; [easy|].
    now apply count_nl_none.
Qed.

(** ** Lines that a migration commented out *)

Lemma rep_greedy_all p : ∀ d pos gs,
  str_forall p d = true →
  Re.rep_greedy p 0 pos d gs Re.accept
  = Some ((pos + String.length d)%nat, gs).
Proof.
  induction d as [|c d IH]; intros pos gs Hd.
  - simpl. now rewrite Nat.add_0_r.
  - simpl in Hd. apply andb_true_iff in Hd as [Hc Hd].
    cbn [Re.rep_greedy]. rewrite Hc.
    change (Nat.pred 0) with 0%nat. rewrite IH by exact Hd.
    cbn [Re.orelse String.length]. now rewrite Nat.add_succ_r.
Qed.

Lemma scan_skip_rest s : ∀ rest pos,
  Re.scan rgx_ini_parser s pos rest (String.length rest) = [].
Proof.
  induction rest as [|c rest IH]; intros pos.
  - cbn [String.length]. now rewrite scan_end, rgx_ini_parser_end.
  - cbn [String.length]. rewrite scan_skip. apply IH.
Qed.

Lemma str_take_all s : str_take (String.length s) s = s.
Proof. induction s as [|c s IH]; [reflexivity|]. simpl. now rewrite IH. Qed.

(** X22 ([migrate], [parse_configuration], [rgx_ini_parser]): a line that
    a migration commented out is read back as a comment: the text that
    [migrate] writes for a replaced fragment, a [#] before the text of the
    fragment, is parsed as the one Comment fragment that [migrate] made. *)
Theorem commented_line_parsed (f : ConfigurationFragment) :
  str_forall not_nl (text f) = true →
  parse_configuration (text (commented f)) = [commented f].
Proof.
  intros Hf. unfold commented. cbn [text Fragment0].
  set (t := text f) in *.
  change ("#" +:+ t) with (String "#" t).
  unfold parse_configuration, Re.finditer. rewrite scan_here.
  assert (He : Re.exec rgx_ini_parser 0 (String "#" t) Re.no_groups Re.accept
               = Some (S (String.length t),
                       Re.set_group 2 (0%nat, 1%nat) Re.no_groups)).
  { change (Re.exec rgx_ini_parser 0 (String "#" t) Re.no_groups Re.accept)
      with (Re.orelse
              (Re.rep_greedy not_nl 0 1 t
                 (Re.set_group 2 (0%nat, 1%nat) Re.no_groups) Re.accept)
              (Re.exec (rgx_section </> rgx_key_value </> rgx_unknown) 0
                 (String "#" t) Re.no_groups Re.accept)).
    now rewrite rep_greedy_all. }
  rewrite He.
  replace (S (String.length t) - 0 - 1)%nat with (String.length t) by lia.
  rewrite scan_skip_rest. cbn [map].
  rewrite to_fragment_comment by (cbn [Re.m_groups]; easy).
  unfold Re.group0, str_slice. cbn [Re.m_start Re.m_end Re.m_string].
  change (str_take (S (String.length t) - 0) (str_drop 0 (String "#" t)))
    with (String "#" (str_take (String.length t) t)).
  now rewrite str_take_all.
Qed.

Lemma commented_line_parsed_witness :
  str_forall not_nl (text (key_value_fragment "port" "3389")) = true ∧
  parse_configuration "#port=3389"
  = [Fragment0 "#port=3389" Comment].
Proof.
  assert (H : str_forall not_nl (text (key_value_fragment "port" "3389"))
              = true) by reflexivity.
  split; [exact H|].
  exact (commented_line_parsed (key_value_fragment "port" "3389") H).
Defined.
(** ** Lines that a migration wrote *)

Module ReForward.
Import Re ReOrder.

(** A greedy repetition takes nothing when the continuation refuses every
    run that is not empty. *)
Lemma rep_greedy_stop p rest pos gs (k : cont) :
  (∀ n, (1 ≤ n ≤ String.length rest)%nat →
        str_forall p (str_take n rest) = true →
        k (pos + n)%nat (str_drop n rest) gs = None) →
  rep_greedy p 0 pos rest gs k = k pos rest gs.
Proof.
  intros H. destruct rest as [|c r]; [reflexivity|].
  cbn [rep_greedy when0]. destruct (p c) eqn:Hc; [|reflexivity].
  change (Nat.pred 0) with 0%nat.
  destruct (rep_greedy p 0 (S pos) r gs k) eqn:E; [exfalso|reflexivity].
  apply (ReChars.rep_greedy_chars p p) in E as (n & Hn & Hq & Hk); [|auto].
  specialize (H (S n)). rewrite Nat.add_succ_r in H.
  change (str_drop (S n) (String c r)) with (str_drop n r) in H.
  change (S pos + n)%nat with (S (pos + n)) in Hk.
  rewrite H in Hk; [discriminate|simpl; lia|]. simpl. now rewrite Hc, Hq.
Qed.

(** A greedy repetition settles on the run [d] when the continuation
    accepts after it and refuses after every longer run. *)
Lemma rep_greedy_pick p : ∀ d rest min pos gs (k : cont) res,
  str_forall p d = true → (min ≤ String.length d)%nat →
  (∀ n, (1 ≤ n ≤ String.length rest)%nat →
        str_forall p (str_take n rest) = true →
        k (pos + String.length d + n)%nat (str_drop n rest) gs = None) →
  k (pos + String.length d)%nat rest gs = Some res →
  rep_greedy p min pos (d +:+ rest) gs k = Some res.
Proof.
  induction d as [|a d IH]; intros rest min pos gs k res Hd Hmin Hno Hk.
  - simpl in Hmin. assert (min = 0%nat) as -> by lia.
    change (EmptyString +:+ rest) with rest.
    simpl in Hk, Hno. rewrite Nat.add_0_r in Hk.
    rewrite rep_greedy_stop; [exact Hk|].
    intros n Hn Hc. specialize (Hno n Hn Hc).
    now rewrite Nat.add_0_r in Hno.
  - simpl in Hd. apply andb_true_iff in Hd as [Ha Hd].
    change (String a d +:+ rest) with (String a (d +:+ rest)).
    cbn [rep_greedy]. rewrite Ha.
    rewrite (IH rest (Nat.pred min) (S pos) gs k res);
      [reflexivity|exact Hd|simpl in Hmin; lia| |].
    + intros n Hn Hc. specialize (Hno n Hn Hc). simpl in Hno.
      rewrite Nat.add_succ_r in Hno. exact Hno.
    + simpl in Hk. rewrite Nat.add_succ_r in Hk. exact Hk.
Qed.

(** A lazy repetition settles on the run [d] when the continuation accepts
    after it and refuses after every shorter run. *)
Lemma rep_lazy_pick p : ∀ d rest min pos gs (k : cont) res,
  str_forall p d = true → (min ≤ String.length d)%nat →
  (∀ n, (min ≤ n < String.length d)%nat →
        k (pos + n)%nat (str_drop n (d +:+ rest)) gs = None) →
  k (pos + String.length d)%nat rest gs = Some res →
  rep_lazy p min pos (d +:+ rest) gs k = Some res.
Proof.
  induction d as [|a d IH]; intros rest min pos gs k res Hd Hmin Hno Hk.
  - simpl in Hmin. assert (min = 0%nat) as -> by lia.
    change (EmptyString +:+ rest) with rest.
    simpl in Hk. rewrite Nat.add_0_r in Hk.
    destruct rest; cbn [rep_lazy when0]; rewrite Hk; reflexivity.
  - simpl in Hd. apply andb_true_iff in Hd as [Ha Hd].
    change (String a d +:+ rest) with (String a (d +:+ rest)) in *.
    cbn [rep_lazy]. rewrite Ha.
    assert (H0 : when0 min (k pos (String a (d +:+ rest)) gs) = None).
    { destruct min; [|reflexivity]. cbn [when0].
      specialize (Hno 0%nat). rewrite Nat.add_0_r in Hno.
      apply Hno. simpl. lia. }
    rewrite H0. cbn [orelse].
    apply IH; [exact Hd|simpl in Hmin; lia| |].
    + intros n Hn. specialize (Hno (S n)). rewrite Nat.add_succ_r in Hno.
      apply Hno. simpl. lia.
    + simpl in Hk. rewrite Nat.add_succ_r in Hk. exact Hk.
Qed.

Lemma str_forall_drop q : ∀ n s,
  str_forall q s = true → str_forall q (str_drop n s) = true.
Proof.
  induction n as [|n IH]; intros [|c s] H; try exact H.
  simpl in H. apply andb_true_iff in H as [_ H]. now apply IH.
Qed.

(** Blanks and then the character [a] cannot match where there is no [a]. *)
Lemma exec_without a r X pos gs (k : cont) :
  without a r = true →
  exec (Seq (Star blank) (Seq (Chr (is_char a)) X)) pos r gs k = None.
Proof.
  intros Hr.
  destruct (exec (Seq (Star blank) (Seq (Chr (is_char a)) X)) pos r gs k)
    eqn:E; [exfalso|reflexivity].
  rewrite exec_seq in E.
  apply (ReChars.exec_chars blank) in E as (n0 & gs0 & _ & _ & E & _);
    [|now intros c].
  rewrite exec_seq in E. apply ReLine.exec_chr in E as (Hx & _ & _).
  apply (str_forall_drop _ n0) in Hr.
  destruct (str_drop n0 r) as [|c r']; [discriminate|].
  simpl in Hx. injection Hx as ->. simpl in Hr.
  unfold is_char in Hr. now rewrite Ascii.eqb_refl in Hr.
Qed.

Lemma ends_blank_drop : ∀ n v,
  (n < String.length v)%nat → ends_blank (str_drop n v) = ends_blank v.
Proof.
  induction n as [|n IH]; intros [|c v] Hn; try reflexivity.
  simpl in Hn.
  change (str_drop (S n) (String c v)) with (str_drop n v).
  rewrite IH by lia. destruct v; [simpl in Hn; lia|reflexivity].
Qed.

Lemma blanks_ends_blank : ∀ v,
  v ≠ "" → str_forall blank v = true → ends_blank v = true.
Proof.
  induction v as [|c v IH]; [easy|]. intros _ Hc.
  simpl in Hc. apply andb_true_iff in Hc as [Hc Hv].
  destruct v as [|c' v]; [exact Hc|]. cbn [ends_blank]. now apply IH.
Qed.

(** Inside a value that is trimmed, more than blanks is left on the line. *)
Lemma line_end_inside : ∀ v n,
  str_forall not_nl v = true → ends_blank v = false →
  (n < String.length v)%nat → line_end (str_drop n v) = false.
Proof.
  assert (Hall : ∀ v, str_forall not_nl v = true →
            line_end v = true → str_forall blank v = true).
  { induction v as [|c v IH]; [easy|]. intros Hc Hl.
    simpl in Hc. apply andb_true_iff in Hc as [Hc Hv].
    cbn [line_end] in Hl. unfold not_nl in Hc. fold (nl c) in Hc.
    apply negb_true_iff in Hc. rewrite Hc in Hl. cbn [orb] in Hl.
    apply andb_true_iff in Hl as [Hb Hl]. simpl. rewrite Hb. now apply IH. }
  intros v n Hc He Hn.
  destruct (line_end (str_drop n v)) eqn:Hl; [exfalso|reflexivity].
  apply Hall in Hl; [|now apply str_forall_drop].
  apply blanks_ends_blank in Hl.
  - rewrite ends_blank_drop in Hl by exact Hn. congruence.
  - intros H. apply (f_equal String.length) in H.
    rewrite str_length_drop in H. simpl in H. lia.
Qed.

(** Blanks and then the character [a] cannot match before the [a] that
    ends the string when something other than blanks comes first. *)
Lemma exec_until a r X pos gs (k : cont) :
  r ≠ "" → without a r = true → ends_blank r = false → blank a = false →
  exec (Seq (Star blank) (Seq (Chr (is_char a)) X)) pos
    (r +:+ String a EmptyString) gs k = None.
Proof.
  intros Hne Hr He Ha.
  assert (Haux : ∀ r n0, without a r = true →
            str_forall blank (str_take n0 (r +:+ String a EmptyString))
              = true →
            str_take 1 (str_drop n0 (r +:+ String a EmptyString))
              = String a EmptyString →
            str_forall blank r = true).
  { clear r Hne Hr He. induction r as [|c r IH]; intros n0 Hr Hb Hx;
      [reflexivity|].
    change (String c r +:+ String a EmptyString)
      with (String c (r +:+ String a EmptyString)) in *.
    unfold without in Hr. simpl in Hr.
    apply andb_true_iff in Hr as [Hc Hr].
    destruct n0 as [|n0].
    - simpl in Hx. injection Hx as ->. unfold is_char in Hc.
      now rewrite Ascii.eqb_refl in Hc.
    - simpl in Hb. apply andb_true_iff in Hb as [Hb1 Hb2].
      simpl. rewrite Hb1. apply (IH n0); [exact Hr|exact Hb2|exact Hx]. }
  destruct (exec (Seq (Star blank) (Seq (Chr (is_char a)) X)) pos
              (r +:+ String a EmptyString) gs k) eqn:E;
    [exfalso|reflexivity].
  rewrite exec_seq in E.
  apply (ReChars.exec_chars blank) in E as (n0 & gs0 & _ & Hb & E & _);
    [|now intros c].
  rewrite exec_seq in E. apply ReLine.exec_chr in E as (Hx & _ & _).
  apply Haux in Hx; [|exact Hr|exact Hb].
  apply blanks_ends_blank in Hx; [congruence|exact Hne].
Qed.

Lemma exec_group_plus_lazy g p pos rest gs (k : cont) :
  exec (Group g (PlusLazy p)) pos rest gs k
  = rep_lazy p 1 pos rest gs
      (λ pos' rest' gs', k pos' rest' (set_group g (pos, pos') gs')).
Proof. reflexivity. Qed.

End ReForward.

Lemma class_not_space c : not_space c = true → blank c = false ∧ nl c = false.
Proof.
  intros H. split.
  - destruct (blank c) eqn:Hb; [|reflexivity].
    unfold blank in Hb. apply orb_true_iff in Hb as [Hb|Hb];
      apply Ascii.eqb_eq in Hb; subst; vm_compute in H; discriminate.
  - apply class_not_space_not_nl in H. unfold not_nl in H.
    now apply negb_true_iff in H.
Qed.

(** The first character of a match that is not empty. *)
Lemma first_char_take n s c :
  first_char s = Some c → str_take n s ≠ "" → first_char (str_take n s) = Some c.
Proof.
  destruct s as [|c' s]; [discriminate|]. intros [= ->].
  destruct n; [easy|reflexivity].
Qed.

(** The match of the pattern on a line [key=value]. *)
Lemma exec_key_value_line key value :
  key ≠ "" → str_forall not_space key = true →
  first_char key ≠ Some "#"%char → first_char key ≠ Some "["%char →
  str_forall not_nl value = true → without "=" value = true →
  starts_blank value = false → ends_blank value = false →
  let s := key +:+ "=" +:+ value in
  let p5 := S (String.length key) in
  ∃ gs,
    Re.exec rgx_ini_parser 0 s Re.no_groups Re.accept
      = Some (String.length s, gs) ∧
    gs 1%nat = None ∧ gs 2%nat = None ∧ gs 3%nat = None ∧
    gs 4%nat = Some (0%nat, String.length key) ∧
    gs 5%nat = Some (p5, (p5 + String.length value)%nat).
Proof.
  intros Hne Hkey Hc1 Hc2 Hval Heq Hsb Heb.
  destruct key as [|c0 key']; [easy|].
  remember (String c0 key') as key eqn:Ekey in *. intros s p5.
  assert (Hc0 : not_space c0 = true).
  { rewrite Ekey in Hkey. simpl in Hkey. now apply andb_true_iff in Hkey. }
  destruct (class_not_space c0 Hc0) as [Hblank Hnl].
  assert (Hfirst : first_char s = Some c0) by (unfold s; now rewrite Ekey).
  set (gs := Re.set_group 5 (p5, (p5 + String.length value)%nat)
               (Re.set_group 4 (0%nat, (0 + String.length key)%nat)
                  Re.no_groups)).
  exists gs.
  split; [|unfold gs, Re.set_group; simpl; now repeat split].
  (* the key, its [=] and its value *)
  assert (Hkv : Re.exec rgx_key_value 0 s Re.no_groups Re.accept
                = Some (String.length s, gs)).
  { unfold rgx_key_value. rewrite ReOrder.exec_seq, ReOrder.exec_star.
    rewrite ReForward.rep_greedy_stop.
    2:{ intros n Hn Hc. exfalso. unfold s in Hc. rewrite Ekey in Hc.
        destruct n; [lia|]. simpl in Hc. now rewrite Hblank in Hc. }
    cbv beta. rewrite ReOrder.exec_seq, ReVersion.exec_group_plus.
    unfold s. apply ReForward.rep_greedy_pick; [exact Hkey| | |].
    { rewrite Ekey. simpl. lia. }
    { intros n Hn _. cbv beta.
      destruct n as [|n]; [lia|].
      change (str_drop (S n) ("=" +:+ value)) with (str_drop n value).
      apply ReForward.exec_without. now apply ReForward.str_forall_drop. }
    cbv beta. rewrite ReOrder.exec_seq, ReOrder.exec_star.
    rewrite ReForward.rep_greedy_stop.
    2:{ intros n Hn Hc. exfalso. destruct n; [lia|]. simpl in Hc.
        discriminate. }
    cbv beta. rewrite ReVersion.exec_chr_run.
    rewrite ReOrder.exec_seq, ReOrder.exec_star.
    rewrite ReForward.rep_greedy_stop.
    2:{ intros n Hn Hc. exfalso. destruct n; [lia|].
        destruct value as [|c v]; [simpl in Hn; lia|].
        simpl in Hc, Hsb. now rewrite Hsb in Hc. }
    cbv beta. unfold rgx_value.
    rewrite ReOrder.exec_seq, ReOrder.exec_group_star_lazy.
    rewrite <- (str_app_nil_r value) at 1.
    apply ReForward.rep_lazy_pick; [exact Hval|lia| |].
    { intros n Hn. cbv beta. rewrite str_app_nil_r.
      match goal with
      | |- Re.exec ?r ?p ?rest ?g Re.accept = None =>
          destruct (Re.exec r p rest g Re.accept) eqn:E; [exfalso|reflexivity];
          assert (Hs : is_Some (Re.exec rgx_tail p rest g Re.accept))
            by (unfold rgx_tail; rewrite E; eauto)
      end.
      apply ReOrder.exec_tail in Hs.
      rewrite ReForward.line_end_inside in Hs; [discriminate|auto..]. lia. }
    cbv beta. unfold gs, p5, s.
    rewrite !str_length_app. cbn [String.length].
    match goal with
    | |- _ = Some (?n, _) =>
        replace n with (S (0 + String.length key) + String.length value)%nat
          by lia
    end.
    reflexivity. }
  (* the alternatives before it *)
  rewrite rgx_ini_parser_alternatives.
  change (Re.exec (Re.Alt (Re.Group 1 (Re.Chr nl)) rgx_line) 0 s
            Re.no_groups Re.accept)
    with (Re.orelse (Re.exec (Re.Group 1 (Re.Chr nl)) 0 s
                       Re.no_groups Re.accept)
            (Re.orelse (Re.exec rgx_comment 0 s Re.no_groups Re.accept)
               (Re.orelse (Re.exec rgx_section 0 s Re.no_groups Re.accept)
                  (Re.orelse
                     (Re.exec rgx_key_value 0 s Re.no_groups Re.accept)
                     (Re.exec rgx_unknown 0 s Re.no_groups Re.accept))))).
  assert (H1 : Re.exec (Re.Group 1 (Re.Chr nl)) 0 s Re.no_groups Re.accept
               = None).
  { unfold s. rewrite Ekey.
    change (String c0 key' +:+ "=" +:+ value)
      with (String c0 (key' +:+ "=" +:+ value)).
    cbn [Re.exec]. now rewrite Hnl. }
  assert (H2 : Re.exec rgx_comment 0 s Re.no_groups Re.accept = None).
  { destruct (Re.exec rgx_comment 0 s Re.no_groups Re.accept) as [[e g]|]
      eqn:E; [exfalso|reflexivity].
    apply ReLine.exec_comment in E as (_ & _ & (b0 & tail & Ht & Hb & _) & _).
    assert (Hf : first_char (b0 +:+ "#" +:+ tail) = Some c0).
    { rewrite <- Ht. apply first_char_take; [exact Hfirst|].
      rewrite Ht. now destruct b0. }
    destruct b0 as [|b b0]; simpl in Hf.
    - injection Hf as <-. rewrite Ekey in Hc1. now apply Hc1.
    - injection Hf as ->. unfold blanks in Hb. simpl in Hb.
      now rewrite Hblank in Hb. }
  assert (H3 : Re.exec rgx_section 0 s Re.no_groups Re.accept = None).
  { destruct (Re.exec rgx_section 0 s Re.no_groups Re.accept) as [[e g]|]
      eqn:E; [exfalso|reflexivity].
    apply ReLine.exec_section in E
      as (_ & _ & a & name & _ & _ & (b0 & b1 & b2 & b3 & Ht & Hb & _)).
    assert (Hf : first_char (b0 +:+ "[" +:+ b1 +:+ name +:+ b2 +:+ "]" +:+ b3)
                 = Some c0).
    { rewrite <- Ht. apply first_char_take; [exact Hfirst|].
      rewrite Ht. now destruct b0. }
    destruct b0 as [|b b0]; simpl in Hf.
    - injection Hf as <-. rewrite Ekey in Hc2. now apply Hc2.
    - injection Hf as ->. unfold blanks in Hb. simpl in Hb.
      now rewrite Hblank in Hb. }
  now rewrite H1, H2, H3, Hkv.
Qed.

(** X23 ([migrate], [parse_configuration], [rgx_ini_parser]): a key that a
    migration wrote is read back as it was written: the text [key=value]
    that [migrate] writes for a renamed or moved key is parsed as the one
    KeyValue fragment of that key and value, when the key is not empty, has
    no white space and does not start with [#] or [[], and the value is
    trimmed and has neither a newline nor an [=]. *)
Theorem key_value_line_parsed (key value : string) :
  key ≠ "" → str_forall not_space key = true →
  first_char key ≠ Some "#"%char → first_char key ≠ Some "["%char →
  str_forall not_nl value = true → without "=" value = true →
  starts_blank value = false → ends_blank value = false →
  parse_configuration (text (key_value_fragment key value))
  = [key_value_fragment key value].
Proof.
  intros Hne Hkey Hc1 Hc2 Hval Heq Hsb Heb.
  destruct (exec_key_value_line key value Hne Hkey Hc1 Hc2 Hval Heq Hsb Heb)
    as (gs & He & G1 & G2 & G3 & G4 & G5).
  cbv zeta in He. unfold key_value_fragment. cbn [text].
  set (s := key +:+ "=" +:+ value) in *.
  unfold parse_configuration, Re.finditer.
  destruct s as [|c rest] eqn:Es.
  { destruct key; [easy|discriminate]. }
  rewrite scan_here, He. rewrite <- Es.
  replace (String.length s - 0 - 1)%nat with (String.length rest)
    by (rewrite Es; simpl; lia).
  rewrite scan_skip_rest. cbn [map].
  rewrite (to_fragment_key_value (Re.mkMatch s 0 (String.length s) gs) _
             G1 G2 G3 G4).
  unfold Re.group_str, Re.group, Re.group0.
  cbn [Re.m_groups Re.m_string Re.m_start Re.m_end]. rewrite G4, G5.
  cbn [default]. f_equal. f_equal.
  - unfold str_slice. rewrite Nat.sub_0_r. apply str_take_all.
  - change s with (EmptyString +:+ key +:+ "=" +:+ value).
    now apply str_slice_app.
  - transitivity (str_slice (S (String.length key))
                    (S (String.length key) + String.length value)
                    ((key +:+ "=") +:+ value +:+ "")).
    + f_equal. rewrite str_app_nil_r. subst s. now rewrite str_app_assoc.
    + apply str_slice_app; rewrite str_length_app; simpl; lia.
Qed.

Lemma key_value_line_parsed_witness :
  "base_inactivity_timeout" ≠ "" ∧
  parse_configuration "base_inactivity_timeout=900"
  = [key_value_fragment "base_inactivity_timeout" "900"].
Proof.
  assert (H : "base_inactivity_timeout" ≠ "") by discriminate.
  split; [exact H|].
  exact (key_value_line_parsed "base_inactivity_timeout" "900" H eq_refl
           ltac:(discriminate) ltac:(discriminate) eq_refl eq_refl eq_refl
           eq_refl).
Defined.
Lemma str_drop_app : ∀ n a b,
  (n ≤ String.length a)%nat → str_drop n (a +:+ b) = str_drop n a +:+ b.
Proof.
  induction n as [|n IH]; intros a b Hn.
  - now rewrite !str_drop_0.
  - destruct a as [|c a]; [simpl in Hn; lia|].
    change (String c a +:+ b) with (String c (a +:+ b)).
    apply IH. simpl in Hn. lia.
Qed.

(** The match of the pattern on a header [[name]]. *)
Lemma exec_section_line name :
  name ≠ "" → str_forall not_nl name = true → without "]" name = true →
  starts_blank name = false → ends_blank name = false →
  let s := "[" +:+ name +:+ "]" in
  ∃ gs,
    Re.exec rgx_ini_parser 0 s Re.no_groups Re.accept
      = Some (String.length s, gs) ∧
    gs 1%nat = None ∧ gs 2%nat = None ∧
    gs 3%nat = Some (1%nat, (1 + String.length name)%nat).
Proof.
  intros Hne Hname Hno Hsb Heb s.
  set (gs := Re.set_group 3 (1%nat, (1 + String.length name)%nat)
               Re.no_groups).
  exists gs. split; [|unfold gs, Re.set_group; simpl; now repeat split].
  assert (Hsec : Re.exec rgx_section 0 s Re.no_groups Re.accept
                 = Some (String.length s, gs)).
  { unfold rgx_section, s. rewrite ReOrder.exec_seq, ReOrder.exec_star.
    rewrite ReForward.rep_greedy_stop.
    2:{ intros n Hn Hc. exfalso. destruct n; [lia|]. discriminate. }
    cbv beta. rewrite ReVersion.exec_chr_run.
    rewrite ReOrder.exec_seq, ReOrder.exec_star.
    rewrite ReForward.rep_greedy_stop.
    2:{ intros n Hn Hc. exfalso. destruct n; [lia|].
        destruct name as [|c name]; [easy|].
        simpl in Hc, Hsb. now rewrite Hsb in Hc. }
    cbv beta. rewrite ReOrder.exec_seq, ReForward.exec_group_plus_lazy.
    apply ReForward.rep_lazy_pick; [exact Hname| | |].
    { destruct name; [easy|simpl; lia]. }
    { intros n Hn. cbv beta. rewrite str_drop_app by lia.
      apply ReForward.exec_until.
      - intros H. apply (f_equal String.length) in H.
        rewrite str_length_drop in H. simpl in H. lia.
      - now apply ReForward.str_forall_drop.
      - rewrite ReForward.ends_blank_drop by lia. exact Heb.
      - reflexivity. }
    cbv beta. unfold gs. rewrite !str_length_app. cbn [String.length].
    match goal with
    | |- _ = Some (?n, _) =>
        replace n with (S (1 + String.length name)) by lia
    end.
    reflexivity. }
  rewrite rgx_ini_parser_alternatives.
  change (Re.exec (Re.Alt (Re.Group 1 (Re.Chr nl)) rgx_line) 0 s
            Re.no_groups Re.accept)
    with (Re.orelse (Re.exec rgx_section 0 s Re.no_groups Re.accept)
            (Re.orelse (Re.exec rgx_key_value 0 s Re.no_groups Re.accept)
               (Re.exec rgx_unknown 0 s Re.no_groups Re.accept))).
  now rewrite Hsec.
Qed.

(** X24 ([migrate], [parse_configuration], [rgx_ini_parser]): a header that
    a migration wrote is read back as it was written: the text [[name]]
    that [migrate] writes for a renamed or a new section is parsed as the
    one Section fragment of that name, when the name is not empty, is
    trimmed and has neither a newline nor a []]. *)
Theorem section_line_parsed (name : string) :
  name ≠ "" → str_forall not_nl name = true → without "]" name = true →
  starts_blank name = false → ends_blank name = false →
  parse_configuration (text (section_fragment name))
  = [section_fragment name].
Proof.
  intros Hne Hname Hno Hsb Heb.
  destruct (exec_section_line name Hne Hname Hno Hsb Heb)
    as (gs & He & G1 & G2 & G3).
  cbv zeta in He. unfold section_fragment. cbn [text Fragment1].
  set (s := "[" +:+ name +:+ "]") in *.
  unfold parse_configuration, Re.finditer.
  change (Re.scan rgx_ini_parser s 0 s 0)
    with (Re.scan rgx_ini_parser s 0 (String "[" (name +:+ "]")) 0).
  rewrite scan_here.
  change (String "[" (name +:+ "]")) with s. rewrite He.
  replace (String.length s - 0 - 1)%nat with (String.length (name +:+ "]"))
    by (unfold s; change ("[" +:+ name +:+ "]")
                    with (String "[" (name +:+ "]"));
        cbn [String.length]; lia).
  rewrite scan_skip_rest. cbn [map].
  rewrite (to_fragment_section (Re.mkMatch s 0 (String.length s) gs) _
             G1 G2 G3).
  unfold Re.group_str, Re.group, Re.group0.
  cbn [Re.m_groups Re.m_string Re.m_start Re.m_end]. rewrite G3.
  cbn [default]. unfold Fragment1. f_equal. f_equal.
  - unfold str_slice. rewrite Nat.sub_0_r. apply str_take_all.
  - now apply str_slice_app.
Qed.

Lemma section_line_parsed_witness :
  "session_probe" ≠ "" ∧
  parse_configuration "[session_probe]" = [section_fragment "session_probe"].
Proof.
  assert (H : "session_probe" ≠ "") by discriminate.
  split; [exact H|].
  exact (section_line_parsed "session_probe" H eq_refl eq_refl eq_refl
           eq_refl).
Defined.
